(** * Belief propagation on factor graphs (lab02_costantini_kooijman.py)

    A shallow embedding of the sum-product / max-sum engine: the numpy
    operations the program calls, the node objects with their inboxes,
    the message functions of [Variable] and [Factor], the two-sweep
    scheduler and the belief extraction.

    Numbers are kept abstract behind the [Scalar] interface (numpy uses
    IEEE doubles; rounding is not modelled).  Two instances are used:
    the reals with the natural logarithm, and rationals
    extended with the IEEE special values. *)

From Stdlib Require Import QArith Reals Lra Lia.
From stdpp Require Import gmap strings list.

(** ** Scalars *)

Class Scalar (A : Type) := {
  zero : A;
  one : A;
  tiny : A;                  (* the literal 0.000001 *)
  add : A → A → A;
  mul : A → A → A;
  div : A → A → A;
  maximum : A → A → A;       (* np.maximum on two scalars *)
  gtb : A → A → bool;        (* the comparison argmax advances on *)
  is_zero : A → bool         (* Python truth value: [not x] *)
}.

Class Log (A : Type) := log : A → A.

(** ** Exceptions *)

Inductive exn :=
  | KeyError | ValueError | TypeError | IndexError
  | AssertionError | AttributeError | Exception
  | Dangling.   (* model only: an identifier that names no object *)

Inductive outcome (T : Type) :=
  | Ok (v : T)
  | Raise (e : exn).
Arguments Ok {T} v.
Arguments Raise {T} e.

Definition obind {T U} (o : outcome T) (k : T → outcome U) : outcome U :=
  match o with Ok v => k v | Raise e => Raise e end.

(** ** numpy arrays

    An array is its shape together with the element at every
    multi-index; [ravel] lists the elements in row-major order. *)

Section ndarray.
Context {A : Type}.

Record ndarray := NDArray { shape : list nat; item : list nat → A }.

Definition ndim (x : ndarray) : nat := length (shape x).

Fixpoint indices (s : list nat) : list (list nat) :=
  match s with
  | [] => [[]]
  | n :: s' => flat_map (λ i, cons i <$> indices s') (seq 0 n)
  end.

Definition ravel (x : ndarray) : list A := item x <$> indices (shape x).

Definition full (s : list nat) (c : A) : ndarray := NDArray s (λ _, c).

(** np.array on a Python list / list of lists *)
Definition array1 (l : list A) (d : A) : ndarray :=
  NDArray [length l] (λ idx, nth (nth 0 idx 0) l d).
Definition array2 (rows : list (list A)) (d : A) : ndarray :=
  NDArray [length rows; length (nth 0 rows [])]
          (λ idx, nth (nth 1 idx 0) (nth (nth 0 idx 0) rows []) d).

(** *** Broadcasting *)

Fixpoint broadcast_rev (s1 s2 : list nat) : option (list nat) :=
  match s1, s2 with
  | [], s | s, [] => Some s
  | a :: s1', b :: s2' =>
      match broadcast_rev s1' s2' with
      | None => None
      | Some r =>
          if decide (a = b) then Some (a :: r)
          else if decide (a = 1) then Some (b :: r)
          else if decide (b = 1) then Some (a :: r)
          else None
      end
  end.

Definition broadcast_shapes (s1 s2 : list nat) : option (list nat) :=
  reverse <$> broadcast_rev (reverse s1) (reverse s2).

(** the index read in an operand of shape [s] for result index [idx] *)
Definition bindex (s idx : list nat) : list nat :=
  zip_with (λ d i, if decide (d = 1) then 0 else i)
           s (drop (length idx - length s) idx).

(** x op y, a new array *)
Definition ufunc2 (op : A → A → A) (x y : ndarray) : outcome ndarray :=
  match broadcast_shapes (shape x) (shape y) with
  | Some s =>
      Ok (NDArray s (λ idx, op (item x (bindex (shape x) idx))
                               (item y (bindex (shape y) idx))))
  | None => Raise ValueError
  end.

(** x op= y on an ndarray x: the result must fit x *)
Definition ufunc2_inplace (op : A → A → A) (x y : ndarray)
  : outcome ndarray :=
  match broadcast_shapes (shape x) (shape y) with
  | Some s =>
      if decide (s = shape x)
      then Ok (NDArray s (λ idx, op (item x idx)
                                    (item y (bindex (shape y) idx))))
      else Raise ValueError
  | None => Raise ValueError
  end.

Definition ufunc1 (f : A → A) (x : ndarray) : ndarray :=
  NDArray (shape x) (λ idx, f (item x idx)).

(** *** Python values held by the local variables [prob], [msg], [mm]:
    a plain number until the first augmented assignment rebinds it *)

Inductive pyval :=
  | PyNum (a : A)
  | PyArr (x : ndarray).

Definition to_array (v : pyval) : ndarray :=
  match v with PyNum a => NDArray [] (λ _, a) | PyArr x => x end.

Definition from_array (x : ndarray) : pyval :=
  match shape x with [] => PyNum (item x []) | _ => PyArr x end.

(** v op= y *)
Definition aug_assign (op : A → A → A) (v : pyval) (y : ndarray)
  : outcome pyval :=
  match v with
  | PyNum a => Ok (from_array (ufunc1 (op a) y))
  | PyArr x => obind (ufunc2_inplace op x y) (λ r, Ok (PyArr r))
  end.

(** v op w *)
Definition binop (op : A → A → A) (v w : pyval) : outcome pyval :=
  obind (ufunc2 op (to_array v) (to_array w)) (λ r, Ok (from_array r)).

(** *** Axis bookkeeping *)

(** list.index *)
Fixpoint index {T} `{EqDecision T} (x : T) (l : list T) : option nat :=
  match l with
  | [] => None
  | y :: l' => if decide (y = x) then Some 0 else S <$> index x l'
  end.

Definition pos (p : nat) (l : list nat) : nat := default 0 (index p l).

(** the index of length [n] that reads [i1] on the axes [ax1] and
    [i2] on the axes [ax2] *)
Definition gather (n : nat) (ax1 i1 ax2 i2 : list nat) : list nat :=
  (λ p, if decide (p ∈ ax1) then nth (pos p ax1) i1 0
        else nth (pos p ax2) i2 0) <$> seq 0 n.

Definition axes_shape (x : ndarray) (axes : list nat) : list nat :=
  (λ k, nth k (shape x) 0) <$> axes.

Definition transpose (x : ndarray) (axes : list nat) : ndarray :=
  NDArray (axes_shape x axes)
          (λ idx, item x ((λ p, nth (pos p axes) idx 0) <$> seq 0 (ndim x))).
End ndarray.
Arguments ndarray A : clear implicits.
Arguments pyval A : clear implicits.

(** ** The numpy and builtin functions the program calls *)

Section numpy.
Context {A : Type} `{Scalar A}.

Definition np_ones (n : nat) : ndarray A := full [n] one.
Definition np_zeros (n : nat) : ndarray A := full [n] zero.

Definition np_log `{Log A} (x : ndarray A) : ndarray A := ufunc1 log x.

(** sum of a list in the order it is traversed, from 0 *)
Definition sum_list (l : list A) : A := fold_left add l zero.

(** np.tile(x, reps): the shorter of shape and reps is padded with
    ones on the left *)
Definition np_tile (x : ndarray A) (reps : list nat) : ndarray A :=
  let d := ndim x `max` length reps in
  let s := replicate (d - ndim x) 1 ++ shape x in
  let r := replicate (d - length reps) 1 ++ reps in
  NDArray (zip_with Nat.mul s r)
          (λ idx, item x (drop (d - ndim x)
                               (zip_with (λ i n, i mod n) idx s))).

(** list.insert(i, x) for 0 <= i *)
Definition list_insert {T} (i : nat) (x : T) (l : list T) : list T :=
  take i l ++ x :: drop i l.

(** list.remove(x): drops the first occurrence (x is present where
    the program calls it) *)
Fixpoint list_remove (x : nat) (l : list nat) : list nat :=
  match l with
  | [] => []
  | y :: l' => if decide (y = x) then l' else y :: list_remove x l'
  end.

(** np.rollaxis(x, axis, start) for non-negative arguments *)
Definition np_rollaxis (x : ndarray A) (axis start : nat)
  : outcome (ndarray A) :=
  let n := ndim x in
  if decide (n ≤ axis) then Raise ValueError
  else if decide (n < start) then Raise ValueError
  else
    let start := if decide (axis < start) then start - 1 else start in
    if decide (axis = start) then Ok x
    else Ok (transpose x (list_insert start axis (list_remove axis (seq 0 n)))).

(** np.amax(x, axis=axes) for a tuple of non-negative axes *)
Definition np_amax (x : ndarray A) (axes : list nat)
  : outcome (ndarray A) :=
  let n := ndim x in
  if decide (Forall (λ k, k < n) axes ∧ NoDup axes) then
    if decide (0 ∈ axes_shape x axes) then Raise ValueError
    else
      let kept := filter (λ k, k ∉ axes) (seq 0 n) in
      Ok (NDArray (axes_shape x kept)
            (λ idx,
               match (λ r, item x (gather n axes r kept idx))
                       <$> indices (axes_shape x axes) with
               | [] => zero
               | v :: vs => fold_left maximum vs v
               end))
  else Raise ValueError.

(** np.tensordot(a, b, axes=(axes_a, axes_b)) for non-negative axes:
    the listed axes are summed over pairwise, the result is indexed
    by the remaining axes of a followed by those of b *)
Definition np_tensordot (a b : ndarray A) (axes_a axes_b : list nat)
  : outcome (ndarray A) :=
  if decide (length axes_a = length axes_b
             ∧ axes_shape a axes_a = axes_shape b axes_b
             ∧ Forall (λ k, k < ndim a) axes_a
             ∧ Forall (λ k, k < ndim b) axes_b) then
    let notin_a := filter (λ k, k ∉ axes_a) (seq 0 (ndim a)) in
    let notin_b := filter (λ k, k ∉ axes_b) (seq 0 (ndim b)) in
    Ok (NDArray (axes_shape a notin_a ++ axes_shape b notin_b)
          (λ idx,
             let i := take (length notin_a) idx in
             let j := drop (length notin_a) idx in
             sum_list
               ((λ k, mul (item a (gather (ndim a) axes_a k notin_a i))
                          (item b (gather (ndim b) axes_b k notin_b j)))
                  <$> indices (axes_shape a axes_a))))
  else Raise ValueError.

(** np.ix_ applied to the vectors vs: every argument is 1-D; the k-th result has the
    length of the k-th argument on axis k and 1 elsewhere *)
Definition np_ix_ (vs : list (ndarray A)) : outcome (list (ndarray A)) :=
  if decide (Forall (λ v, ndim v = 1) vs) then
    Ok (imap (λ k v,
                NDArray (<[k := nth 0 (shape v) 0]> (replicate (length vs) 1))
                        (λ idx, item v [nth k idx 0])) vs)
  else Raise ValueError.

(** the builtin reduce(f, seq) without initial value *)
Definition py_reduce {T} (f : T → T → outcome T) (l : list T) : outcome T :=
  match l with
  | [] => Raise TypeError
  | x :: l' => fold_left (λ acc y, obind acc (λ a, f a y)) l' (Ok x)
  end.

(** ufunc.reduce over axis 0 of the array built from a list of arrays
    of one shape (a list of arrays of different shapes is not a
    numeric array: ValueError) *)
Definition ufunc_reduce (op : A → A → A) (unit : A) (vs : list (ndarray A))
  : outcome (ndarray A) :=
  match vs with
  | [] => Ok (NDArray [] (λ _, unit))
  | v :: vs' =>
      if decide (Forall (λ w, shape w = shape v) vs') then
        Ok (NDArray (shape v)
              (λ idx, fold_left op ((λ w, item w idx) <$> vs') (item v idx)))
      else Raise ValueError
  end.

Definition np_multiply_reduce := ufunc_reduce mul one.
(** np.sum(vs, axis=0) *)
Definition np_sum_axis0 := ufunc_reduce add zero.

(** np.argmax: position of the first maximum of the flattened array *)
Fixpoint argmax_from (best : A) (bi i : nat) (l : list A) : nat :=
  match l with
  | [] => bi
  | y :: l' =>
      if gtb y best then argmax_from y i (S i) l'
      else argmax_from best bi (S i) l'
  end.

Definition np_argmax (x : ndarray A) : outcome nat :=
  match ravel x with
  | [] => Raise ValueError
  | v :: vs => Ok (argmax_from v 0 1 vs)
  end.

(** the sub-arrays x[0], x[1], ... a Python loop over x visits *)
Definition py_iter (x : ndarray A) : outcome (list (pyval A)) :=
  match shape x with
  | [] => Raise TypeError
  | n :: s =>
      Ok ((λ i, from_array (NDArray s (λ idx, item x (i :: idx)))) <$> seq 0 n)
  end.

(** the builtin sum(v) *)
Definition py_sum (v : pyval A) : outcome (pyval A) :=
  match v with
  | PyNum _ => Raise TypeError
  | PyArr x =>
      obind (py_iter x)
            (λ rows, fold_left (λ acc r, obind acc (λ a, binop add a r))
                               rows (Ok (PyNum zero)))
  end.
End numpy.

(** ** Objects

    Nodes are Python objects compared by identity: a node is named by
    its key in the store.  Arrays are objects too (a message handed to
    [receive_msg] is stored by reference, and [observed_state] is
    written in place), so they live in a heap and are named by their
    position in it.  [history] is a ghost log of the deliveries
    [(sender, receiver)] made by [receive_msg]; no operation reads it. *)

Inductive cls :=
  | BaseNode
  | VariableNode (num_states : nat) (latent : bool) (observed_state : nat)
  | FactorNode (f : option nat).   (* None until [self.f = f] has run *)

Record node := Node {
  name : string;
  neighbours : list nat;
  in_msgs : gmap nat nat;
  pending : gset nat;
  kind : cls
}.

Record store (A : Type) := Store {
  nodes : gmap nat node;
  heap : list (ndarray A);
  history : list (nat * nat)
}.
Arguments Store {A}.
Arguments nodes {A}.
Arguments heap {A}.
Arguments history {A}.

Definition empty_store {A} : store A := Store ∅ [] [].

(** ** State and exceptions *)

Section monad.
Context {A : Type}.

Definition M (T : Type) : Type := store A → outcome T * store A.

Definition ret {T} (v : T) : M T := λ st, (Ok v, st).
Definition raise {T} (e : exn) : M T := λ st, (Raise e, st).
Definition bind {T U} (m : M T) (k : T → M U) : M U :=
  λ st, match m st with
        | (Ok v, st') => k v st'
        | (Raise e, st') => (Raise e, st')
        end.
Definition lift {T} (o : outcome T) : M T := λ st, (o, st).
Definition assert (b : bool) : M unit :=
  if b then ret () else raise AssertionError.
End monad.
Arguments M A T : clear implicits.

Notation "x <- m ;; k" := (bind m (λ x, k))
  (at level 100, m at next level, right associativity,
   format "x  <-  m  ;;  '/' k").
Notation "m ;;; k" := (bind m (λ _, k))
  (at level 100, right associativity, format "m  ;;;  '/' k").

Section objects.
Context {A : Type}.

Definition get_node (i : nat) : M A node :=
  λ st, match nodes st !! i with
        | Some n => (Ok n, st)
        | None => (Raise Dangling, st)
        end.

Definition update_node (i : nat) (g : node → node) : M A unit :=
  n <- get_node i ;;
  λ st, (Ok (), Store (<[i := g n]> (nodes st)) (heap st) (history st)).

(** a new object gets an unused identity *)
Definition new_node (n : node) : M A nat :=
  λ st, let i := fresh (dom (nodes st)) in
        (Ok i, Store (<[i := n]> (nodes st)) (heap st) (history st)).

Definition alloc (x : ndarray A) : M A nat :=
  λ st, (Ok (length (heap st)),
         Store (nodes st) (heap st ++ [x]) (history st)).

Definition deref (l : nat) : M A (ndarray A) :=
  λ st, match heap st !! l with
        | Some x => (Ok x, st)
        | None => (Raise Dangling, st)
        end.

(** an in-place write to the array at [l] *)
Definition write (l : nat) (x : ndarray A) : M A unit :=
  λ st, (Ok (), Store (nodes st) (<[l := x]> (heap st)) (history st)).

Definition record_delivery (sender receiver : nat) : M A unit :=
  λ st, (Ok (), Store (nodes st) (heap st)
                      (history st ++ [(sender, receiver)])).

Fixpoint mapM {T U} (g : T → M A U) (l : list T) : M A (list U) :=
  match l with
  | [] => ret []
  | x :: l' => y <- g x ;; ys <- mapM g l' ;; ret (y :: ys)
  end.

Fixpoint for_each {T} (l : list T) (body : T → M A unit) : M A unit :=
  match l with
  | [] => ret ()
  | x :: l' => body x ;;; for_each l' body
  end.

Fixpoint foldM {T U} (g : U → T → M A U) (l : list T) (acc : U) : M A U :=
  match l with
  | [] => ret acc
  | x :: l' => acc' <- g acc x ;; foldM g l' acc'
  end.

(** self.in_msgs[nb], read off the snapshot [n] of self *)
Definition in_msg (n : node) (nb : nat) : M A (ndarray A) :=
  match in_msgs n !! nb with
  | Some l => deref l
  | None => raise KeyError
  end.

Definition set_neighbours (v : list nat) (n : node) : node :=
  Node (name n) v (in_msgs n) (pending n) (kind n).
Definition set_in_msgs (v : gmap nat nat) (n : node) : node :=
  Node (name n) (neighbours n) v (pending n) (kind n).
Definition set_pending (v : gset nat) (n : node) : node :=
  Node (name n) (neighbours n) (in_msgs n) v (kind n).
Definition set_kind (v : cls) (n : node) : node :=
  Node (name n) (neighbours n) (in_msgs n) (pending n) v.
End objects.

(** ** class Node *)

Module Node.
Section defs.
Context {A : Type}.

Definition __init__ (name : string) : M A nat :=
  new_node (Node name [] ∅ ∅ BaseNode).

Definition reset (self : nat) : M A unit :=
  update_node self (λ n, set_pending ∅ (set_in_msgs ∅ n)).

Definition add_neighbour (self nb : nat) : M A unit :=
  update_node self (λ n, set_neighbours (neighbours n ++ [nb]) n).

Definition receive_msg (self other msg : nat) : M A unit :=
  update_node self (λ n, set_in_msgs (<[other := msg]> (in_msgs n)) n) ;;;
  update_node self (λ n,
    set_pending (pending n ∪ (list_to_set (neighbours n) ∖ {[other]})) n) ;;;
  record_delivery other self.

(** self.pending.discard(other) *)
Definition pending_discard (self other : nat) : M A unit :=
  update_node self (λ n, set_pending (pending n ∖ {[other]}) n).

Definition send_sp_msg (self other : nat) : M A unit := raise Exception.
Definition send_ms_msg (self other : nat) : M A unit := raise Exception.
End defs.
End Node.

(** ** class Variable(Node) *)

Module Variable_.
Section defs.
Context {A : Type} `{Scalar A}.

(** Variable.reset: Node.reset, then a fresh all-ones observed_state.
    The [latent] attribute is not assigned. *)
Definition reset (self : nat) : M A unit :=
  Node.reset self ;;;
  n <- get_node self ;;
  match kind n with
  | VariableNode num_states latent _ =>
      obs <- alloc (np_ones num_states) ;;
      update_node self (set_kind (VariableNode num_states latent obs))
  | _ => raise AttributeError
  end.

(** num_states and latent are set, then Node.__init__ names the
    object, gives it no neighbours and calls self.reset() *)
Definition __init__ (name : string) (num_states : nat) : M A nat :=
  self <- new_node (Node name [] ∅ ∅ (VariableNode num_states true 0)) ;;
  reset self ;;;
  ret self.

(** x[k] for a Python integer k on an axis of length n *)
Definition py_index (k : Z) (n : nat) : outcome nat :=
  if decide (0 ≤ k < Z.of_nat n)%Z then Ok (Z.to_nat k)
  else if decide (- Z.of_nat n ≤ k < 0)%Z then Ok (Z.to_nat (Z.of_nat n + k))
  else Raise IndexError.

(** x[k] = c, in place *)
Definition setitem (x : ndarray A) (k : Z) (c : A) : outcome (ndarray A) :=
  match shape x with
  | [] => Raise IndexError
  | n :: _ =>
      obind (py_index k n) (λ i,
        Ok (NDArray (shape x)
              (λ idx, if decide (nth 0 idx 0 = i) then c else item x idx)))
  end.

Definition set_observed (self : nat) (observed_state : Z) : M A unit :=
  n <- get_node self ;;
  match kind n with
  | VariableNode num_states _ obs =>
      update_node self (set_kind (VariableNode num_states false obs)) ;;;
      x <- deref obs ;;
      write obs (full (shape x) tiny) ;;;
      x' <- lift (setitem (full (shape x) tiny) observed_state one) ;;
      write obs x'
  | _ => raise AttributeError
  end.

Definition set_latent (self : nat) : M A unit :=
  n <- get_node self ;;
  match kind n with
  | VariableNode num_states _ obs =>
      update_node self (set_kind (VariableNode num_states true obs)) ;;;
      x <- deref obs ;;
      write obs (full (shape x) one)
  | _ => raise AttributeError
  end.

Definition marginal (self : nat) (Z : option A)
  : M A (pyval A * pyval A) :=
  n <- get_node self ;;
  prob <- foldM (λ prob factor,
                   m <- in_msg n factor ;;
                   lift (aug_assign mul prob m))
                (neighbours n) (PyNum one) ;;
  Z <- match Z with
       | Some z => if is_zero z then lift (py_sum prob) else ret (PyNum z)
       | None => lift (py_sum prob)
       end ;;
  marginal <- lift (binop div prob Z) ;;
  ret (marginal, Z).

Definition send_sp_msg (self other : nat) : M A unit :=
  n <- get_node self ;;
  match kind n with
  | VariableNode num_states latent obs =>
      if negb latent then
        Node.receive_msg other self obs ;;;
        Node.pending_discard self other
      else
        let nbs := filter (λ nb, nb ≠ other) (neighbours n) in
        msg <- (if decide (length nbs = 0) then alloc (np_ones num_states)
                else
                  vectors <- mapM (in_msg n) nbs ;;
                  r <- lift (np_multiply_reduce vectors) ;;
                  alloc r) ;;
        Node.receive_msg other self msg ;;;
        Node.pending_discard self other
  | _ => raise AttributeError
  end.

Definition send_ms_msg (self other : nat) : M A unit :=
  n <- get_node self ;;
  match kind n with
  | VariableNode num_states latent obs =>
      if negb latent then
        Node.receive_msg other self obs ;;;
        Node.pending_discard self other
      else
        let nbs := filter (λ nb, nb ≠ other) (neighbours n) in
        msg <- (if decide (length nbs = 0) then alloc (np_zeros num_states)
                else
                  r <- foldM (λ msg f,
                                m <- in_msg n f ;;
                                lift (aug_assign add msg m))
                             nbs (PyNum zero) ;;
                  alloc (to_array r)) ;;
        Node.receive_msg other self msg ;;;
        Node.pending_discard self other
  | _ => raise AttributeError
  end.
End defs.
End Variable_.

(** ** class Factor(Node) *)

Module Factor.
Section defs.
Context {A : Type} `{Scalar A}.

(** nb.num_states *)
Definition num_states_of (nb : nat) : M A nat :=
  n <- get_node nb ;;
  match kind n with
  | VariableNode num_states _ _ => ret num_states
  | _ => raise AttributeError
  end.

(** self.f *)
Definition potential (f : option nat) : M A (ndarray A) :=
  match f with
  | Some l => deref l
  | None => raise AttributeError
  end.

Definition __init__ (name : string) (f : nat) (neighbours : list nat)
  : M A nat :=
  self <- new_node (Node name [] ∅ ∅ (FactorNode None)) ;;
  fa <- deref f ;;
  assert (bool_decide (length neighbours = ndim fa)) ;;;
  for_each (seq 0 (length neighbours)) (λ nb_ind,
    match neighbours !! nb_ind with
    | Some nb =>
        num_states <- num_states_of nb ;;
        assert (bool_decide (nth nb_ind (shape fa) 0 = num_states)) ;;;
        Node.add_neighbour self nb ;;;
        Node.add_neighbour nb self
    | None => raise IndexError
    end) ;;;
  update_node self (set_kind (FactorNode (Some f))) ;;;
  ret self.

Definition send_sp_msg (self other : nat) : M A unit :=
  n <- get_node self ;;
  match kind n with
  | FactorNode f =>
      let nbs := filter (λ nb, nb ≠ other) (neighbours n) in
      msg <- (if decide (length nbs = 0) then
                match f with
                | Some l => ret l
                | None => raise AttributeError
                end
              else
                vectors <- mapM (in_msg n) nbs ;;
                ixs <- lift (np_ix_ vectors) ;;
                mm <- lift (py_reduce (ufunc2 mul) ixs) ;;
                other_i <- lift (match index other (neighbours n) with
                                 | Some i => Ok i
                                 | None => Raise ValueError
                                 end) ;;
                let f_axes := filter (λ i, i ≠ other_i)
                                     (seq 0 (length (neighbours n))) in
                fa <- potential f ;;
                r <- lift (np_tensordot fa mm f_axes (seq 0 (ndim mm))) ;;
                alloc r) ;;
      Node.receive_msg other self msg ;;;
      Node.pending_discard self other
  | _ => raise AttributeError
  end.

Definition send_ms_msg `{Log A} (self other : nat) : M A unit :=
  n <- get_node self ;;
  match kind n with
  | FactorNode f =>
      let nbs := filter (λ nb, nb ≠ other) (neighbours n) in
      msg <- (if decide (length nbs = 0) then
                fa <- potential f ;;
                alloc (np_log fa)
              else
                dims <- mapM num_states_of nbs ;;
                mm <- foldM (λ mm nb,
                               i <- lift (match index nb nbs with
                                          | Some i => Ok i
                                          | None => Raise ValueError
                                          end) ;;
                               let dim_copy := delete i dims ++ [1] in
                               m <- in_msg n nb ;;
                               let t := np_tile m dim_copy in
                               t <- lift (np_rollaxis t 0 i) ;;
                               lift (aug_assign add mm t))
                            nbs (PyNum zero) ;;
                other_i <- lift (match index other (neighbours n) with
                                 | Some i => Ok i
                                 | None => Raise ValueError
                                 end) ;;
                let f_axes := filter (λ i, i ≠ other_i)
                                     (seq 0 (length (neighbours n))) in
                fa <- potential f ;;
                s <- lift (binop add (PyArr (np_log fa)) mm) ;;
                r <- lift (np_amax (to_array s) f_axes) ;;
                alloc r) ;;
      Node.receive_msg other self msg ;;;
      Node.pending_discard self other
  | _ => raise AttributeError
  end.
End defs.
End Factor.

(** ** The scheduler and the belief extraction *)

Section scheduler.
Context {A : Type} `{Scalar A} `{Log A}.

(** method dispatch on the class of [self] *)
Definition send_sp_msg (self other : nat) : M A unit :=
  n <- get_node self ;;
  match kind n with
  | BaseNode => Node.send_sp_msg self other
  | VariableNode _ _ _ => Variable_.send_sp_msg self other
  | FactorNode _ => Factor.send_sp_msg self other
  end.

Definition send_ms_msg (self other : nat) : M A unit :=
  n <- get_node self ;;
  match kind n with
  | BaseNode => Node.send_ms_msg self other
  | VariableNode _ _ _ => Variable_.send_ms_msg self other
  | FactorNode _ => Factor.send_ms_msg self other
  end.

(** one pass of [for i, node in enumerate(l)]: [earlier] is l[:i] *)
Fixpoint sweep (max_sum : bool) (earlier rest : list nat) : M A unit :=
  match rest with
  | [] => ret ()
  | node :: rest' =>
      n <- get_node node ;;
      for_each (filter (λ x, x ∉ earlier) (neighbours n))
               (λ neighbour,
                  if max_sum then send_ms_msg node neighbour
                  else send_sp_msg node neighbour) ;;;
      sweep max_sum (earlier ++ [node]) rest'
  end.

Definition set_pending_leaves (node_list : list nat) : M A unit :=
  for_each node_list (λ node,
    n <- get_node node ;;
    if decide (length (neighbours n) = 1) then
      update_node node
        (λ n, set_pending (pending n ∪ {[nth 0 (neighbours n) 0]}) n)
    else ret ()).

Definition sum_product (node_list : list nat) (max_sum : bool) : M A unit :=
  sweep max_sum [] node_list ;;;
  set_pending_leaves node_list ;;;
  sweep max_sum [] (reverse node_list).

Definition best_value (variable : nat) : M A nat :=
  n <- get_node variable ;;
  values <- mapM deref (snd <$> map_to_list (in_msgs n)) ;;
  s <- lift (np_sum_axis0 values) ;;
  lift (np_argmax s).
End scheduler.

(** ** Scalar instances *)

(** Real numbers with the natural logarithm. *)
#[export] Instance R_scalar : Scalar R := {|
  zero := 0%R;
  one := 1%R;
  tiny := (1 / 1000000)%R;
  add := Rplus;
  mul := Rmult;
  div := Rdiv;
  maximum := Rmax;
  gtb x y := if Rlt_dec y x then true else false;
  is_zero x := if Req_dec_T x 0%R then true else false
|}.

#[export] Instance R_log : Log R := ln.

(** Rationals extended with the IEEE special values: what a double
    holds, without rounding and with a single zero. *)
Inductive xrat :=
  | Fin (q : Q)
  | PInf
  | NInf
  | NaN.

Definition xneg (x : xrat) : xrat :=
  match x with Fin q => Fin (Qred (- q)) | PInf => NInf | NInf => PInf | NaN => NaN end.

Definition xinf (positive : bool) : xrat := if positive then PInf else NInf.

Definition xadd (x y : xrat) : xrat :=
  match x, y with
  | NaN, _ | _, NaN => NaN
  | PInf, NInf | NInf, PInf => NaN
  | PInf, _ | _, PInf => PInf
  | NInf, _ | _, NInf => NInf
  | Fin a, Fin b => Fin (Qred (a + b))
  end.

(** inf * q *)
Definition xscale (positive : bool) (q : Q) : xrat :=
  match (q ?= 0)%Q with
  | Eq => NaN
  | Gt => xinf positive
  | Lt => xinf (negb positive)
  end.

Definition xmul (x y : xrat) : xrat :=
  match x, y with
  | NaN, _ | _, NaN => NaN
  | Fin a, Fin b => Fin (Qred (a * b))
  | PInf, Fin q | Fin q, PInf => xscale true q
  | NInf, Fin q | Fin q, NInf => xscale false q
  | PInf, PInf | NInf, NInf => PInf
  | PInf, NInf | NInf, PInf => NInf
  end.

Definition xdiv (x y : xrat) : xrat :=
  match x, y with
  | NaN, _ | _, NaN => NaN
  | Fin a, Fin b =>
      if Qeq_bool b 0 then xscale true a else Fin (Qred (a / b))
  | Fin _, (PInf | NInf) => Fin 0
  | (PInf | NInf), (PInf | NInf) => NaN
  | PInf, Fin b => if Qle_bool 0 b then PInf else NInf
  | NInf, Fin b => if Qle_bool 0 b then NInf else PInf
  end.

(** x < y, false on NaN *)
Definition xltb (x y : xrat) : bool :=
  match x, y with
  | NaN, _ | _, NaN => false
  | _, NInf | PInf, _ => false
  | NInf, _ | _, PInf => true
  | Fin a, Fin b => negb (Qle_bool b a)
  end.

Definition xmaximum (x y : xrat) : xrat :=
  match x, y with
  | NaN, _ | _, NaN => NaN
  | _, _ => if xltb x y then y else x
  end.

(** argmax moves to a larger value, and to the first NaN *)
Definition xgtb (x best : xrat) : bool :=
  match x, best with
  | _, NaN => false
  | NaN, _ => true
  | _, _ => xltb best x
  end.

#[export] Instance xrat_scalar : Scalar xrat := {|
  zero := Fin 0;
  one := Fin 1;
  tiny := Fin (1 # 1000000);
  add := xadd;
  mul := xmul;
  div := xdiv;
  maximum := xmaximum;
  gtb := xgtb;
  is_zero x := match x with Fin q => Qeq_bool q 0 | _ => false end
|}.

(** ** Graph structure read off the store *)

Section graph.
Context {A : Type}.

(** node.neighbours *)
Definition nbrs (st : store A) (u : nat) : list nat :=
  match nodes st !! u with Some n => neighbours n | None => [] end.

(** node.in_msgs *)
Definition inbox (st : store A) (u : nat) : gmap nat nat :=
  match nodes st !! u with Some n => in_msgs n | None => ∅ end.

(** the array a node holds from a neighbour *)
Definition message (st : store A) (u from : nat) : option (ndarray A) :=
  inbox st u !! from ≫= λ l, heap st !! l.

(** a leaves-to-root order: every node has at most one neighbour
    later in the sequence *)
Fixpoint leaves_first (st : store A) (l : list nat) : bool :=
  match l with
  | [] => true
  | u :: r =>
      bool_decide (length (filter (λ v, v ∈ r) (nbrs st u)) ≤ 1)
      && leaves_first st r
  end.

Definition linearizations (st : store A) : list (list nat) :=
  filter (λ l, leaves_first st l = true)
         (permutations (elements (dom (nodes st)))).
End graph.

(** ** The two-variable chain X1 - f12 - X2 with a prior f1 on X1 *)

Section chain.
Context {A : Type} `{Scalar A} `{Log A}.
Variables (p1 p2 q11 q12 q21 q22 : A).

Definition chain : M A (nat * nat * nat * nat) :=
  X1 <- Variable_.__init__ "X1" 2 ;;
  X2 <- Variable_.__init__ "X2" 2 ;;
  a1 <- alloc (array1 [p1; p2] zero) ;;
  a12 <- alloc (array2 [[q11; q12]; [q21; q22]] zero) ;;
  f1 <- Factor.__init__ "f1" a1 [X1] ;;
  f12 <- Factor.__init__ "f12" a12 [X1; X2] ;;
  ret (X1, X2, f1, f12).

(** the graph once built, and the handle of X2 *)
Definition chain_store : store A := snd (chain empty_store).
Definition chain_X2 : nat :=
  match fst (chain empty_store) with
  | Ok (_, X2, _, _) => X2
  | Raise _ => 0
  end.

(** sum_product(order); X2.marginal() *)
Definition chain_marginal (order : list nat) : outcome (list A * pyval A) :=
  fst ((sum_product order false ;;;
        r <- Variable_.marginal chain_X2 None ;;
        ret (ravel (to_array (fst r)), snd r)) chain_store).

(** sum_product(order, max_sum=True); best_value(X2) *)
Definition chain_best_value (order : list nat) : outcome nat :=
  fst ((sum_product order true ;;; best_value chain_X2) chain_store).

(** what X2 holds from f12 after sum_product(order, max_sum=True) *)
Definition chain_max_sum_message (order : list nat) : option (list A) :=
  let st := snd (sum_product order true chain_store) in
  ravel <$> (match elements (dom (inbox st chain_X2)) with
             | [f12] => message st chain_X2 f12
             | _ => None
             end).

(** the values computed for the message from f12 to X2 under
    sum-product, and their sum *)
Definition chain_sp0 : A := add (add zero (mul q11 p1)) (mul q21 p2).
Definition chain_sp1 : A := add (add zero (mul q12 p1)) (mul q22 p2).
Definition chain_Z : A :=
  add (add zero (mul one chain_sp0)) (mul one chain_sp1).

(** the values computed for that message under max-sum *)
Definition chain_ms0 : A :=
  maximum (add (log q11) (add zero (add zero (log p1))))
          (add (log q21) (add zero (add zero (log p1)))).
Definition chain_ms1 : A :=
  maximum (add (log q12) (add zero (add zero (log p2))))
          (add (log q22) (add zero (add zero (log p2)))).
End chain.

(** The chain with f1 = [0.5, 0.5] and f12 = [[0.9, 0.1], [0.2, 0.8]],
    over the reals. *)
Definition scenario_store : store R :=
  chain_store (1/2)%R (1/2)%R (9/10)%R (1/10)%R (2/10)%R (8/10)%R.
Definition scenario_marginal (order : list nat) : outcome (list R * pyval R) :=
  chain_marginal (1/2)%R (1/2)%R (9/10)%R (1/10)%R (2/10)%R (8/10)%R order.
Definition scenario_best_value (order : list nat) : outcome nat :=
  chain_best_value (1/2)%R (1/2)%R (9/10)%R (1/10)%R (2/10)%R (8/10)%R order.

(** ** The factor messages as the specification words them *)

Section factor_messages.
Context {A : Type} `{Scalar A}.

(** product of a non-empty list, from its first element *)
Definition prod_list (l : list A) : A :=
  match l with
  | [] => one
  | x :: l' => fold_left mul l' x
  end.

(** Outer product of 1-D messages: one axis per message, in order. *)
Definition outer (vs : list (ndarray A)) : ndarray A :=
  NDArray ((λ v, nth 0 (shape v) 0) <$> vs)
          (λ idx, prod_list (imap (λ k v, item v [nth k idx 0]) vs)).

(** Contraction of the potential [fa] against [T] over every axis of
    [fa] except [to_axis]: the k-th remaining axis of [fa] is matched
    with axis k of [T]. *)
Definition contract (fa : ndarray A) (to_axis : nat) (T : ndarray A)
  : ndarray A :=
  NDArray [nth to_axis (shape fa) 0]
          (λ idx, sum_list
                    ((λ k, mul (item fa (list_insert to_axis (nth 0 idx 0) k))
                               (item T k))
                       <$> indices (shape T))).

(** The max-sum message: every message of [msgs] (paired with the
    potential axis of its sender) is read at the cell's coordinate on
    that axis, the readings are summed and added to log(potential),
    and the maximum is taken over all cells that agree on
    [to_axis]. *)
Definition max_sum_message `{Log A} (fa : ndarray A) (to_axis : nat)
    (msgs : list (nat * ndarray A)) : ndarray A :=
  let others := filter (λ k, k ≠ to_axis) (seq 0 (ndim fa)) in
  NDArray [nth to_axis (shape fa) 0]
          (λ idx,
             match (λ r, let cell := list_insert to_axis (nth 0 idx 0) r in
                         add (log (item fa cell))
                             (sum_list ((λ am, item am.2 [nth am.1 cell 0])
                                          <$> msgs)))
                     <$> indices (axes_shape fa others) with
             | [] => zero
             | v :: vs => fold_left maximum vs v
             end).
End factor_messages.

(** ** Inputs on which the program is run below *)

Section inputs.
Context {A : Type} `{Scalar A}.

(** A 2x2 factor over X1, X2 that holds the message [m0, m1] from X1
    and sends its max-sum message to X2. *)
Definition pairwise_max_sum `{Log A} (f00 f01 f10 f11 m0 m1 : A)
  : option (list A) :=
  let run :=
    X1 <- Variable_.__init__ "X1" 2 ;;
    X2 <- Variable_.__init__ "X2" 2 ;;
    a <- alloc (array2 [[f00; f01]; [f10; f11]] zero) ;;
    f <- Factor.__init__ "f" a [X1; X2] ;;
    m <- alloc (array1 [m0; m1] zero) ;;
    Node.receive_msg f X1 m ;;;
    Factor.send_ms_msg f X2 ;;;
    ret (X2, f) in
  match run empty_store with
  | (Ok (X2, f), st) => ravel <$> message st X2 f
  | _ => None
  end.

(** Two binary variables and a 2x3 array. *)
Definition two_variables : M A (nat * nat * nat) :=
  X <- Variable_.__init__ "X" 2 ;;
  Y <- Variable_.__init__ "Y" 2 ;;
  a <- alloc (full [2; 3] one) ;;
  ret (X, Y, a).

(** Factor("f", a, [X, Y]) on them: the outcome, and the neighbour
    lists of X and Y before and after the call. *)
Definition mismatched_factor
  : outcome nat * (list nat * list nat) * (list nat * list nat) :=
  match two_variables empty_store with
  | (Ok (X, Y, a), st) =>
      let r := Factor.__init__ "f" a [X; Y] st in
      (fst r, (nbrs st X, nbrs st Y), (nbrs (snd r) X, nbrs (snd r) Y))
  | (Raise e, _) => (Raise e, ([], []), ([], []))
  end.

(** A variable with one factor of potential [p0, p1], after the
    factor has sent its sum-product message: X.marginal(Z). *)
Definition leaf_marginal (p0 p1 : A) (Z : option A)
  : outcome (list A * pyval A) :=
  fst ((X <- Variable_.__init__ "X" 2 ;;
        a <- alloc (array1 [p0; p1] zero) ;;
        f <- Factor.__init__ "f" a [X] ;;
        Factor.send_sp_msg f X ;;;
        r <- Variable_.marginal X Z ;;
        ret (ravel (to_array (fst r)), snd r)) empty_store).
End inputs.

(** ** Predicates used in the statements *)

Section predicates.
Context {A : Type}.

(** a computation that may allocate arrays but leaves the node objects
    and the delivery log alone *)
Definition heap_only {T} (m : M A T) : Prop :=
  ∀ st r st1, m st = (r, st1) →
    nodes st1 = nodes st ∧ history st1 = history st
    ∧ ∀ l x, heap st !! l = Some x → heap st1 !! l = Some x.

(** [st'] is [st] after [sender] has delivered the array at [msg] to
    [receiver]: the inbox entry is overwritten, the delivery is logged,
    and nothing else that a later message computation reads changes *)
Definition delivered (st st' : store A) (sender receiver msg : nat) : Prop :=
  heap st' = heap st
  ∧ history st' = history st ++ [(sender, receiver)]
  ∧ dom (nodes st') = dom (nodes st)
  ∧ (∀ u, nbrs st' u = nbrs st u)
  ∧ (∀ u, kind <$> nodes st' !! u = kind <$> nodes st !! u)
  ∧ inbox st' receiver = <[sender := msg]> (inbox st receiver)
  ∧ (∀ u, u ≠ receiver → inbox st' u = inbox st u).

(** the two statements every send operation ends with *)
Definition deliver (self other msg : nat) : M A unit :=
  Node.receive_msg other self msg ;;; Node.pending_discard self other.

(** node.kind, for an identifier of the store *)
Definition kind_of (st : store A) (u : nat) : option cls :=
  kind <$> nodes st !! u.
End predicates.

(** ** Indices and accumulators *)

Section accumulators.
Context {A : Type}.

(** a multi-index inside an array of shape [s] *)
Definition valid_index (s idx : list nat) : Prop := Forall2 lt idx s.

(** the value a Python number or array contributes at an index *)
Definition val (v : pyval A) (idx : list nat) : A :=
  match v with PyNum a => a | PyArr x => item x idx end.

(** an accumulator of an elementwise loop over arrays of shape [s]: a
    plain number, or an ndarray of that shape *)
Definition acc_of_shape (s : list nat) (v : pyval A) : Prop :=
  match v with PyNum _ => True | PyArr x => shape x = s ∧ s ≠ [] end.
End accumulators.

(** The chain over the extended rationals once f1 has sent its
    sum-product message to X1 (X1 is object 0, X2 is 1, f1 is 2, f12
    is 3). *)
Definition chain_after_prior : store xrat :=
  snd (Factor.send_sp_msg 2 0
         (chain_store (Fin (1#2)) (Fin (1#2))
                      (Fin (9#10)) (Fin (1#10)) (Fin (2#10)) (Fin (8#10)))).

(** ** Frames and send sequences *)

Section frames.
Context {A : Type} `{Scalar A} `{Log A}.

(** what no send operation changes: the class attributes of every
    node, the neighbour lists, and the arrays already on the heap *)
Definition frame (st st1 : store A) : Prop :=
  (∀ u, kind_of st1 u = kind_of st u)
  ∧ (∀ u, nbrs st1 u = nbrs st u)
  ∧ (∀ l x, heap st !! l = Some x → heap st1 !! l = Some x).

Definition framed {T} (m : M A T) : Prop :=
  ∀ st r st1, m st = (r, st1) → frame st st1.

(** node.send_ms_msg(neighbour) if max_sum else node.send_sp_msg(neighbour) *)
Definition send (max_sum : bool) (node neighbour : nat) : M A unit :=
  if max_sum then send_ms_msg node neighbour
  else send_sp_msg node neighbour.

(** a sequence of send calls (mode, sender, receiver) *)
Definition send_all (calls : list (bool * nat * nat)) : M A unit :=
  for_each calls (λ c, send c.1.1 c.1.2 c.2).
End frames.

(** A binary variable X (object 0) whose only factor f (object 1) has
    the potential [0, 0] and has sent its sum-product message. *)
Definition zero_product_store : store xrat :=
  snd ((X <- Variable_.__init__ "X" 2 ;;
        a <- alloc (array1 [Fin 0; Fin 0] zero) ;;
        f <- Factor.__init__ "f" a [X] ;;
        Factor.send_sp_msg f X) empty_store).

(** A binary variable on its own (object 0). *)
Definition lone_variable : store xrat :=
  snd (Variable_.__init__ "X" 2 empty_store).

(** node.pending *)
Definition pending_of {A} (st : store A) (u : nat) : gset nat :=
  match nodes st !! u with Some n => pending n | None => ∅ end.

(** the 1-of-N evidence vector set_observed writes: 1.0 at [i],
    0.000001 elsewhere *)
Definition evidence {A} `{Scalar A} (n i : nat) : ndarray A :=
  NDArray [n] (λ idx, if decide (nth 0 idx 0 = i) then one else tiny).

(** ** Factor construction in progress *)

Section registration.
Context {A : Type}.

Definition occurrences (u : nat) (l : list nat) : nat :=
  length (filter (λ x, x = u) l).

(** [s] is [st] after a new factor object [self] has been created and
    the edges to the variables [done] have been registered, in order:
    the factor lists [done], and each variable has [self] appended once
    per occurrence in [done] *)
Definition registered (st : store A) (self : nat) (nm : string)
    (done : list nat) (f : option nat) (s : store A) : Prop :=
  nodes s !! self = Some (Node nm done ∅ ∅ (FactorNode f))
  ∧ (∀ u, u ≠ self →
       nodes s !! u
       = (λ n, set_neighbours
                 (neighbours n ++ replicate (occurrences u done) self) n)
           <$> nodes st !! u)
  ∧ heap s = heap st
  ∧ history s = history st.
End registration.

(** Binary variables X (object 0) and Y (object 1), with the arrays
    X.observed_state (array 0), Y.observed_state (array 1) and a 2x3
    array of ones (array 2). *)
Definition two_variables_store : store xrat := snd (two_variables empty_store).

(** ** The order of sends of a sweep *)

Section schedules.
Context {A : Type}.

(** the (sender, receiver) pairs of one sweep over [rest], in the order
    the loop makes them: each node sends to its neighbours that do not
    occur in [earlier] *)
Fixpoint schedule (G : nat → list nat) (earlier rest : list nat)
  : list (nat * nat) :=
  match rest with
  | [] => []
  | node :: rest' =>
      ((λ neighbour, (node, neighbour))
         <$> filter (λ x, x ∉ earlier) (G node))
      ++ schedule G (earlier ++ [node]) rest'
  end.

(** how many times a log shows a delivery from [u] to [v] *)
Definition carried (log : list (nat * nat)) (u v : nat) : nat :=
  length (filter (λ e, e = (u, v)) log).

(** what a successful send from [u] to [v] does to the graph: one
    delivery is logged, [v] holds an entry from [u], no inbox loses an
    entry and no neighbour list changes *)
Definition sent (st st' : store A) (u v : nat) : Prop :=
  history st' = history st ++ [(u, v)]
  ∧ (∀ w, nbrs st' w = nbrs st w)
  ∧ (∀ w, dom (inbox st w) ⊆ dom (inbox st' w))
  ∧ u ∈ dom (inbox st' v).

(** the same for a sequence of sends *)
Definition sent_all (st st' : store A) (log : list (nat * nat)) : Prop :=
  history st' = history st ++ log
  ∧ (∀ w, nbrs st' w = nbrs st w)
  ∧ (∀ w, dom (inbox st w) ⊆ dom (inbox st' w))
  ∧ (∀ u v, (u, v) ∈ log → u ∈ dom (inbox st' v)).
End schedules.

(** A binary variable X (object 0) whose only factor f (object 1) has
    the potential [1, 1] and has sent its sum-product message. *)
Definition flat_prior_store {A} `{Scalar A} : store A :=
  snd ((X <- Variable_.__init__ "X" 2 ;;
        a <- alloc (array1 [one; one] zero) ;;
        f <- Factor.__init__ "f" a [X] ;;
        Factor.send_sp_msg f X) empty_store).

(** ** The arrays of np.ix_ *)

Section meshes.
Context {A : Type}.

(** the k-th array np.ix_ returns for p vectors: the vector [v] laid
    along axis k of a p-dimensional array whose other axes have
    length 1 *)
Definition open_mesh (p k : nat) (v : ndarray A) : ndarray A :=
  NDArray (<[k := nth 0 (shape v) 0]> (replicate p 1))
          (λ idx, item v [nth k idx 0]).
End meshes.
(** The chain over the extended rationals once f1 has sent to X1 and X1
    has sent to f12 (sum-product). *)
Definition chain_after_X1 : store xrat :=
  snd (send_sp_msg 0 3 chain_after_prior).

(** ** The script: the example network and its runs *)

Section script.
Context {A : Type} `{Scalar A} `{Log A}.
(** the value of a decimal literal *)
Variable num : Q → A.

(** np.array on a list of lists of lists *)
Definition array3 (planes : list (list (list A))) (d : A) : ndarray A :=
  NDArray [length planes; length (nth 0 planes []);
           length (nth 0 (nth 0 planes []) [])]
          (λ idx, nth (nth 2 idx 0)
                      (nth (nth 1 idx 0) (nth (nth 0 idx 0) planes []) []) d).

(** d[key] on a dict with string keys *)
Definition getitem (d : gmap string nat) (key : string) : M A nat :=
  match d !! key with
  | Some x => ret x
  | None => raise KeyError
  end.

Definition VARIABLES : list string :=
  ["Influenza"; "Smokes"; "SoreThroat"; "Fever";
   "Bronchitis"; "Coughing"; "Wheezing"]%string.

(** instantiate_network(): the dicts f_ and v_ *)
Definition instantiate_network : M A (gmap string nat * gmap string nat) :=
  v_ <- foldM (λ d name,
                 v <- Variable_.__init__ name 2 ;;
                 ret (<[name := v]> d)) VARIABLES ∅ ;;
  f_I <- alloc (array1 [num (5#100); num (95#100)] zero) ;;
  f_S <- alloc (array1 [num (2#10); num (8#10)] zero) ;;
  f_ISt <- alloc (array2 [[num (3#10); num (7#10)];
                          [num (1#1000); num (999#1000)]] zero) ;;
  f_ISB <- alloc (array3 [[[num (99#100); num (9#10)];
                           [num (7#10); num (1#1000)]];
                          [[num (1#100); num (1#10)];
                           [num (3#10); num (999#1000)]]] zero) ;;
  f_IF <- alloc (array2 [[num (9#10); num (1#10)];
                         [num (5#100); num (95#100)]] zero) ;;
  f_BW <- alloc (array2 [[num (6#10); num (4#10)];
                         [num (1#1000); num (999#1000)]] zero) ;;
  f_BC <- alloc (array2 [[num (8#10); num (2#10)];
                         [num (7#100); num (93#100)]] zero) ;;
  let f_ : gmap string nat :=
    <["f_BC" := f_BC]> (<["f_BW" := f_BW]> (<["f_IF" := f_IF]>
    (<["f_ISB" := f_ISB]> (<["f_ISt" := f_ISt]> (<["f_S" := f_S]>
    (<["f_I" := f_I]> ∅))))))%string in
  FACTORS <- mapM (λ e : string * list string,
                     n <- mapM (getitem v_) e.2 ;; ret (e.1, n))
                  [("f_I", ["Influenza"]);
                   ("f_S", ["Smokes"]);
                   ("f_ISt", ["Influenza"; "SoreThroat"]);
                   ("f_ISB", ["Smokes"; "Influenza"; "Bronchitis"]);
                   ("f_IF", ["Influenza"; "Fever"]);
                   ("f_BW", ["Bronchitis"; "Wheezing"]);
                   ("f_BC", ["Bronchitis"; "Coughing"])]%string ;;
  f_ <- foldM (λ d (e : string * list nat),
                 a <- getitem f_ e.1 ;;
                 f <- Factor.__init__ e.1 a e.2 ;;
                 ret (<[e.1 := f]> d)) FACTORS ∅ ;;
  ret (f_, v_).

(** the sends made by hand before the scheduler is used *)
Definition first_sends (f_ v_ : gmap string nat) : M A unit :=
  for_each [(f_, "f_S", v_, "Smokes");
            (f_, "f_I", v_, "Influenza");
            (v_, "SoreThroat", f_, "f_ISt");
            (v_, "Fever", f_, "f_IF");
            (f_, "f_ISt", v_, "Influenza");
            (f_, "f_IF", v_, "Influenza");
            (v_, "Wheezing", f_, "f_BW");
            (v_, "Coughing", f_, "f_BC");
            (f_, "f_BW", v_, "Bronchitis");
            (f_, "f_BC", v_, "Bronchitis");
            (v_, "Influenza", f_, "f_ISB");
            (v_, "Smokes", f_, "f_ISB");
            (f_, "f_ISB", v_, "Bronchitis")]%string
    (λ c, let '(d1, sender, d2, receiver) := c in
          u <- getitem d1 sender ;;
          v <- getitem d2 receiver ;;
          send_sp_msg u v).

(** the list [nodes] *)
Definition script_nodes (f_ v_ : gmap string nat) : M A (list nat) :=
  mapM (λ c : gmap string nat * string, getitem c.1 c.2)
       [(f_, "f_S"); (f_, "f_I"); (v_, "SoreThroat"); (v_, "Fever");
        (v_, "Coughing"); (v_, "Wheezing"); (f_, "f_ISt"); (f_, "f_IF");
        (f_, "f_BC"); (f_, "f_BW"); (v_, "Smokes"); (v_, "Bronchitis");
        (v_, "Influenza"); (f_, "f_ISB")]%string.

(** print_values(v): the lines printed, as (name, value) pairs; the
    dict is traversed in the order of its key map *)
Definition print_values (v : gmap string nat) : M A (list (string * bool)) :=
  mapM (λ var,
          n <- get_node var ;;
          b <- best_value var ;;
          ret (name n, bool_decide (b = 0)))
       (snd <$> map_to_list v).

(** the module body; the result is what the two calls of print_values
    print *)
Definition script
  : M A (list nat * (list (string * bool) * list (string * bool))) :=
  fv <- instantiate_network ;;
  let '(f_, v_) := fv in
  first_sends f_ v_ ;;;
  nodes <- script_nodes f_ v_ ;;
  sum_product nodes false ;;;
  out1 <- print_values v_ ;;
  sum_product nodes true ;;;
  out2 <- print_values v_ ;;
  ret (nodes, (out1, out2)).
End script.
(** ** Edges *)

Section edges.
Context {A : Type}.

(** the directed edges (u, v), v in u.neighbours, out of the nodes [l] *)
Definition edges (st : store A) (l : list nat) : list (nat * nat) :=
  l ≫= λ u, (λ v, (u, v)) <$> nbrs st u.

(** every neighbour has sent: the keys of u.in_msgs are u's neighbours *)
Definition inbox_full (st : store A) (u : nat) : Prop :=
  dom (inbox st u) = list_to_set (nbrs st u).

#[global] Instance inbox_full_dec st u : Decision (inbox_full st u).
Proof. unfold inbox_full. apply _. Defined.

Definition is_factor (st : store A) (v : nat) : bool :=
  match kind_of st v with
  | Some (FactorNode (Some _)) => true
  | _ => false
  end.

Definition is_variable (st : store A) (v num_states : nat) : bool :=
  match kind_of st v with
  | Some (VariableNode d _ _) => bool_decide (d = num_states)
  | _ => false
  end.

(** a variable lists factors only and a factor variables only, every
    edge is registered at both ends, and the potential of a factor has
    one axis per neighbour, as long as the neighbour has states *)
Definition well_formed (st : store A) (u : nat) : bool :=
  match nodes st !! u with
  | Some n =>
      match kind n with
      | VariableNode _ _ _ =>
          forallb (λ v, bool_decide (u ∈ nbrs st v) && is_factor st v)
                  (neighbours n)
      | FactorNode (Some f) =>
          match heap st !! f with
          | Some fa =>
              bool_decide (length (neighbours n) = ndim fa)
              && forallb (λ vd, bool_decide (u ∈ nbrs st vd.1)
                                && is_variable st vd.1 vd.2)
                         (zip (neighbours n) (shape fa))
          | None => false
          end
      | _ => false
      end
  | None => false
  end.
End edges.

(** The same chain once X2 has sent to f12 as well: f12 holds a message
    from each of its neighbours. *)
Definition chain_f12_ready : store xrat :=
  snd (send_sp_msg 1 3 chain_after_X1).

(** The chain in max-sum mode once f1 has sent to X1 and both variables
    have sent to f12. *)
Definition chain_ms_ready {A} `{Scalar A} `{Log A}
    (p1 p2 q11 q12 q21 q22 : A) : store A :=
  snd ((send_ms_msg 2 0 ;;; send_ms_msg 0 3 ;;; send_ms_msg 1 3)
         (chain_store p1 p2 q11 q12 q21 q22)).

Definition scenario_ms_ready : store R :=
  chain_ms_ready (1/2)%R (1/2)%R (9/10)%R (1/10)%R (2/10)%R (8/10)%R.

(** * Verification *)

(** ** The two-variable chain, for any scalars *)

Section chain_generic.
Context {A : Type} `{Scalar A} `{Log A}.
Variables (p1 p2 q11 q12 q21 q22 : A).

Lemma chain_linearizations :
  linearizations (chain_store p1 p2 q11 q12 q21 q22)
  = [[2; 1; 3; 0]; [1; 2; 3; 0]; [1; 3; 2; 0]; [1; 3; 0; 2];
     [2; 1; 0; 3]; [1; 2; 0; 3]; [2; 0; 3; 1]; [2; 0; 1; 3]].
Proof. vm_compute. reflexivity. Qed.

Lemma chain_kind_of_X2 :
  kind_of (chain_store p1 p2 q11 q12 q21 q22) 1
  = Some (VariableNode 2 true 1).
Proof. vm_compute. reflexivity. Qed.

Lemma chain_f1_is_leaf_factor :
  kind_of (chain_store p1 p2 q11 q12 q21 q22) 2 = Some (FactorNode (Some 2))
  ∧ heap (chain_store p1 p2 q11 q12 q21 q22) !! 2 = Some (array1 [p1; p2] zero)
  ∧ is_Some (nodes (chain_store p1 p2 q11 q12 q21 q22) !! 0)
  ∧ filter (λ x, x ≠ 0) (nbrs (chain_store p1 p2 q11 q12 q21 q22) 2) = [].
Proof. vm_compute. eauto. Qed.

Lemma chain_sum_product_returns :
  fst (sum_product [2; 0; 3; 1] false (chain_store p1 p2 q11 q12 q21 q22))
  = Ok ()
  ∧ nbrs (chain_store p1 p2 q11 q12 q21 q22) 2 = [0].
Proof. vm_compute. done. Qed.

Lemma chain_marginal_generic :
  Forall (λ order,
            chain_marginal p1 p2 q11 q12 q21 q22 order
            = Ok ([div (mul one (chain_sp0 p1 p2 q11 q21))
                       (chain_Z p1 p2 q11 q12 q21 q22);
                   div (mul one (chain_sp1 p1 p2 q12 q22))
                       (chain_Z p1 p2 q11 q12 q21 q22)],
                  PyNum (chain_Z p1 p2 q11 q12 q21 q22)))
         (linearizations (chain_store p1 p2 q11 q12 q21 q22)).
Proof.
  rewrite chain_linearizations.
  repeat constructor; vm_compute; reflexivity.
Qed.

Lemma chain_max_sum_generic :
  Forall (λ order,
            chain_max_sum_message p1 p2 q11 q12 q21 q22 order
            = Some [chain_ms0 p1 q11 q21; chain_ms1 p2 q12 q22]
            ∧ chain_best_value p1 p2 q11 q12 q21 q22 order
              = Ok (if gtb (chain_ms1 p2 q12 q22) (chain_ms0 p1 q11 q21)
                    then 1 else 0))
         (linearizations (chain_store p1 p2 q11 q12 q21 q22)).
Proof.
  rewrite chain_linearizations.
  repeat constructor; vm_compute; reflexivity.
Qed.
End chain_generic.

(** ** The two-variable chain over the reals *)

Lemma chain_sp_values_R :
  let Z := chain_Z (1/2)%R (1/2)%R (9/10)%R (1/10)%R (2/10)%R (8/10)%R in
  Z = 1%R
  ∧ div (mul one (chain_sp0 (1/2)%R (1/2)%R (9/10)%R (2/10)%R)) Z = (11/20)%R
  ∧ div (mul one (chain_sp1 (1/2)%R (1/2)%R (1/10)%R (8/10)%R)) Z = (9/20)%R.
Proof.
  unfold chain_Z, chain_sp0, chain_sp1; simpl.
  repeat split; lra.
Qed.

Lemma chain_ms_values_R :
  gtb (chain_ms1 (1/2)%R (1/10)%R (8/10)%R)
      (chain_ms0 (1/2)%R (9/10)%R (2/10)%R)
  = false.
Proof.
  unfold chain_ms0, chain_ms1, gtb; simpl.
  destruct (Rlt_dec _ _) as [Hlt|]; [|reflexivity].
  exfalso. revert Hlt. unfold log, R_log.
  set (c := (0 + (0 + ln (1 / 2)))%R).
  assert (ln (1/10) < ln (9/10))%R by (apply ln_increasing; lra).
  assert (ln (8/10) < ln (9/10))%R by (apply ln_increasing; lra).
  pose proof (Rmax_l (ln (9/10) + c) (ln (2/10) + c)).
  assert (Rmax (ln (1/10) + c) (ln (8/10) + c) <= ln (9/10) + c)%R
    by (apply Rmax_lub; lra).
  lra.
Qed.

(** C9: on the chain X1 - f12 - X2 with prior f1 = [0.5, 0.5] on X1 and
    f12 = [[0.9, 0.1], [0.2, 0.8]], for every leaves-to-root order of
    the four nodes (the order f1, X1, f12, X2 is one of them), the two
    sweeps in sum-product mode leave marginal(X2) = ([0.55, 0.45], 1),
    and the two sweeps in max-sum mode leave best_value(X2) = 0. *)
Theorem chain_marginal_and_best_value :
  [2; 0; 3; 1] ∈ linearizations scenario_store
  ∧ Forall (λ order,
      scenario_marginal order = Ok ([(11/20)%R; (9/20)%R], PyNum 1%R)
      ∧ scenario_best_value order = Ok 0)
     (linearizations scenario_store).
Proof.
  unfold scenario_store, scenario_marginal, scenario_best_value. split.
  - rewrite chain_linearizations. set_solver.
  - apply Forall_forall. intros order Hin.
    pose proof (chain_marginal_generic
                  (1/2)%R (1/2)%R (9/10)%R (1/10)%R (2/10)%R (8/10)%R) as Hsp.
    pose proof (chain_max_sum_generic
                  (1/2)%R (1/2)%R (9/10)%R (1/10)%R (2/10)%R (8/10)%R) as Hms.
    rewrite Forall_forall in Hsp, Hms.
    specialize (Hsp order Hin). destruct (Hms order Hin) as [_ Hbest].
    rewrite Hsp, Hbest, chain_ms_values_R.
    destruct chain_sp_values_R as (-> & -> & ->). done.
Qed.

(** ** Factor.send_ms_msg on a pairwise factor *)

Section pairwise_generic.
Context {A : Type} `{Scalar A} `{Log A}.
Variables (f00 f01 f10 f11 m0 m1 : A).

(** The program reads the message from X1 at the coordinate of X2. *)
Lemma pairwise_max_sum_generic :
  pairwise_max_sum f00 f01 f10 f11 m0 m1
  = Some [maximum (add (log f00) (add zero m0)) (add (log f10) (add zero m0));
          maximum (add (log f01) (add zero m1)) (add (log f11) (add zero m1))].
Proof. vm_compute. reflexivity. Qed.

Lemma max_sum_message_pairwise :
  ravel (max_sum_message (array2 [[f00; f01]; [f10; f11]] zero) 1
                         [(0, array1 [m0; m1] zero)])
  = [maximum (add (log f00) (add zero m0)) (add (log f10) (add zero m1));
     maximum (add (log f01) (add zero m0)) (add (log f11) (add zero m1))].
Proof. vm_compute. reflexivity. Qed.
End pairwise_generic.

(** C1 (the program departs from it): with potential [[1, 1], [1, 1]]
    over (X1, X2) and the message [0, 1] held from X1, send_ms_msg(X2)
    delivers [0, 1], whereas broadcasting the message along the axis of
    X1 and maximising over that axis gives [1, 1]. *)
Theorem factor_max_sum_axis_mismatch :
  pairwise_max_sum 1%R 1%R 1%R 1%R 0%R 1%R = Some [0%R; 1%R]
  ∧ ravel (max_sum_message (array2 [[1%R; 1%R]; [1%R; 1%R]] 0%R) 1
                           [(0, array1 [0%R; 1%R] 0%R)])
    = [1%R; 1%R].
Proof.
  assert (Rmax (ln 1 + (0 + 0)) (ln 1 + (0 + 0)) = 0
          ∧ Rmax (ln 1 + (0 + 1)) (ln 1 + (0 + 1)) = 1
          ∧ Rmax (ln 1 + (0 + 0)) (ln 1 + (0 + 1)) = 1)%R as (E0 & E1 & E2).
  { rewrite ln_1. rewrite !Rmax_left by lra. rewrite Rmax_right by lra.
    repeat split; lra. }
  split.
  - rewrite pairwise_max_sum_generic.
    unfold log, R_log; cbn [maximum add zero R_scalar].
    by rewrite E0, E1.
  - etrans;
      [exact (max_sum_message_pairwise (A:=R) 1%R 1%R 1%R 1%R 0%R 1%R)|].
    unfold log, R_log; cbn [maximum add zero R_scalar].
    by rewrite E2.
Qed.

(** ** Factor.__init__ with a wrong axis length *)

(** C8 (the program departs from it): Factor("f", a, [X, Y]) with a of
    shape (2, 3) and two binary variables raises AssertionError at
    axis 1, after the edge to X has been registered: X.neighbours was
    empty before the call and holds the new factor after it. *)
Theorem factor_init_partial_registration :
  mismatched_factor (A:=xrat) = (Raise AssertionError, ([], []), ([2], [])).
Proof. vm_compute. reflexivity. Qed.

(** ** Variable.marginal on a leaf *)

(** C6 (the program departs from it): with the product P = [1/2, 1/2]
    and Z = 0 supplied, marginal(Z) returns (P / 1, 1): the supplied
    constant is replaced by sum(P). *)
Theorem marginal_falsy_Z_recomputed :
  leaf_marginal (Fin (1#2)) (Fin (1#2)) (Some (Fin 0))
  = Ok ([Fin (1#2); Fin (1#2)], PyNum (Fin 1)).
Proof. vm_compute. reflexivity. Qed.

(** Against C7: with an all-zero product, marginal() raises nothing and
    returns ([nan, nan], 0). *)
Lemma marginal_zero_product_returns_nan :
  leaf_marginal (Fin 0) (Fin 0) None = Ok ([NaN; NaN], PyNum (Fin 0)).
Proof. vm_compute. reflexivity. Qed.

(** ** Running monadic code *)

Section monad_facts.
Context {A : Type}.
Implicit Types (st : store A).

Lemma bind_Ok {T U} (m : M A T) (k : T → M A U) st x st1 :
  m st = (Ok x, st1) → bind m k st = k x st1.
Proof. unfold bind. by intros ->. Qed.

Lemma bind_Raise {T U} (m : M A T) (k : T → M A U) st e st1 :
  m st = (Raise e, st1) → bind m k st = (Raise e, st1).
Proof. unfold bind. by intros ->. Qed.

Lemma bind_Ok_inv {T U} (m : M A T) (k : T → M A U) st v st' :
  bind m k st = (Ok v, st') →
  ∃ x st1, m st = (Ok x, st1) ∧ k x st1 = (Ok v, st').
Proof.
  unfold bind. destruct (m st) as [[x|e] st1]; [eauto | discriminate].
Qed.

Lemma get_node_Ok st i n :
  nodes st !! i = Some n → get_node i st = (Ok n, st).
Proof. unfold get_node. by intros ->. Qed.

Lemma get_node_inv st i r st1 :
  get_node i st = (r, st1) →
  st1 = st ∧ (∀ n, r = Ok n → nodes st !! i = Some n).
Proof.
  unfold get_node. destruct (nodes st !! i); intros [= <- <-];
    split; auto; congruence.
Qed.

Lemma update_node_Ok st i g n :
  nodes st !! i = Some n →
  update_node i g st
  = (Ok (), Store (<[i := g n]> (nodes st)) (heap st) (history st)).
Proof. intros Hn. unfold update_node. by rewrite (bind_Ok _ _ _ _ _ (get_node_Ok _ _ _ Hn)). Qed.

(** *** Computations on the heap only *)

Lemma heap_only_ret {T} (v : T) : heap_only (A:=A) (ret v).
Proof. intros st r st1 [= <- <-]. auto. Qed.

Lemma heap_only_raise {T} e : heap_only (A:=A) (raise (T:=T) e).
Proof. intros st r st1 [= <- <-]. auto. Qed.

Lemma heap_only_lift {T} (o : outcome T) : heap_only (A:=A) (lift o).
Proof. intros st r st1 [= <- <-]. auto. Qed.

Lemma heap_only_bind {T U} (m : M A T) (k : T → M A U) :
  heap_only m → (∀ x, heap_only (k x)) → heap_only (bind m k).
Proof.
  intros Hm Hk st r st2. unfold bind.
  destruct (m st) as [[x|e] st1] eqn:E; destruct (Hm _ _ _ E) as (Hn & Hh & Hl).
  - intros E2. destruct (Hk _ _ _ _ E2) as (Hn2 & Hh2 & Hl2).
    split; [congruence|]. split; [congruence|]. eauto.
  - intros [= <- <-]. auto.
Qed.

Lemma heap_only_get_node i : heap_only (A:=A) (get_node i).
Proof.
  intros st r st1 E. apply get_node_inv in E as [-> _]. auto.
Qed.

Lemma heap_only_alloc x : heap_only (A:=A) (alloc x).
Proof.
  intros st r st1 [= <- <-]. simpl. repeat split.
  intros l y Hl. by apply lookup_app_l_Some.
Qed.

Lemma heap_only_deref l : heap_only (A:=A) (deref l).
Proof.
  intros st r st1. unfold deref.
  destruct (heap st !! l); intros [= <- <-]; auto.
Qed.

Lemma heap_only_in_msg n nb : heap_only (A:=A) (in_msg n nb).
Proof.
  unfold in_msg. destruct (in_msgs n !! nb);
    [apply heap_only_deref | apply heap_only_raise].
Qed.

Lemma heap_only_mapM {T U} (g : T → M A U) l :
  (∀ x, heap_only (g x)) → heap_only (mapM g l).
Proof.
  intros Hg. induction l as [|x l IH]; simpl.
  - apply heap_only_ret.
  - apply heap_only_bind; [done|]. intros y.
    apply heap_only_bind; [done|]. intros ys. apply heap_only_ret.
Qed.

Lemma heap_only_foldM {T U} (g : U → T → M A U) l acc :
  (∀ a x, heap_only (g a x)) → heap_only (foldM g l acc).
Proof.
  intros Hg. revert acc. induction l as [|x l IH]; intros acc; simpl.
  - apply heap_only_ret.
  - apply heap_only_bind; [done|]. intros y. apply IH.
Qed.
End monad_facts.

Create HintDb heap_only.
#[local] Hint Resolve heap_only_ret heap_only_raise heap_only_lift
  heap_only_get_node heap_only_alloc heap_only_deref heap_only_in_msg
  : heap_only.

Ltac heap_only_tac :=
  repeat first
    [ progress auto with heap_only
    | apply heap_only_bind; [|intros ?]
    | apply heap_only_mapM; intros ?
    | apply heap_only_foldM; intros ? ?
    | match goal with
      | |- heap_only (match ?x with _ => _ end) => destruct x
      | |- heap_only (if ?b then _ else _) => destruct b
      end ].

(** ** Delivery: receive_msg followed by pending.discard *)

Section delivery.
Context {A : Type}.
Implicit Types (st : store A).

Lemma nbrs_insert st i n' u (hp : list (ndarray A)) hs :
  neighbours n' = nbrs st i →
  nbrs (Store (<[i := n']> (nodes st)) hp hs) u = nbrs st u.
Proof.
  intros Hn. unfold nbrs; simpl.
  destruct (decide (i = u)) as [->|Hne].
  - by rewrite lookup_insert_eq.
  - by rewrite lookup_insert_ne.
Qed.

Lemma receive_msg_Ok st self other msg n :
  nodes st !! self = Some n →
  let n1 := set_in_msgs (<[other := msg]> (in_msgs n)) n in
  let n2 := set_pending (pending n1 ∪ (list_to_set (neighbours n1) ∖ {[other]})) n1 in
  Node.receive_msg self other msg st
  = (Ok (), Store (<[self := n2]> (nodes st)) (heap st)
                  (history st ++ [(other, self)])).
Proof.
  intros Hs n1 n2. unfold Node.receive_msg.
  rewrite (bind_Ok _ _ _ _ _ (update_node_Ok _ _ _ _ Hs)).
  erewrite bind_Ok; [|apply update_node_Ok; simpl; apply lookup_insert_eq].
  unfold record_delivery. simpl. by rewrite insert_insert_eq.
Qed.

Lemma receive_msg_Raise st self other msg :
  nodes st !! self = None →
  Node.receive_msg self other msg st = (Raise Dangling, st).
Proof.
  intros Hs. unfold Node.receive_msg, update_node, bind, get_node.
  by rewrite Hs.
Qed.

Lemma deliver_Ok st self other msg n no :
  nodes st !! self = Some n → nodes st !! other = Some no →
  ∃ st', deliver self other msg st = (Ok (), st')
         ∧ delivered st st' self other msg.
Proof.
  intros Hs Ho. unfold deliver, Node.pending_discard.
  rewrite (bind_Ok _ _ _ _ _ (receive_msg_Ok _ _ _ _ _ Ho)).
  set (no' := set_pending _ _).
  destruct (decide (self = other)) as [->|Hne].
  - erewrite update_node_Ok; [|simpl; apply lookup_insert_eq].
    simpl. rewrite insert_insert_eq. eexists; split; [done|].
    unfold delivered, inbox, nbrs; simpl.
    repeat split.
    + rewrite dom_insert_L. pose proof (elem_of_dom_2 _ _ _ Ho). set_solver.
    + intros u. destruct (decide (other = u)) as [->|].
      * by rewrite lookup_insert_eq, Ho.
      * by rewrite lookup_insert_ne.
    + intros u. destruct (decide (other = u)) as [->|].
      * by rewrite lookup_insert_eq, Ho.
      * by rewrite lookup_insert_ne.
    + by rewrite lookup_insert_eq, Ho.
    + intros u Hu. by rewrite lookup_insert_ne.
  - erewrite update_node_Ok; [|simpl; rewrite lookup_insert_ne by done; apply Hs].
    simpl. eexists; split; [done|].
    unfold delivered, inbox, nbrs; simpl.
    repeat split.
    + rewrite !dom_insert_L. pose proof (elem_of_dom_2 _ _ _ Ho).
      pose proof (elem_of_dom_2 _ _ _ Hs). set_solver.
    + intros u. destruct (decide (self = u)) as [->|].
      { by rewrite lookup_insert_eq, Hs. }
      rewrite lookup_insert_ne by done.
      destruct (decide (other = u)) as [->|].
      * by rewrite lookup_insert_eq, Ho.
      * by rewrite lookup_insert_ne.
    + intros u. destruct (decide (self = u)) as [->|].
      { by rewrite lookup_insert_eq, Hs. }
      rewrite lookup_insert_ne by done.
      destruct (decide (other = u)) as [->|].
      * by rewrite lookup_insert_eq, Ho.
      * by rewrite lookup_insert_ne.
    + rewrite lookup_insert_ne by done. by rewrite lookup_insert_eq, Ho.
    + intros u Hu. destruct (decide (self = u)) as [->|].
      { by rewrite lookup_insert_eq, Hs. }
      rewrite lookup_insert_ne by done. by rewrite lookup_insert_ne.
Qed.

Lemma deliver_inv st self other msg st' :
  deliver self other msg st = (Ok (), st') →
  delivered st st' self other msg.
Proof.
  intros E.
  destruct (nodes st !! other) as [no|] eqn:Ho; last first.
  { unfold deliver in E.
    rewrite (bind_Raise _ _ _ _ _ (receive_msg_Raise _ _ _ _ Ho)) in E.
    discriminate. }
  destruct (nodes st !! self) as [n|] eqn:Hs.
  { destruct (deliver_Ok st self other msg n no Hs Ho) as (st2 & E2 & Hd).
    congruence. }
  exfalso. revert E. unfold deliver, Node.pending_discard.
  rewrite (bind_Ok _ _ _ _ _ (receive_msg_Ok _ _ _ _ _ Ho)).
  unfold update_node, bind, get_node. simpl.
  rewrite lookup_insert_ne by congruence. by rewrite Hs.
Qed.
End delivery.

(** ** Reading the inbox *)

Section inbox_facts.
Context {A : Type}.
Implicit Types (st : store A).

Lemma in_msg_Ok st self n nb m :
  nodes st !! self = Some n → message st self nb = Some m →
  in_msg n nb st = (Ok m, st).
Proof.
  intros Hs. unfold message, inbox, in_msg, deref. rewrite Hs.
  destruct (in_msgs n !! nb) as [l|]; simpl; [|done]. by intros ->.
Qed.

Lemma mapM_in_msg_Ok st self n nbs msgs :
  nodes st !! self = Some n →
  Forall2 (λ nb m, message st self nb = Some m) nbs msgs →
  mapM (in_msg n) nbs st = (Ok msgs, st).
Proof.
  intros Hs. induction 1 as [|nb m nbs msgs Hm _ IH]; simpl; [done|].
  rewrite (bind_Ok _ _ _ _ _ (in_msg_Ok _ _ _ _ _ Hs Hm)).
  by rewrite (bind_Ok _ _ _ _ _ IH).
Qed.

Lemma alloc_Ok st (x : ndarray A) :
  alloc x st = (Ok (length (heap st)),
                Store (nodes st) (heap st ++ [x]) (history st)).
Proof. done. Qed.

(** after an allocation and a delivery the receiver reads the array *)
Lemma message_after_alloc st st' self other (x : ndarray A) :
  delivered (Store (nodes st) (heap st ++ [x]) (history st)) st'
            self other (length (heap st)) →
  message st' other self = Some x.
Proof.
  intros (Hh & _ & _ & _ & _ & Hi & _). unfold message.
  rewrite Hi, lookup_insert_eq. simpl. rewrite Hh. simpl.
  by rewrite lookup_app_r, Nat.sub_diag.
Qed.

Lemma message_after_alias st st' self other l :
  delivered st st' self other l →
  inbox st' other !! self = Some l ∧ heap st' = heap st.
Proof.
  intros (Hh & _ & _ & _ & _ & Hi & _). by rewrite Hi, lookup_insert_eq.
Qed.
End inbox_facts.

(** ** Variable.send_sp_msg and Variable.send_ms_msg *)

Section variable_sends.
Context {A : Type} `{Scalar A}.
Implicit Types (st : store A).

Lemma kind_of_Some st u c :
  kind_of st u = Some c → ∃ n, nodes st !! u = Some n ∧ kind n = c.
Proof.
  unfold kind_of. destruct (nodes st !! u) as [n|]; [|done].
  intros [= <-]. eauto.
Qed.

Lemma nbrs_Some st u n : nodes st !! u = Some n → nbrs st u = neighbours n.
Proof. unfold nbrs. by intros ->. Qed.

(** an observed variable hands over its observed_state object *)
Lemma variable_send_observed (ms : bool) st self other ns obs :
  kind_of st self = Some (VariableNode ns false obs) →
  is_Some (nodes st !! other) →
  ∃ st', (if ms then Variable_.send_ms_msg self other
          else Variable_.send_sp_msg self other) st = (Ok (), st')
         ∧ delivered st st' self other obs.
Proof.
  intros (n & Hs & Hk)%kind_of_Some [no Ho].
  destruct (deliver_Ok st self other obs n no Hs Ho) as (st' & E & Hd).
  exists st'. split; [|done].
  destruct ms; unfold Variable_.send_ms_msg, Variable_.send_sp_msg;
    rewrite (bind_Ok _ _ _ _ _ (get_node_Ok _ _ _ Hs)), Hk; exact E.
Qed.

(** a latent variable with no other neighbour sends a constant vector *)
Lemma variable_send_leaf (ms : bool) st self other ns obs :
  kind_of st self = Some (VariableNode ns true obs) →
  is_Some (nodes st !! other) →
  filter (λ nb, nb ≠ other) (nbrs st self) = [] →
  ∃ st', (if ms then Variable_.send_ms_msg self other
          else Variable_.send_sp_msg self other) st = (Ok (), st')
         ∧ delivered (Store (nodes st)
                        (heap st ++ [if ms then np_zeros ns else np_ones ns])
                        (history st))
                     st' self other (length (heap st)).
Proof.
  intros (n & Hs & Hk)%kind_of_Some [no Ho] Hnb.
  rewrite (nbrs_Some _ _ _ Hs) in Hnb.
  set (x := if ms then np_zeros ns else np_ones ns).
  destruct (deliver_Ok (Store (nodes st) (heap st ++ [x]) (history st))
              self other (length (heap st)) n no Hs Ho) as (st' & E & Hd).
  exists st'. split; [|done].
  destruct ms; unfold Variable_.send_ms_msg, Variable_.send_sp_msg;
    rewrite (bind_Ok _ _ _ _ _ (get_node_Ok _ _ _ Hs)), Hk; simpl;
    rewrite Hnb; simpl;
    rewrite (bind_Ok _ _ _ _ _ (alloc_Ok _ _)); exact E.
Qed.

(** np.multiply.reduce on arrays of one shape *)
Lemma np_multiply_reduce_Ok (v : ndarray A) vs :
  Forall (λ w, shape w = shape v) vs →
  ∃ r, np_multiply_reduce (v :: vs) = Ok r
       ∧ shape r = shape v
       ∧ ∀ idx, item r idx = prod_list ((λ w, item w idx) <$> v :: vs).
Proof.
  intros Hsh. unfold np_multiply_reduce, ufunc_reduce.
  rewrite decide_True by done. eexists. split; [done|]. done.
Qed.

Lemma variable_send_sp_product st self other ns obs nb nbs m msgs :
  kind_of st self = Some (VariableNode ns true obs) →
  is_Some (nodes st !! other) →
  filter (λ nb, nb ≠ other) (nbrs st self) = nb :: nbs →
  Forall2 (λ nb m, message st self nb = Some m) (nb :: nbs) (m :: msgs) →
  Forall (λ w, shape w = shape m) msgs →
  ∃ st' r, Variable_.send_sp_msg self other st = (Ok (), st')
           ∧ delivered (Store (nodes st) (heap st ++ [r]) (history st))
                       st' self other (length (heap st))
           ∧ shape r = shape m
           ∧ ∀ idx, item r idx = prod_list ((λ w, item w idx) <$> m :: msgs).
Proof.
  intros (n & Hs & Hk)%kind_of_Some [no Ho] Hnb Hm Hsh.
  rewrite (nbrs_Some _ _ _ Hs) in Hnb.
  destruct (np_multiply_reduce_Ok m msgs Hsh) as (r & Er & Hr1 & Hr2).
  destruct (deliver_Ok (Store (nodes st) (heap st ++ [r]) (history st))
              self other (length (heap st)) n no Hs Ho) as (st' & E & Hd).
  exists st', r. split; [|done].
  unfold Variable_.send_sp_msg.
  rewrite (bind_Ok _ _ _ _ _ (get_node_Ok _ _ _ Hs)), Hk; simpl.
  rewrite Hnb; simpl.
  erewrite bind_Ok; [exact E|].
  erewrite bind_Ok; [|exact (mapM_in_msg_Ok _ _ _ _ _ Hs Hm)].
  erewrite bind_Ok; [|unfold lift; by rewrite Er].
  apply alloc_Ok.
Qed.
End variable_sends.

(** ** Elementwise accumulation loops *)

Section accumulation.
Context {A : Type}.
Implicit Types (st : store A) (s idx : list nat).

Lemma broadcast_rev_refl s : broadcast_rev s s = Some s.
Proof.
  induction s as [|a s IH]; simpl; [done|].
  rewrite IH. by rewrite decide_True.
Qed.

Lemma broadcast_shapes_refl s : broadcast_shapes s s = Some s.
Proof.
  unfold broadcast_shapes. rewrite broadcast_rev_refl. simpl.
  by rewrite reverse_involutive.
Qed.

Lemma bindex_valid s idx : valid_index s idx → bindex s idx = idx.
Proof.
  intros Hv. unfold bindex.
  rewrite (Forall2_length _ _ _ Hv), Nat.sub_diag, drop_0.
  induction Hv as [|i d idx s Hlt _ IH]; simpl; [done|].
  rewrite IH. f_equal. case_decide; lia.
Qed.

Lemma valid_index_nil idx : valid_index [] idx → idx = [].
Proof. by inversion 1. Qed.

Lemma aug_assign_Ok (op : A → A → A) s (acc : pyval A) (y : ndarray A) :
  acc_of_shape s acc → shape y = s →
  ∃ r, aug_assign op acc y = Ok r
       ∧ acc_of_shape s r
       ∧ shape (to_array r) = s
       ∧ ∀ idx, valid_index s idx →
           val r idx = op (val acc idx) (item y idx).
Proof.
  intros Hacc Hy. destruct acc as [a|x]; simpl in *.
  - unfold from_array, ufunc1; simpl. rewrite Hy.
    destruct s as [|d s]; eexists; (split; [done|]); simpl.
    + split; [done|]. split; [done|]. by intros idx ->%valid_index_nil.
    + split; [done|]. split; done.
  - destruct Hacc as [Hx Hne]. unfold ufunc2_inplace.
    rewrite Hx, Hy, broadcast_shapes_refl. rewrite decide_True by done.
    simpl. eexists; split; [done|]. simpl.
    split; [done|]. split; [done|].
    intros idx Hv. by rewrite (bindex_valid _ _ Hv).
Qed.

Lemma foldM_aug_assign_Ok (op : A → A → A) st self n s nbs msgs acc :
  nodes st !! self = Some n →
  Forall2 (λ nb m, message st self nb = Some m) nbs msgs →
  Forall (λ m, shape m = s) msgs →
  acc_of_shape s acc →
  ∃ r, foldM (λ v nb, m <- in_msg n nb ;; lift (aug_assign op v m)) nbs acc st
       = (Ok r, st)
       ∧ acc_of_shape s r
       ∧ (msgs ≠ [] → shape (to_array r) = s)
       ∧ ∀ idx, valid_index s idx →
           val r idx = fold_left op ((λ m, item m idx) <$> msgs) (val acc idx).
Proof.
  intros Hs Hm. revert acc.
  induction Hm as [|nb m nbs msgs Hnb Hm IH]; intros acc Hsh Hacc; simpl.
  - exists acc. done.
  - apply Forall_cons in Hsh as [Hm1 Hsh].
    destruct (aug_assign_Ok op s acc m Hacc Hm1) as (r1 & E1 & Hr1 & Hs1 & Hv1).
    destruct (IH r1 Hsh Hr1) as (r & E & Hr & Hsr & Hv).
    exists r. split.
    { erewrite bind_Ok; [exact E|].
      rewrite (bind_Ok _ _ _ _ _ (in_msg_Ok _ _ _ _ _ Hs Hnb)).
      unfold lift. by rewrite E1. }
    split; [done|]. split.
    { intros _. destruct msgs as [|m2 msgs]; [|by apply Hsr].
      inversion Hm; subst. simpl in E. injection E as <-. done. }
    intros idx Hidx. rewrite (Hv idx Hidx). by rewrite (Hv1 idx Hidx).
Qed.
End accumulation.

Section variable_claims.
Context {A : Type} `{Scalar A}.
Implicit Types (st : store A).

Lemma val_to_array (v : pyval A) idx : item (to_array v) idx = val v idx.
Proof. by destruct v. Qed.

Lemma Forall2_and_shape st self s nbs (msgs : list (ndarray A)) :
  Forall2 (λ nb m, message st self nb = Some m ∧ shape m = s) nbs msgs →
  Forall2 (λ nb m, message st self nb = Some m) nbs msgs
  ∧ Forall (λ m, shape m = s) msgs.
Proof.
  induction 1 as [|nb m nbs msgs [Hm Hs] _ [IH1 IH2]]; split; auto.
Qed.

Lemma variable_send_ms_sum st self other ns obs nbs msgs s :
  kind_of st self = Some (VariableNode ns true obs) →
  is_Some (nodes st !! other) →
  filter (λ nb, nb ≠ other) (nbrs st self) = nbs → nbs ≠ [] →
  Forall2 (λ nb m, message st self nb = Some m ∧ shape m = s) nbs msgs →
  ∃ st' r, Variable_.send_ms_msg self other st = (Ok (), st')
           ∧ delivered (Store (nodes st) (heap st ++ [r]) (history st))
                       st' self other (length (heap st))
           ∧ shape r = s
           ∧ ∀ idx, valid_index s idx →
               item r idx = sum_list ((λ m, item m idx) <$> msgs).
Proof.
  intros (n & Hs & Hk)%kind_of_Some [no Ho] Hnb Hne [Hm Hsh]%Forall2_and_shape.
  rewrite (nbrs_Some _ _ _ Hs) in Hnb.
  destruct (foldM_aug_assign_Ok add st self n s nbs msgs (PyNum zero)
              Hs Hm Hsh I) as (r & Er & _ & Hr1 & Hr2).
  destruct (deliver_Ok (Store (nodes st) (heap st ++ [to_array r]) (history st))
              self other (length (heap st)) n no Hs Ho) as (st' & E & Hd).
  exists st', (to_array r). split.
  { unfold Variable_.send_ms_msg.
    rewrite (bind_Ok _ _ _ _ _ (get_node_Ok _ _ _ Hs)), Hk; simpl.
    rewrite Hnb. destruct nbs as [|nb nbs]; [done|]. simpl length.
    rewrite decide_False by done.
    erewrite bind_Ok; [exact E|].
    erewrite bind_Ok; [|exact Er]. apply alloc_Ok. }
  split; [done|]. split.
  { apply Hr1. intros ->. apply Forall2_nil_inv_r in Hm. done. }
  intros idx Hidx. rewrite val_to_array. by rewrite (Hr2 idx Hidx).
Qed.

(** C4: Variable.send_sp_msg(to).  An observed variable delivers its
    observed_state object whatever its inbox holds; a latent variable
    whose neighbours are all [to] delivers np.ones(num_states);
    otherwise, when the inbox holds a message of one shape [s] from every
    neighbour other than [to], the call delivers the array of shape [s]
    whose entries are the products of the corresponding entries of those
    messages, taken in neighbour order. *)
Theorem variable_send_sp_msg_cases st self other ns latent obs :
  kind_of st self = Some (VariableNode ns latent obs) →
  is_Some (nodes st !! other) →
  let N := filter (λ nb, nb ≠ other) (nbrs st self) in
  (latent = false →
     ∃ st', Variable_.send_sp_msg self other st = (Ok (), st')
            ∧ inbox st' other !! self = Some obs
            ∧ message st' other self = heap st !! obs)
  ∧ (latent = true → N = [] →
     ∃ st', Variable_.send_sp_msg self other st = (Ok (), st')
            ∧ message st' other self = Some (np_ones ns))
  ∧ (latent = true → N ≠ [] → ∀ msgs s,
     Forall2 (λ nb m, message st self nb = Some m ∧ shape m = s) N msgs →
     ∃ st' r, Variable_.send_sp_msg self other st = (Ok (), st')
              ∧ message st' other self = Some r
              ∧ shape r = s
              ∧ ∀ idx, item r idx = prod_list ((λ m, item m idx) <$> msgs)).
Proof.
  intros Hk Ho N. repeat split.
  - intros ->.
    destruct (variable_send_observed false st self other ns obs Hk Ho)
      as (st' & E & Hd).
    exists st'. split; [done|].
    destruct (message_after_alias _ _ _ _ _ Hd) as [Hi Hh].
    split; [done|]. unfold message. by rewrite Hi, Hh.
  - intros -> HN.
    destruct (variable_send_leaf false st self other ns obs Hk Ho HN)
      as (st' & E & Hd).
    exists st'. split; [done|]. by apply message_after_alloc in Hd.
  - intros -> HN msgs s Hm.
    destruct (Forall2_and_shape _ _ _ _ _ Hm) as [Hm1 Hm2].
    destruct N as [|nb nbs] eqn:EN; [done|].
    destruct msgs as [|m msgs]; [by apply Forall2_nil_inv_r in Hm1|].
    apply Forall_cons in Hm2 as [Hs1 Hs2]. subst s.
    destruct (variable_send_sp_product st self other ns obs nb nbs m msgs
                Hk Ho EN Hm1 Hs2) as (st' & r & E & Hd & Hr1 & Hr2).
    exists st', r. split; [done|].
    split; [by apply message_after_alloc in Hd|]. done.
Qed.

(** C5: Variable.send_ms_msg(to) has the same three cases, with
    np.zeros(num_states) for the leaf and, in the last case, the entries
    of the messages added up (from 0, in neighbour order). *)
Theorem variable_send_ms_msg_cases st self other ns latent obs :
  kind_of st self = Some (VariableNode ns latent obs) →
  is_Some (nodes st !! other) →
  let N := filter (λ nb, nb ≠ other) (nbrs st self) in
  (latent = false →
     ∃ st', Variable_.send_ms_msg self other st = (Ok (), st')
            ∧ inbox st' other !! self = Some obs
            ∧ message st' other self = heap st !! obs)
  ∧ (latent = true → N = [] →
     ∃ st', Variable_.send_ms_msg self other st = (Ok (), st')
            ∧ message st' other self = Some (np_zeros ns))
  ∧ (latent = true → N ≠ [] → ∀ msgs s,
     Forall2 (λ nb m, message st self nb = Some m ∧ shape m = s) N msgs →
     ∃ st' r, Variable_.send_ms_msg self other st = (Ok (), st')
              ∧ message st' other self = Some r
              ∧ shape r = s
              ∧ ∀ idx, valid_index s idx →
                  item r idx = sum_list ((λ m, item m idx) <$> msgs)).
Proof.
  intros Hk Ho N. repeat split.
  - intros ->.
    destruct (variable_send_observed true st self other ns obs Hk Ho)
      as (st' & E & Hd).
    exists st'. split; [done|].
    destruct (message_after_alias _ _ _ _ _ Hd) as [Hi Hh].
    split; [done|]. unfold message. by rewrite Hi, Hh.
  - intros -> HN.
    destruct (variable_send_leaf true st self other ns obs Hk Ho HN)
      as (st' & E & Hd).
    exists st'. split; [done|]. by apply message_after_alloc in Hd.
  - intros -> HN msgs s Hm.
    destruct (variable_send_ms_sum st self other ns obs N msgs s
                Hk Ho eq_refl HN Hm) as (st' & r & E & Hd & Hr1 & Hr2).
    exists st', r. split; [done|].
    split; [by apply message_after_alloc in Hd|]. done.
Qed.
End variable_claims.

Lemma variable_send_sp_msg_witness :
  ∃ st' r, Variable_.send_sp_msg 0 3 chain_after_prior = (Ok (), st')
           ∧ message st' 3 0 = Some r
           ∧ shape r = [2]
           ∧ ∀ idx, item r idx
                    = prod_list ((λ m, item m idx)
                                   <$> [array1 [Fin (1#2); Fin (1#2)] zero]).
Proof.
  destruct (variable_send_sp_msg_cases chain_after_prior 0 3 2 true 0)
    as (_ & _ & Hc).
  - vm_compute. reflexivity.
  - vm_compute. eauto.
  - apply Hc; [reflexivity | vm_compute; discriminate |].
    replace (filter (λ nb, nb ≠ 3) (nbrs chain_after_prior 0)) with [2]
      by (vm_compute; reflexivity).
    constructor; [|constructor].
    split; [vm_compute; reflexivity | reflexivity].
Defined.

Lemma variable_send_ms_msg_witness :
  ∃ st' r, Variable_.send_ms_msg 0 3 chain_after_prior = (Ok (), st')
           ∧ message st' 3 0 = Some r
           ∧ shape r = [2]
           ∧ ∀ idx, valid_index [2] idx →
               item r idx
               = sum_list ((λ m, item m idx)
                             <$> [array1 [Fin (1#2); Fin (1#2)] zero]).
Proof.
  destruct (variable_send_ms_msg_cases chain_after_prior 0 3 2 true 0)
    as (_ & _ & Hc).
  - vm_compute. reflexivity.
  - vm_compute. eauto.
  - apply Hc; [reflexivity | vm_compute; discriminate |].
    replace (filter (λ nb, nb ≠ 3) (nbrs chain_after_prior 0)) with [2]
      by (vm_compute; reflexivity).
    constructor; [|constructor].
    split; [vm_compute; reflexivity | reflexivity].
Defined.

(** ** Frame of the send operations *)

Section frame_facts.
Context {A : Type} `{Scalar A} `{Log A}.
Implicit Types (st : store A).

Lemma frame_refl st : frame st st.
Proof. by repeat split. Qed.

Lemma frame_trans st st1 st2 : frame st st1 → frame st1 st2 → frame st st2.
Proof.
  intros (K1 & N1 & H1) (K2 & N2 & H2). repeat split.
  - intros u. by rewrite K2.
  - intros u. by rewrite N2.
  - eauto.
Qed.

Lemma heap_only_framed {T} (m : M A T) : heap_only m → framed m.
Proof.
  intros Hm st r st1 E. destruct (Hm _ _ _ E) as (Hn & _ & Hh).
  repeat split; [| |done]; intros u; unfold kind_of, nbrs; by rewrite Hn.
Qed.

Lemma framed_bind {T U} (m : M A T) (k : T → M A U) :
  framed m → (∀ x, framed (k x)) → framed (bind m k).
Proof.
  intros Hm Hk st r st2. unfold bind.
  destruct (m st) as [[x|e] st1] eqn:E.
  - intros E2. eapply frame_trans; [by eapply Hm | by eapply Hk].
  - intros [= <- <-]. by eapply Hm.
Qed.

Lemma framed_update_node i (g : node → node) :
  (∀ n, kind (g n) = kind n ∧ neighbours (g n) = neighbours n) →
  framed (A:=A) (update_node i g).
Proof.
  intros Hg st r st1. unfold update_node, bind, get_node.
  destruct (nodes st !! i) as [n|] eqn:Hn; intros [= <- <-];
    [|apply frame_refl].
  destruct (Hg n) as [Hk Hnb].
  repeat split; simpl; [| |done]; intros u; unfold kind_of, nbrs; simpl;
    (destruct (decide (i = u)) as [->|];
      [rewrite lookup_insert_eq, Hn; simpl; congruence
      |by rewrite lookup_insert_ne]).
Qed.

Lemma framed_deliver self other msg : framed (A:=A) (deliver self other msg).
Proof.
  unfold deliver, Node.receive_msg, Node.pending_discard.
  apply framed_bind; [|intros _; by apply framed_update_node].
  apply framed_bind; [by apply framed_update_node|intros _].
  apply framed_bind; [by apply framed_update_node|intros _].
  intros st r st1 [= <- <-]. by repeat split.
Qed.

Lemma framed_for_each {T} (l : list T) (body : T → M A unit) :
  (∀ x, framed (body x)) → framed (for_each l body).
Proof.
  intros Hb. induction l as [|x l IH]; simpl.
  - intros st r st1 [= <- <-]. apply frame_refl.
  - by apply framed_bind.
Qed.
End frame_facts.

Ltac framed_tac :=
  repeat first
    [ apply framed_deliver
    | apply heap_only_framed; solve [heap_only_tac]
    | apply framed_bind; [|intros ?]
    | match goal with
      | |- framed (match ?x with _ => _ end) => destruct x
      | |- framed (if ?b then _ else _) => destruct b
      end ].

Section send_frames.
Context {A : Type} `{Scalar A} `{Log A}.
Implicit Types (st : store A).

Lemma heap_only_num_states_of nb : heap_only (A:=A) (Factor.num_states_of nb).
Proof. unfold Factor.num_states_of. heap_only_tac. Qed.

Lemma heap_only_potential f : heap_only (A:=A) (Factor.potential f).
Proof. unfold Factor.potential. heap_only_tac. Qed.

Lemma framed_variable_send (compute : M A nat) self other latent obs :
  heap_only compute →
  framed (if negb latent then
            Node.receive_msg other self obs ;;;
            Node.pending_discard self other
          else
            msg <- compute ;;
            Node.receive_msg other self msg ;;;
            Node.pending_discard self other).
Proof.
  intros Hc. destruct (negb latent); [apply (framed_deliver self other)|].
  apply framed_bind; [by apply heap_only_framed|].
  intros msg. apply (framed_deliver self other).
Qed.

Lemma framed_send ms u v : framed (A:=A) (send ms u v).
Proof.
  pose proof heap_only_num_states_of. pose proof heap_only_potential.
  unfold send, send_ms_msg, send_sp_msg. destruct ms.
  - apply framed_bind; [apply heap_only_framed; heap_only_tac|]. intros n.
    destruct (kind n).
    + apply heap_only_framed. unfold Node.send_ms_msg. heap_only_tac.
    + unfold Variable_.send_ms_msg.
      apply framed_bind; [apply heap_only_framed; heap_only_tac|]. intros n'.
      destruct (kind n'); try solve [apply heap_only_framed; heap_only_tac].
      apply framed_variable_send. heap_only_tac.
    + unfold Factor.send_ms_msg.
      apply framed_bind; [apply heap_only_framed; heap_only_tac|]. intros n'.
      destruct (kind n'); try solve [apply heap_only_framed; heap_only_tac].
      apply framed_bind; [|intros msg; apply (framed_deliver u v)].
      apply heap_only_framed. heap_only_tac.
  - apply framed_bind; [apply heap_only_framed; heap_only_tac|]. intros n.
    destruct (kind n).
    + apply heap_only_framed. unfold Node.send_sp_msg. heap_only_tac.
    + unfold Variable_.send_sp_msg.
      apply framed_bind; [apply heap_only_framed; heap_only_tac|]. intros n'.
      destruct (kind n'); try solve [apply heap_only_framed; heap_only_tac].
      apply framed_variable_send. heap_only_tac.
    + unfold Factor.send_sp_msg.
      apply framed_bind; [apply heap_only_framed; heap_only_tac|]. intros n'.
      destruct (kind n'); try solve [apply heap_only_framed; heap_only_tac].
      apply framed_bind; [|intros msg; apply (framed_deliver u v)].
      apply heap_only_framed. heap_only_tac.
Qed.

Lemma framed_send_all calls : framed (A:=A) (send_all calls).
Proof. apply framed_for_each. intros c. apply framed_send. Qed.
End send_frames.

(** ** Variable.reset after Variable.set_observed *)

Section reset_claim.
Context {A : Type} `{Scalar A} `{Log A}.
Implicit Types (st : store A).

Lemma kind_of_insert (m : gmap nat node) i n' (hp : list (ndarray A)) hs :
  kind_of (Store (<[i := n']> m) hp hs) i = Some (kind n').
Proof. unfold kind_of; simpl. by rewrite lookup_insert_eq. Qed.

(** set_observed clears [latent] first: the flag is down whether or not
    the index assignment that follows raises *)
Lemma set_observed_kind st self k ns lat obs :
  kind_of st self = Some (VariableNode ns lat obs) →
  kind_of (snd (Variable_.set_observed self k st)) self
  = Some (VariableNode ns false obs).
Proof.
  intros (n & Hs & Hk)%kind_of_Some. unfold Variable_.set_observed.
  rewrite (bind_Ok _ _ _ _ _ (get_node_Ok _ _ _ Hs)), Hk.
  rewrite (bind_Ok _ _ _ _ _ (update_node_Ok _ _ _ _ Hs)).
  unfold bind, deref, write, lift; simpl.
  destruct (heap st !! obs) as [x|]; simpl; [|apply kind_of_insert].
  destruct (Variable_.setitem _ _ _); simpl; apply kind_of_insert.
Qed.

Lemma reset_kind st self ns lat obs :
  kind_of st self = Some (VariableNode ns lat obs) →
  let st' := snd (Variable_.reset self st) in
  kind_of st' self = Some (VariableNode ns lat (length (heap st)))
  ∧ heap st' !! length (heap st) = Some (np_ones ns)
  ∧ inbox st' self = ∅.
Proof.
  intros (n & Hs & Hk)%kind_of_Some. unfold Variable_.reset, Node.reset.
  rewrite (bind_Ok _ _ _ _ _ (update_node_Ok _ _ _ _ Hs)).
  erewrite bind_Ok; [|apply get_node_Ok; simpl; apply lookup_insert_eq].
  simpl. rewrite Hk. rewrite (bind_Ok _ _ _ _ _ (alloc_Ok _ _)).
  erewrite update_node_Ok; [|simpl; apply lookup_insert_eq].
  simpl. split; [apply kind_of_insert|]. split.
  - by rewrite lookup_app_r, Nat.sub_diag.
  - unfold inbox; simpl. by rewrite lookup_insert_eq.
Qed.

Lemma send_variable ms st self other ns lat obs :
  kind_of st self = Some (VariableNode ns lat obs) →
  send ms self other st
  = (if ms then Variable_.send_ms_msg self other
     else Variable_.send_sp_msg self other) st.
Proof.
  intros (n & Hs & Hk)%kind_of_Some. unfold send, send_ms_msg, send_sp_msg.
  destruct ms; by rewrite (bind_Ok _ _ _ _ _ (get_node_Ok _ _ _ Hs)), Hk.
Qed.

(** C10: reset() leaves [latent] as it is.  After set_observed(k) (for
    any k, also one that is out of range) and reset(), the variable is
    still observed and its observed_state is a new all-ones array; from
    then on, after any sequence of send calls in the graph, a
    send_sp_msg or send_ms_msg of the variable delivers that all-ones
    array, whatever its inbox holds. *)
Theorem reset_keeps_variable_observed st self k ns lat obs :
  kind_of st self = Some (VariableNode ns lat obs) →
  let st2 := snd (Variable_.reset self (snd (Variable_.set_observed self k st))) in
  ∃ obs', kind_of st2 self = Some (VariableNode ns false obs')
          ∧ heap st2 !! obs' = Some (np_ones ns)
          ∧ ∀ calls ms other,
              let st3 := snd (send_all calls st2) in
              is_Some (nodes st3 !! other) →
              ∃ st4, send ms self other st3 = (Ok (), st4)
                     ∧ inbox st4 other !! self = Some obs'
                     ∧ message st4 other self = Some (np_ones ns).
Proof.
  intros Hk st2.
  pose proof (set_observed_kind st self k ns lat obs Hk) as Hk1.
  destruct (reset_kind _ self ns false obs Hk1) as (Hk2 & Hh2 & _).
  fold st2 in Hk2, Hh2.
  eexists. split; [exact Hk2|]. split; [exact Hh2|].
  intros calls ms other st3 Ho.
  destruct (framed_send_all calls st2 (fst (send_all calls st2)) st3)
    as (K3 & _ & H3); [by destruct (send_all calls st2)|].
  assert (kind_of st3 self = Some (VariableNode ns false
            (length (heap (snd (Variable_.set_observed self k st))))))
    as Hk3 by (by rewrite K3).
  destruct (variable_send_observed ms st3 self other ns _ Hk3 Ho)
    as (st4 & E & Hd).
  exists st4. rewrite (send_variable ms st3 self other _ _ _ Hk3).
  split; [done|].
  destruct (message_after_alias _ _ _ _ _ Hd) as [Hi Hh].
  split; [done|]. unfold message. rewrite Hi, Hh. simpl. by apply H3.
Qed.

End reset_claim.

Lemma reset_keeps_variable_observed_witness :
  ∃ obs', kind_of (snd (Variable_.reset 1
                     (snd (Variable_.set_observed 1 0 scenario_store)))) 1
          = Some (VariableNode 2 false obs').
Proof.
  destruct (reset_keeps_variable_observed scenario_store 1 0 2 true 1)
    as (obs' & Hk & _).
  - apply chain_kind_of_X2.
  - by exists obs'.
Defined.

(** ** Variable.marginal *)

Section marginal_claim.
Context {A : Type} `{Scalar A}.
Implicit Types (st : store A).

Lemma binop_PyNum (op : A → A → A) a b :
  binop op (PyNum a) (PyNum b) = Ok (PyNum (op a b)).
Proof. done. Qed.

Lemma fold_binop_numbers (g : nat → A) l a :
  fold_left (λ acc r, obind acc (λ v, binop add v r))
            ((λ i, PyNum (g i)) <$> l) (Ok (PyNum a))
  = Ok (PyNum (fold_left add (g <$> l) a)).
Proof.
  revert a. induction l as [|i l IH]; intros a; simpl; [done|].
  rewrite binop_PyNum. apply IH.
Qed.

Lemma py_sum_vector (x : ndarray A) k :
  shape x = [k] →
  py_sum (PyArr x) = Ok (PyNum (sum_list ((λ i, item x [i]) <$> seq 0 k))).
Proof.
  intros Hx. unfold py_sum, py_iter, sum_list. rewrite Hx. simpl.
  apply (fold_binop_numbers (λ i, item x [i])).
Qed.

Lemma divide_by_number (x : ndarray A) k z :
  shape x = [k] →
  ∃ r, binop div (PyArr x) (PyNum z) = Ok (PyArr r)
       ∧ shape r = [k]
       ∧ ∀ i, i < k → item r [i] = div (item x [i]) z.
Proof.
  intros Hx. unfold binop, ufunc2; simpl. rewrite Hx.
  unfold broadcast_shapes; simpl. unfold from_array; simpl.
  eexists; split; [done|]. split; [done|]. simpl.
  intros i Hi. rewrite bindex_valid; [done|]. by repeat constructor.
Qed.

(** the inbox holds a vector of length [k] from every neighbour, and
    there is at least one: marginal(Z) returns, for any Z *)
Lemma marginal_cases st self ns lat obs msgs k Z :
  kind_of st self = Some (VariableNode ns lat obs) →
  nbrs st self ≠ [] →
  Forall2 (λ nb m, message st self nb = Some m ∧ shape m = [k])
          (nbrs st self) msgs →
  let P i := fold_left mul ((λ m, item m [i]) <$> msgs) one in
  let Zv := match Z with
            | Some z => if is_zero z then sum_list (P <$> seq 0 k) else z
            | None => sum_list (P <$> seq 0 k)
            end in
  ∃ r, Variable_.marginal self Z st = (Ok (PyArr r, PyNum Zv), st)
       ∧ shape r = [k]
       ∧ ∀ i, i < k → item r [i] = div (P i) Zv.
Proof.
  intros (n & Hs & Hk)%kind_of_Some Hne [Hm Hsh]%Forall2_and_shape P Zv.
  rewrite (nbrs_Some _ _ _ Hs) in Hne, Hm.
  destruct (foldM_aug_assign_Ok mul st self n [k] (neighbours n) msgs
              (PyNum one) Hs Hm Hsh I) as (prob & Ep & Hacc & Hsp & Hv).
  assert (msgs ≠ []) as Hmne.
  { intros ->. apply Forall2_nil_inv_r in Hm. done. }
  specialize (Hsp Hmne).
  destruct prob as [a|x]; [done|]. simpl in Hsp, Hv.
  assert (sum_list ((λ i, item x [i]) <$> seq 0 k) = sum_list (P <$> seq 0 k))
    as HZ.
  { f_equal. apply list_fmap_ext. intros j i [-> Hi]%lookup_seq.
    apply Hv. by repeat constructor. }
  assert (∀ st0, lift (py_sum (PyArr x)) st0
                 = (Ok (PyNum (sum_list (P <$> seq 0 k))), st0)) as Esum.
  { intros st0. unfold lift. by rewrite (py_sum_vector x k Hsp), HZ. }
  assert (match Z with
          | Some z => if is_zero z then lift (py_sum (PyArr x))
                      else ret (PyNum z)
          | None => lift (py_sum (PyArr x))
          end st = (Ok (PyNum Zv), st)) as Estep.
  { subst Zv. destruct Z as [z|]; [destruct (is_zero z)|];
      [apply Esum | reflexivity | apply Esum]. }
  destruct (divide_by_number x k Zv Hsp) as (r & Er & Hr1 & Hr2).
  exists r. split.
  { unfold Variable_.marginal.
    rewrite (bind_Ok _ _ _ _ _ (get_node_Ok _ _ _ Hs)).
    rewrite (bind_Ok _ _ _ _ _ Ep).
    rewrite (bind_Ok _ _ _ _ _ Estep).
    unfold lift. rewrite Er. done. }
  split; [done|]. intros i Hi. rewrite (Hr2 i Hi). f_equal.
  apply Hv. by repeat constructor.
Qed.

(** marginal(Z) on a variable whose inbox holds a vector of length [k]
    from every neighbour (there is at least one): the call raises
    nothing and returns (P / Z', Z'), where P is the entrywise product
    of the messages (from 1, in neighbour order) and Z' is the supplied
    Z when one is supplied and it is not zero, and sum(P) otherwise.
    No case is guarded: Z' may be zero. *)
Theorem marginal_returns_quotient st self ns lat obs msgs k Z :
  kind_of st self = Some (VariableNode ns lat obs) →
  nbrs st self ≠ [] →
  Forall2 (λ nb m, message st self nb = Some m ∧ shape m = [k])
          (nbrs st self) msgs →
  let P i := fold_left mul ((λ m, item m [i]) <$> msgs) one in
  let Z' := match Z with
            | Some z => if is_zero z then sum_list (P <$> seq 0 k) else z
            | None => sum_list (P <$> seq 0 k)
            end in
  ∃ r, Variable_.marginal self Z st = (Ok (PyArr r, PyNum Z'), st)
       ∧ shape r = [k]
       ∧ ∀ i, i < k → item r [i] = div (P i) Z'.
Proof. apply marginal_cases. Qed.
End marginal_claim.

Lemma marginal_returns_quotient_witness :
  ∃ r, Variable_.marginal 0 None zero_product_store
       = (Ok (PyArr r, PyNum (Fin 0)), zero_product_store)
       ∧ shape r = [2]
       ∧ ∀ i, i < 2 → item r [i] = NaN.
Proof.
  destruct (marginal_returns_quotient zero_product_store 0 2 true 0
              [array1 [Fin 0; Fin 0] zero] 2 None) as (r & E & Hs & Hi).
  - vm_compute. reflexivity.
  - vm_compute. discriminate.
  - replace (nbrs zero_product_store 0) with [1] by (vm_compute; reflexivity).
    constructor; [|constructor].
    split; [vm_compute; reflexivity | reflexivity].
  - exists r. split; [exact E|]. split; [exact Hs|].
    intros i Hlt. rewrite (Hi i Hlt).
    destruct i as [|[|i]]; [reflexivity | reflexivity | lia].
Defined.

(** ** Variable.marginal: missing messages and isolated variables *)

Section marginal_edges.
Context {A : Type} `{Scalar A}.
Implicit Types (st : store A).

Lemma foldM_app {T U} (g : U → T → M A U) l1 l2 acc st :
  foldM g (l1 ++ l2) acc st
  = (acc' <- foldM g l1 acc ;; foldM g l2 acc') st.
Proof.
  revert acc st. induction l1 as [|x l1 IH]; intros acc st; simpl.
  - done.
  - unfold bind.
    destruct (g acc x st) as [[y|e] st1]; [|done].
    rewrite IH. done.
Qed.

Lemma in_msg_KeyError st (n : node) nb :
  in_msgs n !! nb = None → in_msg (A:=A) n nb st = (Raise KeyError, st).
Proof. unfold in_msg. by intros ->. Qed.

(** marginal() reads self.in_msgs[factor] for every neighbour in turn:
    at the first neighbour that has sent nothing it raises KeyError,
    whatever Z is, and the store is as before the call. *)
Theorem marginal_missing_message st self ns lat obs pre nb post msgs s Z :
  kind_of st self = Some (VariableNode ns lat obs) →
  nbrs st self = pre ++ nb :: post →
  Forall2 (λ nb m, message st self nb = Some m ∧ shape m = s) pre msgs →
  inbox st self !! nb = None →
  Variable_.marginal self Z st = (Raise KeyError, st).
Proof.
  intros (n & Hs & Hk)%kind_of_Some Hnb [Hm Hsh]%Forall2_and_shape Hnone.
  rewrite (nbrs_Some _ _ _ Hs) in Hnb.
  unfold inbox in Hnone. rewrite Hs in Hnone.
  destruct (foldM_aug_assign_Ok mul st self n s pre msgs (PyNum one)
              Hs Hm Hsh I) as (prob & Ep & _).
  unfold Variable_.marginal.
  rewrite (bind_Ok _ _ _ _ _ (get_node_Ok _ _ _ Hs)).
  apply bind_Raise. rewrite Hnb, foldM_app.
  rewrite (bind_Ok _ _ _ _ _ Ep). simpl.
  apply bind_Raise. apply bind_Raise. by apply in_msg_KeyError.
Qed.

(** A variable without neighbours: prob stays the number 1, so
    marginal() raises TypeError when it has to compute sum(prob) (no Z,
    or a zero Z), and returns (1 / Z, Z) for a non-zero Z. *)
Theorem marginal_without_neighbours st self ns lat obs :
  kind_of st self = Some (VariableNode ns lat obs) →
  nbrs st self = [] →
  Variable_.marginal self None st = (Raise TypeError, st)
  ∧ ∀ z, Variable_.marginal self (Some z) st
         = if is_zero z then (Raise TypeError, st)
           else (Ok (PyNum (div one z), PyNum z), st).
Proof.
  intros (n & Hs & Hk)%kind_of_Some Hnb.
  rewrite (nbrs_Some _ _ _ Hs) in Hnb.
  unfold Variable_.marginal.
  rewrite !(bind_Ok _ _ _ _ _ (get_node_Ok _ _ _ Hs)), Hnb. simpl.
  split; [done|]. intros z.
  rewrite (bind_Ok _ _ _ _ _ (get_node_Ok _ _ _ Hs)), Hnb. simpl.
  unfold bind at 1. simpl. by destruct (is_zero z).
Qed.
End marginal_edges.

Lemma marginal_missing_message_witness :
  Variable_.marginal 0 None chain_after_prior
  = (Raise KeyError, chain_after_prior).
Proof.
  apply (marginal_missing_message chain_after_prior 0 2 true 0 [2] 3 []
           [array1 [Fin (1#2); Fin (1#2)] zero] [2] None).
  - vm_compute. reflexivity.
  - vm_compute. reflexivity.
  - constructor; [|constructor].
    split; [vm_compute; reflexivity | reflexivity].
  - vm_compute. reflexivity.
Defined.

Lemma marginal_without_neighbours_witness :
  Variable_.marginal 0 None lone_variable = (Raise TypeError, lone_variable).
Proof.
  apply (marginal_without_neighbours lone_variable 0 2 true 0).
  - vm_compute. reflexivity.
  - vm_compute. reflexivity.
Defined.

(** ** Evidence: set_observed and set_latent *)

Section evidence_facts.
Context {A : Type} `{Scalar A}.
Implicit Types (st : store A).

Lemma inbox_insert_kind st self n c (hp : list (ndarray A)) hs u :
  nodes st !! self = Some n →
  inbox (Store (<[self := set_kind c n]> (nodes st)) hp hs) u = inbox st u.
Proof.
  intros Hs. unfold inbox; simpl. destruct (decide (self = u)) as [->|].
  - by rewrite lookup_insert_eq, Hs.
  - by rewrite lookup_insert_ne.
Qed.

Lemma set_observed_run st self k ns lat obs x :
  kind_of st self = Some (VariableNode ns lat obs) →
  heap st !! obs = Some x →
  ∃ n, nodes st !! self = Some n ∧
  Variable_.set_observed self k st
  = match Variable_.setitem (full (shape x) tiny) k one with
    | Ok x' =>
        (Ok (), Store (<[self := set_kind (VariableNode ns false obs) n]> (nodes st))
                      (<[obs := x']> (<[obs := full (shape x) tiny]> (heap st)))
                      (history st))
    | Raise e =>
        (Raise e, Store (<[self := set_kind (VariableNode ns false obs) n]> (nodes st))
                        (<[obs := full (shape x) tiny]> (heap st))
                        (history st))
    end.
Proof.
  intros (n & Hs & Hk)%kind_of_Some Hx. exists n. split; [done|].
  unfold Variable_.set_observed.
  rewrite (bind_Ok _ _ _ _ _ (get_node_Ok _ _ _ Hs)), Hk.
  rewrite (bind_Ok _ _ _ _ _ (update_node_Ok _ _ _ _ Hs)).
  unfold bind, deref, write, lift; simpl. rewrite Hx.
  by destruct (Variable_.setitem _ _ _).
Qed.

(** set_observed(k) with k a valid Python index of the observed_state
    vector (negative k counts from the end): the variable becomes
    observed and the vector is overwritten in place with the evidence
    for that state.  The array object is the same one: every inbox
    that already holds it as a message reads the new evidence. *)
Theorem set_observed_writes_evidence st self k ns lat obs x n i :
  kind_of st self = Some (VariableNode ns lat obs) →
  heap st !! obs = Some x → shape x = [n] →
  Variable_.py_index k n = Ok i →
  ∃ st', Variable_.set_observed self k st = (Ok (), st')
         ∧ kind_of st' self = Some (VariableNode ns false obs)
         ∧ heap st' !! obs = Some (evidence n i)
         ∧ (∀ l, l ≠ obs → heap st' !! l = heap st !! l)
         ∧ (∀ u from, inbox st u !! from = Some obs →
              message st' u from = Some (evidence n i)).
Proof.
  intros Hk Hx Hsh Hi.
  destruct (set_observed_run st self k ns lat obs x Hk Hx) as (nd & Hs & E).
  pose proof (lookup_lt_Some _ _ _ Hx) as Hlt.
  unfold Variable_.setitem in E. simpl in E. rewrite Hsh, Hi in E. simpl in E.
  eexists. split; [exact E|].
  split; [apply kind_of_insert|]. simpl.
  assert (∀ y z, <[obs := y]> (<[obs := z]> (heap st)) !! obs = Some y) as Hobs.
  { intros y z. apply list_lookup_insert_eq. by rewrite length_insert. }
  split; [apply Hobs|]. split.
  - intros l Hl. by rewrite !list_lookup_insert_ne.
  - intros u from Hu. unfold message.
    rewrite (inbox_insert_kind _ _ _ _ _ _ _ Hs), Hu. simpl. apply Hobs.
Qed.

(** set_observed(k) with k outside the vector raises IndexError after
    the variable has been marked observed and the whole vector has been
    set to 0.000001: that state is what the caller is left with. *)
Theorem set_observed_out_of_range st self k ns lat obs x n :
  kind_of st self = Some (VariableNode ns lat obs) →
  heap st !! obs = Some x → shape x = [n] →
  ¬ (- Z.of_nat n ≤ k < Z.of_nat n)%Z →
  ∃ st', Variable_.set_observed self k st = (Raise IndexError, st')
         ∧ kind_of st' self = Some (VariableNode ns false obs)
         ∧ heap st' !! obs = Some (full [n] tiny).
Proof.
  intros Hk Hx Hsh Hi.
  destruct (set_observed_run st self k ns lat obs x Hk Hx) as (nd & Hs & E).
  pose proof (lookup_lt_Some _ _ _ Hx) as Hlt.
  unfold Variable_.setitem, Variable_.py_index in E. simpl in E.
  rewrite Hsh in E. simpl in E.
  rewrite decide_False in E by lia. rewrite decide_False in E by lia.
  simpl in E. eexists. split; [exact E|].
  split; [apply kind_of_insert|]. simpl.
  by apply list_lookup_insert_eq.
Qed.

(** set_latent() marks the variable latent and refills the same
    observed_state object with ones, whatever it held. *)
Theorem set_latent_restores_ones st self ns lat obs x :
  kind_of st self = Some (VariableNode ns lat obs) →
  heap st !! obs = Some x →
  ∃ st', Variable_.set_latent self st = (Ok (), st')
         ∧ kind_of st' self = Some (VariableNode ns true obs)
         ∧ heap st' !! obs = Some (full (shape x) one)
         ∧ (∀ l, l ≠ obs → heap st' !! l = heap st !! l)
         ∧ (∀ u, nbrs st' u = nbrs st u ∧ inbox st' u = inbox st u).
Proof.
  intros (n & Hs & Hk)%kind_of_Some Hx.
  pose proof (lookup_lt_Some _ _ _ Hx) as Hlt.
  unfold Variable_.set_latent.
  rewrite (bind_Ok _ _ _ _ _ (get_node_Ok _ _ _ Hs)), Hk.
  rewrite (bind_Ok _ _ _ _ _ (update_node_Ok _ _ _ _ Hs)).
  unfold bind, deref, write; simpl. rewrite Hx.
  eexists. split; [done|]. split; [apply kind_of_insert|]. simpl.
  split; [by apply list_lookup_insert_eq|]. split.
  - intros l Hl. by rewrite list_lookup_insert_ne.
  - intros u. split; [by apply nbrs_insert; rewrite (nbrs_Some _ _ _ Hs)|].
    by apply inbox_insert_kind.
Qed.
End evidence_facts.

Lemma set_observed_writes_evidence_witness :
  ∃ st', Variable_.set_observed 1 (-1) chain_after_prior = (Ok (), st')
         ∧ heap st' !! 1 = Some (evidence 2 1).
Proof.
  destruct (set_observed_writes_evidence chain_after_prior 1 (-1) 2 true 1
              (np_ones 2) 2 1) as (st' & E & _ & Hh & _).
  - vm_compute. reflexivity.
  - vm_compute. reflexivity.
  - vm_compute. reflexivity.
  - vm_compute. reflexivity.
  - exists st'. split; [exact E | exact Hh].
Defined.

Lemma set_observed_out_of_range_witness :
  ∃ st', Variable_.set_observed 1 2 chain_after_prior = (Raise IndexError, st')
         ∧ kind_of st' 1 = Some (VariableNode 2 false 1)
         ∧ heap st' !! 1 = Some (full [2] tiny).
Proof.
  apply (set_observed_out_of_range chain_after_prior 1 2 2 true 1 (np_ones 2) 2).
  - vm_compute. reflexivity.
  - vm_compute. reflexivity.
  - vm_compute. reflexivity.
  - lia.
Defined.

Lemma set_latent_restores_ones_witness :
  ∃ st', Variable_.set_latent 1 chain_after_prior = (Ok (), st')
         ∧ kind_of st' 1 = Some (VariableNode 2 true 1).
Proof.
  destruct (set_latent_restores_ones chain_after_prior 1 2 true 1 (np_ones 2))
    as (st' & E & Hk & _).
  - vm_compute. reflexivity.
  - vm_compute. reflexivity.
  - exists st'. split; [exact E | exact Hk].
Defined.

(** ** Node.receive_msg and reset *)

Section node_facts.
Context {A : Type} `{Scalar A}.
Implicit Types (st : store A).

(** receive_msg(other, msg) replaces whatever the inbox held from
    [other], leaves the other entries alone, and marks every neighbour
    except the sender as pending (nothing is ever removed from pending
    here); neighbour lists, arrays and all other nodes are untouched. *)
Theorem receive_msg_overwrites_and_marks st self other msg :
  is_Some (nodes st !! self) →
  ∃ st', Node.receive_msg self other msg st = (Ok (), st')
         ∧ inbox st' self !! other = Some msg
         ∧ (∀ o, o ≠ other → inbox st' self !! o = inbox st self !! o)
         ∧ (∀ x, x ∈ pending_of st' self
                 ↔ x ∈ pending_of st self ∨ (x ∈ nbrs st self ∧ x ≠ other))
         ∧ nbrs st' self = nbrs st self
         ∧ heap st' = heap st
         ∧ history st' = history st ++ [(other, self)]
         ∧ (∀ u, u ≠ self → nodes st' !! u = nodes st !! u).
Proof.
  intros [n Hs]. eexists. split; [by apply receive_msg_Ok|].
  unfold inbox, pending_of, nbrs; simpl. rewrite !lookup_insert_eq, Hs. simpl.
  split; [by rewrite lookup_insert_eq|].
  split; [intros o Ho; by rewrite lookup_insert_ne|].
  split; [intros x; set_solver|].
  repeat split. intros u Hu. by rewrite lookup_insert_ne.
Qed.

Lemma variable_reset_run st self n ns lat obs :
  nodes st !! self = Some n → kind n = VariableNode ns lat obs →
  Variable_.reset self st
  = (Ok (), Store (<[self := Node (name n) (neighbours n) ∅ ∅
                               (VariableNode ns lat (length (heap st)))]>
                     (nodes st))
                  (heap st ++ [np_ones ns]) (history st)).
Proof.
  intros Hs Hk. unfold Variable_.reset, Node.reset.
  rewrite (bind_Ok _ _ _ _ _ (update_node_Ok _ _ _ _ Hs)).
  erewrite bind_Ok; [|apply get_node_Ok; simpl; apply lookup_insert_eq].
  simpl. rewrite Hk. rewrite (bind_Ok _ _ _ _ _ (alloc_Ok _ _)).
  erewrite update_node_Ok; [|simpl; apply lookup_insert_eq].
  simpl. by rewrite insert_insert_eq.
Qed.

(** Variable.reset() empties the inbox and the pending set and binds
    observed_state to a new all-ones array; the neighbour list, the
    class attributes num_states and latent, the arrays already on the
    heap (so also messages delivered earlier by reference) and every
    other node stay as they were. *)
Theorem variable_reset_isolation st self ns lat obs :
  kind_of st self = Some (VariableNode ns lat obs) →
  ∃ st', Variable_.reset self st = (Ok (), st')
         ∧ inbox st' self = ∅
         ∧ pending_of st' self = ∅
         ∧ nbrs st' self = nbrs st self
         ∧ kind_of st' self = Some (VariableNode ns lat (length (heap st)))
         ∧ heap st' = heap st ++ [np_ones ns]
         ∧ history st' = history st
         ∧ (∀ u, u ≠ self → nodes st' !! u = nodes st !! u).
Proof.
  intros (n & Hs & Hk)%kind_of_Some.
  rewrite (variable_reset_run st self n ns lat obs Hs Hk).
  eexists. split; [done|].
  unfold inbox, pending_of, nbrs, kind_of; simpl.
  rewrite !lookup_insert_eq, Hs. simpl.
  repeat split. intros u Hu. by rewrite lookup_insert_ne.
Qed.

(** Variable(name, num_states) creates a new object, distinct from
    every existing one: latent, without neighbours, with an empty
    inbox and an all-ones observed_state; existing nodes and arrays are
    untouched. *)
Theorem variable_init_fresh st nm ns :
  let self := fresh (dom (nodes st)) in
  ∃ st', Variable_.__init__ nm ns st = (Ok self, st')
         ∧ nodes st !! self = None
         ∧ nodes st' !! self
           = Some (Node nm [] ∅ ∅ (VariableNode ns true (length (heap st))))
         ∧ heap st' = heap st ++ [np_ones ns]
         ∧ (∀ u, u ≠ self → nodes st' !! u = nodes st !! u).
Proof.
  intros self. unfold Variable_.__init__.
  unfold new_node at 1. unfold bind at 1. fold self.
  erewrite bind_Ok; last first.
  { apply variable_reset_run with (obs := 0); simpl;
      [apply lookup_insert_eq | done]. }
  simpl. rewrite insert_insert_eq. eexists. split; [done|]. simpl.
  split; [apply not_elem_of_dom, is_fresh|].
  split; [by rewrite lookup_insert_eq|].
  split; [done|].
  intros u Hu. by rewrite lookup_insert_ne.
Qed.
End node_facts.

(** ** Factor.__init__ *)

Section factor_init.
Context {A : Type} `{Scalar A}.
Implicit Types (st s : store A).

Lemma occurrences_snoc u done nb :
  occurrences u (done ++ [nb])
  = occurrences u done + (if decide (nb = u) then 1 else 0).
Proof.
  unfold occurrences. rewrite filter_app, length_app. f_equal.
  rewrite filter_cons, filter_nil. by destruct (decide (nb = u)).
Qed.

Lemma registered_start st nm :
  let self := fresh (dom (nodes st)) in
  registered st self nm [] None
    (Store (<[self := Node nm [] ∅ ∅ (FactorNode None)]> (nodes st))
           (heap st) (history st)).
Proof.
  intros self. repeat split; simpl.
  - by rewrite lookup_insert_eq.
  - intros u Hu. rewrite lookup_insert_ne by done.
    destruct (nodes st !! u) as [n|]; simpl; [|done].
    unfold set_neighbours. rewrite app_nil_r. by destruct n.
Qed.

(** one round of the registration loop *)
Lemma registered_step st self nm done nb s d lat obs (fa : ndarray A) :
  registered st self nm done None s →
  nodes st !! self = None →
  kind_of st nb = Some (VariableNode d lat obs) →
  ∃ s', (num_states <- Factor.num_states_of nb ;;
         assert (bool_decide (nth (length done) (shape fa) 0 = num_states)) ;;;
         Node.add_neighbour self nb ;;;
         Node.add_neighbour nb self) s
        = (if decide (nth (length done) (shape fa) 0 = d)
           then (Ok (), s') else (Raise AssertionError, s))
        ∧ registered st self nm (done ++ [nb]) None s'.
Proof.
  intros (Hself & Hoth & Hh & Hhist) Hfresh (n & Hn & Hk)%kind_of_Some.
  assert (nb ≠ self) as Hne by congruence.
  pose proof (Hoth nb Hne) as Hnb. rewrite Hn in Hnb. simpl in Hnb.
  set (n1 := set_neighbours _ n) in Hnb.
  set (s1 := Store (<[self := Node nm (done ++ [nb]) ∅ ∅ (FactorNode None)]>
                      (nodes s)) (heap s) (history s)).
  set (s2 := Store (<[nb := set_neighbours (neighbours n1 ++ [self]) n1]>
                      (nodes s1)) (heap s1) (history s1)).
  exists s2. split.
  - unfold Factor.num_states_of.
    erewrite bind_Ok; last first.
    { rewrite (bind_Ok _ _ _ _ _ (get_node_Ok _ _ _ Hnb)). simpl.
      rewrite Hk. done. }
    case_decide as Hd.
    + rewrite bool_decide_eq_true_2 by done. simpl.
      unfold bind at 1. simpl. unfold Node.add_neighbour.
      rewrite (bind_Ok _ _ _ _ _ (update_node_Ok _ _ _ _ Hself)).
      erewrite update_node_Ok;
        [|simpl; rewrite lookup_insert_ne by done; exact Hnb].
      done.
    + rewrite bool_decide_eq_false_2 by done. done.
  - repeat split; simpl; [| |done|done].
    + rewrite lookup_insert_ne by done. by rewrite lookup_insert_eq.
    + intros u Hu. rewrite occurrences_snoc.
      destruct (decide (nb = u)) as [->|Hnu].
      * rewrite lookup_insert_eq, Hn. simpl. f_equal.
        unfold n1, set_neighbours; simpl. f_equal.
        rewrite <- app_assoc. f_equal.
        by rewrite Nat.add_1_r, replicate_S_end.
      * rewrite lookup_insert_ne by done. rewrite lookup_insert_ne by done.
        rewrite Hoth by done. by rewrite Nat.add_0_r.
Qed.
End factor_init.

Section factor_init_loop.
Context {A : Type} `{Scalar A}.
Implicit Types (st s : store A).

Lemma registered_loop st self nm (fa : ndarray A) neighbours ok :
  nodes st !! self = None →
  ∀ done tail dims s,
  neighbours = done ++ ok ++ tail →
  registered st self nm done None s →
  Forall2 (λ nb d, ∃ lat obs, kind_of st nb = Some (VariableNode d lat obs))
          ok dims →
  (∀ i d, dims !! i = Some d → nth (length done + i) (shape fa) 0 = d) →
  (tail = [] ∨ ∃ nb d lat obs rest,
      tail = nb :: rest ∧ kind_of st nb = Some (VariableNode d lat obs)
      ∧ nth (length done + length ok) (shape fa) 0 ≠ d) →
  ∃ s', for_each (seq (length done) (length (ok ++ tail)))
          (λ nb_ind,
             match neighbours !! nb_ind with
             | Some nb =>
                 num_states <- Factor.num_states_of nb ;;
                 assert (bool_decide (nth nb_ind (shape fa) 0 = num_states)) ;;;
                 Node.add_neighbour self nb ;;;
                 Node.add_neighbour nb self
             | None => raise IndexError
             end) s
        = (match tail with [] => Ok () | _ => Raise AssertionError end, s')
        ∧ registered st self nm (done ++ ok) None s'.
Proof.
  intros Hfresh. induction ok as [|nb ok IH];
    intros done tail dims s Hnb Hreg Hk Hdims Htail.
  - rewrite app_nil_r. simpl in *.
    destruct Htail as [->|(nb & d & lat & obs & rest & -> & Hkn & Hbad)].
    + exists s. done.
    + exists s. split; [|done]. simpl.
      assert (neighbours !! length done = Some nb) as ->.
      { rewrite Hnb. by rewrite lookup_app_r, Nat.sub_diag. }
      rewrite Nat.add_0_r in Hbad.
      destruct (registered_step st self nm done nb s d lat obs fa
                  Hreg Hfresh Hkn) as (s' & E & _).
      rewrite decide_False in E by done.
      by rewrite (bind_Raise _ _ _ _ _ E).
  - apply Forall2_cons_inv_l in Hk as (d & dims' & (lat & obs & Hkn) & Hk & ->).
    simpl.
    assert (neighbours !! length done = Some nb) as ->.
    { rewrite Hnb. by rewrite lookup_app_r, Nat.sub_diag. }
    destruct (registered_step st self nm done nb s d lat obs fa
                Hreg Hfresh Hkn) as (s1 & E & Hreg1).
    rewrite decide_True in E; last first.
    { rewrite <- (Nat.add_0_r (length done)). by apply Hdims. }
    rewrite (bind_Ok _ _ _ _ _ E).
    destruct (IH (done ++ [nb]) tail dims' s1) as (s' & E' & Hreg').
    + rewrite Hnb. by rewrite <- app_assoc.
    + done.
    + done.
    + intros i d' Hi. rewrite length_app. simpl.
      rewrite <- Nat.add_assoc. by apply Hdims.
    + destruct Htail as [->|(nb' & d' & lat' & obs' & rest & -> & Hkn' & Hbad)];
        [by left|right].
      exists nb', d', lat', obs', rest. split; [done|]. split; [done|].
      rewrite length_app. simpl. simpl in Hbad.
      by rewrite <- Nat.add_assoc.
    + exists s'. rewrite length_app in E'. simpl in E'.
      rewrite Nat.add_1_r in E'. split; [exact E'|].
      by rewrite <- app_assoc in Hreg'.
Qed.

Lemma registered_nbrs st self nm done f s :
  registered st self nm done f s →
  nbrs s self = done
  ∧ kind_of s self = Some (FactorNode f)
  ∧ inbox s self = ∅
  ∧ (∀ u, u ≠ self →
       nbrs s u = nbrs st u ++ (if decide (is_Some (nodes st !! u))
                                then replicate (occurrences u done) self
                                else [])
       ∧ kind_of s u = kind_of st u
       ∧ inbox s u = inbox st u).
Proof.
  intros (Hs & Ho & _). unfold nbrs, kind_of, inbox. rewrite Hs. simpl.
  repeat split; intros; rewrite Ho by done;
    destruct (nodes st !! u) as [n|]; simpl; done.
Qed.
End factor_init_loop.

Section factor_init_claims.
Context {A : Type} `{Scalar A}.
Implicit Types (st s : store A).

Lemma occurrences_not_in u (l : list nat) : u ∉ l → occurrences u l = 0.
Proof.
  unfold occurrences. induction l as [|x l IH]; intros Hu; [done|].
  apply not_elem_of_cons in Hu as [Hne Hu].
  rewrite filter_cons, decide_False by done. by apply IH.
Qed.

Lemma factor_init_run st nm f (fa : ndarray A) neighbours ok tail :
  heap st !! f = Some fa →
  length neighbours = ndim fa →
  neighbours = ok ++ tail →
  Forall2 (λ nb d, ∃ lat obs, kind_of st nb = Some (VariableNode d lat obs))
          ok (take (length ok) (shape fa)) →
  (tail = [] ∨ ∃ nb d lat obs rest,
      tail = nb :: rest ∧ kind_of st nb = Some (VariableNode d lat obs)
      ∧ nth (length ok) (shape fa) 0 ≠ d) →
  let self := fresh (dom (nodes st)) in
  ∃ s', Factor.__init__ nm f neighbours st
        = (match tail with [] => Ok self | _ => Raise AssertionError end, s')
        ∧ registered st self nm ok
            (match tail with [] => Some f | _ => None end) s'.
Proof.
  intros Hf Hlen Hnb Hk Htail self.
  assert (nodes st !! self = None) as Hfresh
    by apply not_elem_of_dom, is_fresh.
  pose proof (registered_start st nm) as Hreg0. cbv zeta in Hreg0.
  fold self in Hreg0.
  set (s0 := Store _ _ _) in Hreg0.
  destruct (registered_loop st self nm fa neighbours ok Hfresh
              [] tail (take (length ok) (shape fa)) s0)
    as (s1 & E1 & Hreg1); try done.
  { intros i d Hi. simpl. apply lookup_take_Some in Hi as [Hi _].
    by apply nth_lookup_Some with (d := 0) in Hi. }
  simpl in E1, Hreg1. rewrite <- Hnb in E1.
  unfold Factor.__init__. unfold new_node at 1. unfold bind at 1. fold self.
  fold s0.
  erewrite bind_Ok; [|unfold deref; simpl; by rewrite Hf].
  rewrite bool_decide_eq_true_2 by done. unfold assert. unfold bind at 1.
  simpl.
  destruct tail as [|nb rest].
  - rewrite (bind_Ok _ _ _ _ _ E1).
    destruct Hreg1 as (Hs1 & Ho1 & Hh1 & Hhist1).
    rewrite (bind_Ok _ _ _ _ _ (update_node_Ok _ _ _ _ Hs1)).
    eexists. split; [done|]. repeat split; simpl.
    + by rewrite lookup_insert_eq.
    + intros u Hu. rewrite lookup_insert_ne by done. by apply Ho1.
    + done.
    + done.
  - rewrite (bind_Raise _ _ _ _ _ E1). by exists s1.
Qed.

(** Factor(name, f, neighbours) with f an array whose shape lists the
    num_states of the variables [neighbours]: the call returns a new
    object whose neighbour list is [neighbours] and whose potential is
    f, and every variable has the factor appended to its own list, once
    per occurrence in [neighbours].  Inboxes, class attributes, arrays
    and the delivery log are unchanged. *)
Theorem factor_init_registers_edges st nm f (fa : ndarray A) neighbours :
  heap st !! f = Some fa →
  Forall2 (λ nb d, ∃ lat obs, kind_of st nb = Some (VariableNode d lat obs))
          neighbours (shape fa) →
  let self := fresh (dom (nodes st)) in
  ∃ st', Factor.__init__ nm f neighbours st = (Ok self, st')
         ∧ nodes st !! self = None
         ∧ nbrs st' self = neighbours
         ∧ kind_of st' self = Some (FactorNode (Some f))
         ∧ inbox st' self = ∅
         ∧ (∀ u, u ∈ neighbours →
              nbrs st' u
              = nbrs st u ++ replicate (occurrences u neighbours) self)
         ∧ (∀ u, u ≠ self → u ∉ neighbours → nbrs st' u = nbrs st u)
         ∧ (∀ u, u ≠ self →
              kind_of st' u = kind_of st u ∧ inbox st' u = inbox st u)
         ∧ heap st' = heap st ∧ history st' = history st.
Proof.
  intros Hf Hk self.
  pose proof (Forall2_length _ _ _ Hk) as Hlen.
  destruct (factor_init_run st nm f fa neighbours neighbours [] Hf Hlen)
    as (st' & E & Hreg).
  { by rewrite app_nil_r. }
  { rewrite Hlen. unfold ndim. by rewrite take_ge by done. }
  { by left. }
  fold self in E, Hreg.
  assert (nodes st !! self = None) as Hfresh
    by apply not_elem_of_dom, is_fresh.
  destruct (registered_nbrs _ _ _ _ _ _ Hreg) as (Hn & Hkd & Hi & Ho).
  destruct Hreg as (_ & _ & Hh & Hhist).
  exists st'. repeat split; try done.
  - intros u Hu.
    assert (is_Some (nodes st !! u)) as Hsome.
    { apply list_elem_of_lookup in Hu as [i Hi'].
      destruct (Forall2_lookup_l _ _ _ _ _ Hk Hi')
        as (d & _ & lat & obs & (n & Hn' & _)%kind_of_Some). eauto. }
    assert (u ≠ self) as Hne by (intros ->; rewrite Hfresh in Hsome;
                                   by destruct Hsome).
    destruct (Ho u Hne) as (-> & _). by rewrite decide_True.
  - intros u Hne Hu. destruct (Ho u Hne) as (-> & _).
    rewrite (occurrences_not_in u neighbours Hu).
    simpl. destruct (decide _); by rewrite app_nil_r.
  - by apply Ho.
  - by apply Ho.
Qed.

(** Factor(...) whose array has the right rank but a wrong length on
    axis j (the axes before j being right): AssertionError is raised
    inside the registration loop, after the edges to the first j
    variables have been made in both directions.  The factor object
    left behind lists those j variables and has no potential. *)
Theorem factor_init_axis_mismatch st nm f (fa : ndarray A) ok nb rest d lat obs :
  heap st !! f = Some fa →
  length (ok ++ nb :: rest) = ndim fa →
  Forall2 (λ nb d, ∃ lat obs, kind_of st nb = Some (VariableNode d lat obs))
          ok (take (length ok) (shape fa)) →
  kind_of st nb = Some (VariableNode d lat obs) →
  nth (length ok) (shape fa) 0 ≠ d →
  let self := fresh (dom (nodes st)) in
  ∃ st', Factor.__init__ nm f (ok ++ nb :: rest) st
         = (Raise AssertionError, st')
         ∧ nbrs st' self = ok
         ∧ kind_of st' self = Some (FactorNode None)
         ∧ (∀ u, u ∈ ok →
              nbrs st' u = nbrs st u ++ replicate (occurrences u ok) self).
Proof.
  intros Hf Hlen Hk Hkn Hbad self.
  destruct (factor_init_run st nm f fa (ok ++ nb :: rest) ok (nb :: rest)
              Hf Hlen eq_refl Hk) as (st' & E & Hreg).
  { right. by exists nb, d, lat, obs, rest. }
  fold self in E, Hreg.
  assert (nodes st !! self = None) as Hfresh
    by apply not_elem_of_dom, is_fresh.
  destruct (registered_nbrs _ _ _ _ _ _ Hreg) as (Hn & Hkd & Hi & Ho).
  exists st'. repeat split; try done.
  intros u Hu.
  assert (is_Some (nodes st !! u)) as Hsome.
  { apply list_elem_of_lookup in Hu as [i Hi'].
    destruct (Forall2_lookup_l _ _ _ _ _ Hk Hi')
      as (d' & _ & lat' & obs' & (n & Hn' & _)%kind_of_Some). eauto. }
  assert (u ≠ self) as Hne by (intros ->; rewrite Hfresh in Hsome;
                                 by destruct Hsome).
  destruct (Ho u Hne) as (-> & _). by rewrite decide_True.
Qed.

(** Factor(...) with an array whose rank differs from the number of
    neighbours: AssertionError is raised before the loop, so no
    existing node is touched (only the new, empty factor object has
    been created). *)
Theorem factor_init_rank_mismatch st nm f (fa : ndarray A) neighbours :
  heap st !! f = Some fa →
  length neighbours ≠ ndim fa →
  ∃ st', Factor.__init__ nm f neighbours st = (Raise AssertionError, st')
         ∧ (∀ u, is_Some (nodes st !! u) → nodes st' !! u = nodes st !! u)
         ∧ nbrs st' (fresh (dom (nodes st))) = []
         ∧ heap st' = heap st ∧ history st' = history st.
Proof.
  intros Hf Hlen. unfold Factor.__init__.
  unfold new_node at 1. unfold bind at 1.
  erewrite bind_Ok; [|unfold deref; simpl; by rewrite Hf].
  rewrite bool_decide_eq_false_2 by done. unfold assert, raise, bind; simpl.
  eexists. split; [done|]. unfold nbrs; simpl. rewrite lookup_insert_eq.
  repeat split. intros u Hu. rewrite lookup_insert_ne; [done|].
  intros <-. apply elem_of_dom in Hu. by apply is_fresh in Hu.
Qed.
End factor_init_claims.

Lemma factor_init_registers_edges_witness :
  ∃ st', Factor.__init__ "f" 0 [0] two_variables_store
         = (Ok (fresh (dom (nodes two_variables_store))), st')
         ∧ nbrs st' (fresh (dom (nodes two_variables_store))) = [0].
Proof.
  destruct (factor_init_registers_edges two_variables_store "f" 0
              (np_ones 2) [0]) as (st' & E & _ & Hn & _).
  - vm_compute. reflexivity.
  - constructor; [|constructor]. exists true, 0. vm_compute. reflexivity.
  - exists st'. split; [exact E | exact Hn].
Defined.

Lemma factor_init_axis_mismatch_witness :
  ∃ st', Factor.__init__ "f" 2 [0; 1] two_variables_store
         = (Raise AssertionError, st')
         ∧ nbrs st' (fresh (dom (nodes two_variables_store))) = [0].
Proof.
  destruct (factor_init_axis_mismatch two_variables_store "f" 2
              (full [2; 3] one) [0] 1 [] 2 true 1) as (st' & E & Hn & _).
  - vm_compute. reflexivity.
  - vm_compute. reflexivity.
  - constructor; [|constructor]. exists true, 0. vm_compute. reflexivity.
  - vm_compute. reflexivity.
  - vm_compute. lia.
  - exists st'. split; [exact E | exact Hn].
Defined.

Lemma factor_init_rank_mismatch_witness :
  ∃ st', Factor.__init__ "f" 2 [0] two_variables_store
         = (Raise AssertionError, st')
         ∧ heap st' = heap two_variables_store.
Proof.
  destruct (factor_init_rank_mismatch two_variables_store "f" 2
              (full [2; 3] one) [0]) as (st' & E & _ & _ & Hh & _).
  - vm_compute. reflexivity.
  - vm_compute. lia.
  - exists st'. split; [exact E | exact Hh].
Defined.

Lemma receive_msg_overwrites_and_marks_witness :
  ∃ st', Node.receive_msg 0 2 1 chain_after_prior = (Ok (), st')
         ∧ inbox st' 0 !! 2 = Some 1.
Proof.
  destruct (receive_msg_overwrites_and_marks chain_after_prior 0 2 1)
    as (st' & E & Hi & _).
  - vm_compute. eauto.
  - exists st'. split; [exact E | exact Hi].
Defined.

Lemma variable_reset_isolation_witness :
  ∃ st', Variable_.reset 0 chain_after_prior = (Ok (), st')
         ∧ inbox st' 0 = ∅
         ∧ nbrs st' 0 = nbrs chain_after_prior 0.
Proof.
  destruct (variable_reset_isolation chain_after_prior 0 2 true 0)
    as (st' & E & Hi & _ & Hn & _).
  - vm_compute. reflexivity.
  - exists st'. split; [exact E|]. split; [exact Hi | exact Hn].
Defined.

(** ** What the send operations leave alone, and when they raise *)

Section send_edges.
Context {A : Type} `{Scalar A} `{Log A}.
Implicit Types (st : store A).

(** A send call, in either mode, from any node to any node, whether it
    returns or raises: no neighbour list changes, no class attribute
    (num_states, latent, the observed_state and potential references)
    changes, and no array that existed before the call is modified. *)
Theorem send_preserves_graph ms u v st :
  let st' := snd (send ms u v st) in
  (∀ w, kind_of st' w = kind_of st w)
  ∧ (∀ w, nbrs st' w = nbrs st w)
  ∧ (∀ l x, heap st !! l = Some x → heap st' !! l = Some x).
Proof.
  intros st'. apply (framed_send ms u v st (fst (send ms u v st)) st').
  subst st'. by destruct (send ms u v st).
Qed.

Lemma mapM_in_msg_KeyError st self n pre nb post msgs :
  nodes st !! self = Some n →
  Forall2 (λ nb m, message st self nb = Some m) pre msgs →
  in_msgs n !! nb = None →
  mapM (in_msg n) (pre ++ nb :: post) st = (Raise (T:=list (ndarray A)) KeyError, st).
Proof.
  intros Hs Hm Hnone. induction Hm as [|x m pre msgs Hx _ IH]; simpl.
  - by rewrite (bind_Raise _ _ _ _ _ (in_msg_KeyError st n nb Hnone)).
  - rewrite (bind_Ok _ _ _ _ _ (in_msg_Ok _ _ _ _ _ Hs Hx)).
    by rewrite (bind_Raise _ _ _ _ _ IH).
Qed.

(** send_sp_msg(to) of a latent variable or of a factor reads
    self.in_msgs[nb] for every neighbour other than [to], in order: at
    the first one that has sent nothing it raises KeyError, and nothing
    has been delivered or allocated (the store is unchanged). *)
Theorem send_sp_missing_message st self other c pre nb post msgs :
  kind_of st self = Some c →
  (∃ ns obs, c = VariableNode ns true obs) ∨ (∃ f, c = FactorNode f) →
  filter (λ x, x ≠ other) (nbrs st self) = pre ++ nb :: post →
  Forall2 (λ nb m, message st self nb = Some m) pre msgs →
  inbox st self !! nb = None →
  send_sp_msg self other st = (Raise KeyError, st).
Proof.
  intros (n & Hs & Hk)%kind_of_Some Hc Hnb Hm Hnone.
  rewrite (nbrs_Some _ _ _ Hs) in Hnb.
  unfold inbox in Hnone. rewrite Hs in Hnone.
  pose proof (mapM_in_msg_KeyError st self n pre nb post msgs Hs Hm Hnone) as E.
  unfold send_sp_msg.
  rewrite (bind_Ok _ _ _ _ _ (get_node_Ok _ _ _ Hs)), Hk.
  destruct Hc as [(ns & obs & ->)|(f & ->)].
  - unfold Variable_.send_sp_msg.
    rewrite (bind_Ok _ _ _ _ _ (get_node_Ok _ _ _ Hs)), Hk. simpl.
    rewrite Hnb. rewrite decide_False; last first.
    { rewrite length_app. simpl. lia. }
    apply bind_Raise. by apply bind_Raise.
  - unfold Factor.send_sp_msg.
    rewrite (bind_Ok _ _ _ _ _ (get_node_Ok _ _ _ Hs)), Hk. simpl.
    rewrite Hnb. rewrite decide_False; last first.
    { rewrite length_app. simpl. lia. }
    apply bind_Raise. by apply bind_Raise.
Qed.

(** A factor all of whose neighbours are [to] (in particular a factor
    with the single neighbour [to]): send_sp_msg(to) delivers the
    potential object itself, by reference, and send_ms_msg(to) delivers
    a new array log(potential). *)
Theorem factor_send_leaf st self other f (fa : ndarray A) :
  kind_of st self = Some (FactorNode (Some f)) →
  heap st !! f = Some fa →
  is_Some (nodes st !! other) →
  filter (λ x, x ≠ other) (nbrs st self) = [] →
  (∃ st', send_sp_msg self other st = (Ok (), st')
          ∧ inbox st' other !! self = Some f
          ∧ heap st' = heap st)
  ∧ (∃ st', send_ms_msg self other st = (Ok (), st')
            ∧ message st' other self = Some (np_log fa)
            ∧ heap st' = heap st ++ [np_log fa]).
Proof.
  intros (n & Hs & Hk)%kind_of_Some Hf [no Ho] Hnb.
  rewrite (nbrs_Some _ _ _ Hs) in Hnb. split.
  - destruct (deliver_Ok st self other f n no Hs Ho) as (st' & E & Hd).
    exists st'. split.
    { unfold send_sp_msg, Factor.send_sp_msg.
      rewrite !(bind_Ok _ _ _ _ _ (get_node_Ok _ _ _ Hs)), Hk.
      rewrite (bind_Ok _ _ _ _ _ (get_node_Ok _ _ _ Hs)), Hk. simpl.
      rewrite Hnb. simpl. exact E. }
    by apply message_after_alias.
  - destruct (deliver_Ok (Store (nodes st) (heap st ++ [np_log fa]) (history st))
                self other (length (heap st)) n no Hs Ho) as (st' & E & Hd).
    exists st'. split.
    { unfold send_ms_msg, Factor.send_ms_msg.
      rewrite !(bind_Ok _ _ _ _ _ (get_node_Ok _ _ _ Hs)), Hk.
      rewrite (bind_Ok _ _ _ _ _ (get_node_Ok _ _ _ Hs)), Hk. simpl.
      rewrite Hnb. simpl.
      erewrite bind_Ok; [exact E|].
      erewrite bind_Ok; [apply alloc_Ok|].
      unfold deref. by rewrite Hf. }
    split; [by apply message_after_alloc in Hd|].
    by destruct Hd as (-> & _).
Qed.
End send_edges.

Lemma send_sp_missing_message_witness :
  send_sp_msg 0 3 (chain_store (Fin 1) (Fin 1) (Fin 1) (Fin 1) (Fin 1) (Fin 1))
  = (Raise KeyError,
     chain_store (Fin 1) (Fin 1) (Fin 1) (Fin 1) (Fin 1) (Fin 1)).
Proof.
  apply (send_sp_missing_message _ 0 3 (VariableNode 2 true 0) [] 2 [] []).
  - vm_compute. reflexivity.
  - left. by exists 2, 0.
  - vm_compute. reflexivity.
  - constructor.
  - vm_compute. reflexivity.
Defined.

Lemma factor_send_leaf_witness :
  ∃ st', send_sp_msg 2 0 scenario_store = (Ok (), st')
         ∧ inbox st' 0 !! 2 = Some 2.
Proof.
  destruct (chain_f1_is_leaf_factor
              (1/2)%R (1/2)%R (9/10)%R (1/10)%R (2/10)%R (8/10)%R)
    as (Hk & Hf & Ho & Hnb).
  destruct (factor_send_leaf scenario_store 2 0 2 _ Hk Hf Ho Hnb)
    as ((st' & E & Hi & _) & _).
  exists st'. split; [exact E | exact Hi].
Defined.

(** ** The scheduler *)

Section send_inversion.
Context {A : Type} `{Scalar A} `{Log A}.
Implicit Types (st : store A).

Lemma delivered_sent st1 st st' u v msg :
  nodes st1 = nodes st → history st1 = history st →
  delivered st1 st' u v msg → sent st st' u v.
Proof.
  intros Hn Hh (_ & Hhist & _ & Hnb & _ & Hin & Hout).
  assert (∀ w, inbox st1 w = inbox st w) as Hi
    by (intros w; unfold inbox; by rewrite Hn).
  repeat split.
  - by rewrite Hhist, Hh.
  - intros w. rewrite Hnb. unfold nbrs. by rewrite Hn.
  - intros w. destruct (decide (w = v)) as [->|Hne].
    + rewrite Hin, Hi, dom_insert. set_solver.
    + by rewrite (Hout w Hne), Hi.
  - rewrite Hin, dom_insert. set_solver.
Qed.

Lemma compute_then_deliver_inv (m : M A nat) u v st st' :
  heap_only m →
  (msg <- m ;; Node.receive_msg v u msg ;;; Node.pending_discard u v) st
  = (Ok (), st') →
  sent st st' u v.
Proof.
  intros Hm (msg & st1 & E1 & E2)%bind_Ok_inv.
  destruct (Hm _ _ _ E1) as (Hn & Hh & _).
  apply (deliver_inv st1 u v msg st') in E2.
  by eapply delivered_sent.
Qed.

Lemma variable_send_inv (compute : M A nat) u v st st' latent obs :
  heap_only compute →
  (if negb latent then
     Node.receive_msg v u obs ;;; Node.pending_discard u v
   else
     msg <- compute ;;
     Node.receive_msg v u msg ;;; Node.pending_discard u v) st
  = (Ok (), st') →
  sent st st' u v.
Proof.
  intros Hc. destruct (negb latent).
  - intros E. apply (deliver_inv st u v obs st') in E.
    by eapply delivered_sent.
  - by apply compute_then_deliver_inv.
Qed.

(** a send that returns has delivered exactly one message *)
Lemma send_Ok_sent ms u v st st' :
  send ms u v st = (Ok (), st') → sent st st' u v.
Proof.
  pose proof (heap_only_num_states_of (A:=A)).
  pose proof (heap_only_potential (A:=A)).
  unfold send, send_ms_msg, send_sp_msg. destruct ms.
  - intros (n & st1 & [-> _]%get_node_inv & E)%bind_Ok_inv. revert E.
    destruct (kind n); [discriminate| |].
    + unfold Variable_.send_ms_msg.
      intros (n' & st1 & [-> _]%get_node_inv & E)%bind_Ok_inv. revert E.
      destruct (kind n'); try discriminate.
      apply variable_send_inv. heap_only_tac.
    + unfold Factor.send_ms_msg.
      intros (n' & st1 & [-> _]%get_node_inv & E)%bind_Ok_inv. revert E.
      destruct (kind n'); try discriminate.
      apply compute_then_deliver_inv. heap_only_tac.
  - intros (n & st1 & [-> _]%get_node_inv & E)%bind_Ok_inv. revert E.
    destruct (kind n); [discriminate| |].
    + unfold Variable_.send_sp_msg.
      intros (n' & st1 & [-> _]%get_node_inv & E)%bind_Ok_inv. revert E.
      destruct (kind n'); try discriminate.
      apply variable_send_inv. heap_only_tac.
    + unfold Factor.send_sp_msg.
      intros (n' & st1 & [-> _]%get_node_inv & E)%bind_Ok_inv. revert E.
      destruct (kind n'); try discriminate.
      apply compute_then_deliver_inv. heap_only_tac.
Qed.

Lemma sent_all_nil st : sent_all st st [].
Proof. repeat split; [by rewrite app_nil_r | set_solver..]. Qed.

Lemma sent_all_trans st st1 st2 l1 l2 :
  sent_all st st1 l1 → sent_all st1 st2 l2 → sent_all st st2 (l1 ++ l2).
Proof.
  intros (H1 & N1 & D1 & I1) (H2 & N2 & D2 & I2). repeat split.
  - by rewrite H2, H1, app_assoc.
  - intros w. by rewrite N2.
  - intros w. etrans; [apply D1 | apply D2].
  - intros u v [Hin|Hin]%elem_of_app.
    + by apply D2, I1.
    + by apply I2.
Qed.

Lemma sent_sent_all st st' u v : sent st st' u v → sent_all st st' [(u, v)].
Proof.
  intros (Hh & Hn & Hd & Hi). repeat split; try done.
  intros u' v' [= -> ->]%list_elem_of_singleton. done.
Qed.

Lemma for_each_send_sent (ms : bool) u (l : list nat) st st' :
  for_each l (λ neighbour,
                if ms then send_ms_msg u neighbour
                else send_sp_msg u neighbour) st = (Ok (), st') →
  sent_all st st' ((λ v, (u, v)) <$> l).
Proof.
  revert st. induction l as [|v l IH]; intros st; simpl.
  - intros [= <-]. apply sent_all_nil.
  - intros (x & st1 & E1 & E2)%bind_Ok_inv. destruct x.
    apply (sent_all_trans st st1 st' [(u, v)]).
    + apply sent_sent_all, (send_Ok_sent ms). by destruct ms.
    + by apply IH.
Qed.
End send_inversion.

Section schedule_counting.
Implicit Types (G : nat → list nat) (l e r : list nat).

Lemma carried_app log1 log2 u v :
  carried (log1 ++ log2) u v = carried log1 u v + carried log2 u v.
Proof. unfold carried. by rewrite filter_app, length_app. Qed.

Lemma carried_pairs_other w l u v :
  w ≠ u → carried ((λ x, (w, x)) <$> l) u v = 0.
Proof.
  intros Hne. unfold carried. induction l as [|x l IH]; [done|].
  rewrite fmap_cons, filter_cons, decide_False; [done|]. congruence.
Qed.

Lemma carried_pairs u l v :
  carried ((λ x, (u, x)) <$> l) u v = occurrences v l.
Proof.
  unfold carried, occurrences. induction l as [|x l IH]; [done|].
  rewrite fmap_cons, !filter_cons.
  destruct (decide (x = v)) as [->|Hne].
  - rewrite decide_True by done. simpl. by rewrite IH.
  - rewrite decide_False by congruence. done.
Qed.

Lemma occurrences_filter (P : nat → Prop) `{∀ x, Decision (P x)} l v :
  occurrences v (filter P l)
  = if decide (P v) then occurrences v l else 0.
Proof.
  unfold occurrences. induction l as [|x l IH]; simpl.
  - by destruct (decide (P v)).
  - rewrite !filter_cons. destruct (decide (P x)) as [HP|HP].
    + rewrite filter_cons. destruct (decide (x = v)) as [->|Hne].
      * rewrite decide_True by done. simpl. rewrite IH.
        by destruct (decide (P v)).
      * rewrite IH. by destruct (decide (P v)).
    + rewrite IH. destruct (decide (x = v)) as [->|Hne].
      * by destruct (decide (P v)).
      * done.
Qed.

Lemma occurrences_NoDup l v : NoDup l → v ∈ l → occurrences v l = 1.
Proof.
  unfold occurrences. induction 1 as [|x l Hx Hnd IH]; [by intros ?%elem_of_nil|].
  rewrite filter_cons. intros [->|Hin]%elem_of_cons.
  - rewrite decide_True by done. simpl. f_equal.
    by apply (occurrences_not_in x l).
  - rewrite decide_False; [by apply IH|]. intros ->. done.
Qed.

Lemma schedule_ext G G' e r :
  (∀ w, G w = G' w) → schedule G e r = schedule G' e r.
Proof.
  intros HG. revert e. induction r as [|x r IH]; intros e; simpl; [done|].
  by rewrite HG, IH.
Qed.

Lemma carried_schedule_absent G e r u v :
  u ∉ r → carried (schedule G e r) u v = 0.
Proof.
  revert e. induction r as [|x r IH]; intros e Hu; simpl; [done|].
  apply not_elem_of_cons in Hu as [Hne Hu].
  rewrite carried_app, carried_pairs_other by done. by apply IH.
Qed.

(** in a sweep over a duplicate-free sequence, [u] sends to [v] as many
    times as [v] occurs among its neighbours if [v] has not been seen
    before [u], and never otherwise *)
Lemma carried_schedule G e l1 u l2 v :
  NoDup (l1 ++ u :: l2) →
  carried (schedule G e (l1 ++ u :: l2)) u v
  = if decide ((v ∉ e) ∧ (v ∉ l1)) then occurrences v (G u) else 0.
Proof.
  revert e. induction l1 as [|x l1 IH]; intros e Hnd; simpl.
  - apply NoDup_cons in Hnd as [Hu _].
    rewrite carried_app, carried_pairs, carried_schedule_absent by done.
    rewrite occurrences_filter, Nat.add_0_r.
    destruct (decide (v ∉ e)); [rewrite decide_True|rewrite decide_False];
      try done; [split; [done|apply not_elem_of_nil] | by intros [? _]].
  - simpl in Hnd. apply NoDup_cons in Hnd as [Hx Hnd].
    assert (x ≠ u) as Hne by (intros ->; apply Hx; set_solver).
    rewrite carried_app, carried_pairs_other by done. simpl.
    rewrite (IH (e ++ [x]) Hnd).
    destruct (decide ((v ∉ e) ∧ (v ∉ x :: l1))) as [[H1 H2]|Hno].
    + apply not_elem_of_cons in H2 as [H2 H3].
      rewrite decide_True; [done|]. split; [|done].
      rewrite elem_of_app, list_elem_of_singleton. tauto.
    + rewrite decide_False; [done|]. intros [H1 H2]. apply Hno.
      rewrite elem_of_app, list_elem_of_singleton in H1.
      split; [tauto|]. apply not_elem_of_cons. tauto.
Qed.

(** a forward and a backward sweep over a duplicate-free sequence that
    contains both ends of an edge carry it once *)
Lemma carried_two_sweeps G l u v :
  NoDup l → u ∈ l → v ∈ l → u ≠ v →
  carried (schedule G [] l ++ schedule G [] (reverse l)) u v
  = occurrences v (G u).
Proof.
  intros Hnd Hu Hv Hne.
  apply list_elem_of_split in Hu as (l1 & l2 & ->).
  rewrite carried_app, carried_schedule by done.
  rewrite reverse_app, reverse_cons, <- app_assoc. simpl.
  rewrite carried_schedule; last first.
  { rewrite <- (reverse_Permutation (l1 ++ u :: l2)) in Hnd.
    by rewrite reverse_app, reverse_cons, <- app_assoc in Hnd. }
  apply NoDup_app in Hnd as (Hnd1 & Hdisj & Hnd2).
  apply NoDup_cons in Hnd2 as [Hu2 Hnd2].
  apply elem_of_app in Hv as [Hv|Hv].
  - rewrite decide_False by (intros [_ ?]; done).
    rewrite decide_True; [done|]. split; [apply not_elem_of_nil|].
    rewrite elem_of_reverse. intros Hv2. apply (Hdisj v Hv). set_solver.
  - apply elem_of_cons in Hv as [->|Hv]; [done|].
    rewrite decide_True; last first.
    { split; [apply not_elem_of_nil|]. intros Hv1.
      apply (Hdisj v Hv1). set_solver. }
    rewrite decide_False; [lia|]. intros [_ Hno]. apply Hno.
    by rewrite elem_of_reverse.
Qed.

Lemma carried_no_edge G e r u v :
  NoDup r → v ∉ G u → carried (schedule G e r) u v = 0.
Proof.
  intros Hnd Hv. destruct (decide (u ∈ r)) as [Hu|Hu].
  - apply list_elem_of_split in Hu as (l1 & l2 & ->).
    rewrite carried_schedule by done.
    rewrite (occurrences_not_in v (G u) Hv). by destruct (decide _).
  - by apply carried_schedule_absent.
Qed.
End schedule_counting.

Section sweeps.
Context {A : Type} `{Scalar A} `{Log A}.
Implicit Types (st : store A).

Lemma sent_all_schedule_ext st st1 st' e r :
  (∀ w, nbrs st1 w = nbrs st w) →
  sent_all st1 st' (schedule (nbrs st1) e r) →
  sent_all st1 st' (schedule (nbrs st) e r).
Proof. intros Hn. by rewrite (schedule_ext (nbrs st1) (nbrs st) e r Hn). Qed.

Lemma sweep_sent ms earlier rest st st' :
  sweep ms earlier rest st = (Ok (), st') →
  sent_all st st' (schedule (nbrs st) earlier rest).
Proof.
  revert earlier st. induction rest as [|node rest IH]; intros earlier st; simpl.
  - intros [= <-]. apply sent_all_nil.
  - intros (n & st0 & [-> Hn]%get_node_inv & E)%bind_Ok_inv.
    specialize (Hn n eq_refl).
    apply bind_Ok_inv in E as ([] & st1 & E1 & E2).
    rewrite (nbrs_Some _ _ _ Hn).
    apply for_each_send_sent in E1.
    apply (sent_all_trans st st1 st'); [done|].
    apply sent_all_schedule_ext; [by destruct E1 as (_ & ? & _)|].
    by apply IH.
Qed.

Lemma set_pending_leaves_sent l st st' :
  set_pending_leaves l st = (Ok (), st') → sent_all st st' [].
Proof.
  unfold set_pending_leaves. revert st.
  induction l as [|node l IH]; intros st; simpl.
  - intros [= <-]. apply sent_all_nil.
  - intros ([] & st1 & E1 & E2)%bind_Ok_inv.
    apply (sent_all_trans st st1 st' [] []); [|by apply IH].
    apply bind_Ok_inv in E1 as (n & st0 & [-> Hn]%get_node_inv & E1).
    specialize (Hn n eq_refl). revert E1. case_decide.
    + rewrite (update_node_Ok _ _ _ _ Hn). intros [= <-].
      repeat split; simpl.
      * by rewrite app_nil_r.
      * intros w. apply nbrs_insert. by rewrite (nbrs_Some _ _ _ Hn).
      * intros w. unfold inbox; simpl.
        destruct (decide (node = w)) as [->|].
        -- by rewrite lookup_insert_eq, Hn.
        -- by rewrite lookup_insert_ne.
      * by intros u v ?%elem_of_nil.
    + intros [= <-]. apply sent_all_nil.
Qed.

Lemma sum_product_sent l ms st st' :
  sum_product l ms st = (Ok (), st') →
  sent_all st st' (schedule (nbrs st) [] l
                   ++ schedule (nbrs st) [] (reverse l)).
Proof.
  unfold sum_product.
  intros ([] & st1 & E1 & E)%bind_Ok_inv.
  apply bind_Ok_inv in E as ([] & st2 & E2 & E3).
  apply sweep_sent in E1, E3. apply set_pending_leaves_sent in E2.
  pose proof (sent_all_trans _ _ _ _ _ E1 E2) as E12.
  rewrite app_nil_r in E12.
  apply (sent_all_trans st st2 st'); [done|].
  apply sent_all_schedule_ext; [by destruct E12 as (_ & ? & _)|done].
Qed.

(** sum_product(node_list, max_sum), in either mode, when node_list has
    no duplicates and the call returns: between two different nodes of
    the list, exactly one message has been delivered from u to v for
    every entry v of u.neighbours (u.neighbours without duplicates),
    and v.in_msgs holds an entry keyed by u; nothing has been delivered
    from a node to a node that is not in its neighbour list; and no
    neighbour list has changed. *)
Theorem sum_product_exchanges_once st l ms :
  fst (sum_product l ms st) = Ok () →
  NoDup l →
  let st' := snd (sum_product l ms st) in
  ∃ log, history st' = history st ++ log
    ∧ (∀ u v, u ∈ l → v ∈ l → u ≠ v →
              NoDup (nbrs st u) → v ∈ nbrs st u →
              carried log u v = 1 ∧ u ∈ dom (inbox st' v))
    ∧ (∀ u v, v ∉ nbrs st u → carried log u v = 0)
    ∧ (∀ w, nbrs st' w = nbrs st w).
Proof.
  intros Hok Hnd st'.
  assert (sum_product l ms st = (Ok (), st')) as E.
  { subst st'. destruct (sum_product l ms st) as [r s]. simpl in Hok.
    by subst r. }
  apply sum_product_sent in E as (Hh & Hn & _ & Hi).
  eexists. split; [exact Hh|]. split; [|split; [|done]].
  - intros u v Hu Hv Hne Hndu Hvu.
    assert (carried (schedule (nbrs st) [] l
                     ++ schedule (nbrs st) [] (reverse l)) u v = 1) as Hc.
    { rewrite carried_two_sweeps by done. by apply occurrences_NoDup. }
    split; [done|]. apply Hi.
    unfold carried in Hc.
    destruct (filter (λ e, e = (u, v)) _) as [|p ps] eqn:Ef; [done|].
    assert (p ∈ p :: ps) as Hp by set_solver.
    rewrite <- Ef in Hp. apply list_elem_of_filter in Hp as [-> Hp]. done.
  - intros u v Hv. rewrite carried_app.
    rewrite !carried_no_edge; try done.
    by rewrite reverse_Permutation.
Qed.
End sweeps.

Lemma sum_product_exchanges_once_witness :
  ∃ log, history (snd (sum_product [2; 0; 3; 1] false scenario_store))
         = history scenario_store ++ log
         ∧ carried log 2 0 = 1.
Proof.
  assert (NoDup [2; 0; 3; 1]) as Hnd
    by (repeat (apply NoDup_cons_2; [set_solver|]); apply NoDup_nil_2).
  assert (NoDup [0]) as Hnd0
    by (apply NoDup_cons_2; [set_solver | apply NoDup_nil_2]).
  assert (2 ∈ [2; 0; 3; 1] ∧ 0 ∈ [2; 0; 3; 1] ∧ 0 ∈ [0]) as (H2 & H0 & H00)
    by set_solver.
  destruct (chain_sum_product_returns
              (1/2)%R (1/2)%R (9/10)%R (1/10)%R (2/10)%R (8/10)%R)
    as (Hok & Hnb).
  destruct (sum_product_exchanges_once scenario_store [2; 0; 3; 1] false
              Hok Hnd) as (log & Hh & Hedge & _).
  exists log. split; [exact Hh|].
  apply (Hedge 2 0 H2 H0); [lia | |];
    unfold scenario_store; rewrite Hnb; assumption.
Defined.

(** ** best_value *)

Section best_value_helpers.
Context {A : Type}.

Lemma ravel_vector (x : ndarray A) k :
  shape x = [k] → ravel x = (λ i, item x [i]) <$> seq 0 k.
Proof.
  intros Hx. unfold ravel. rewrite Hx. simpl. clear Hx.
  generalize 0. induction k as [|k IH]; intros a; simpl; [done|].
  f_equal. exact (IH (S a)).
Qed.

Lemma mapM_deref_Ok (st : store A) locs (msgs : list (ndarray A)) :
  Forall2 (λ a x, heap st !! a = Some x) locs msgs →
  mapM deref locs st = (Ok msgs, st).
Proof.
  induction 1 as [|a x locs msgs Hl _ IH]; simpl; [done|].
  erewrite bind_Ok; [|unfold deref; by rewrite Hl].
  by rewrite (bind_Ok _ _ _ _ _ IH).
Qed.
End best_value_helpers.

Section best_value_facts.
Implicit Types (st : store R) (l pre : list R).

(** the scan of np.argmax over the reals keeps the first maximum *)
Lemma argmax_from_first_maximum l pre best bi :
  bi < length pre →
  nth bi pre 0%R = best →
  (∀ j, j < length pre →
        (nth j pre 0 <= best)%R ∧ (j < bi → (nth j pre 0 < best)%R)) →
  let r := argmax_from best bi (length pre) l in
  r < length (pre ++ l)
  ∧ ∀ j, j < length (pre ++ l) →
         (nth j (pre ++ l) 0 <= nth r (pre ++ l) 0)%R
         ∧ (j < r → (nth j (pre ++ l) 0 < nth r (pre ++ l) 0)%R).
Proof.
  revert pre best bi. induction l as [|y l IH]; intros pre best bi Hbi Hbest Hpre.
  - simpl. rewrite app_nil_r. split; [done|]. intros j Hj. rewrite Hbest.
    by apply Hpre.
  - simpl. unfold gtb; simpl.
    assert (pre ++ y :: l = (pre ++ [y]) ++ l) as Heq by by rewrite <- app_assoc.
    assert (length (pre ++ [y]) = S (length pre)) as Hlen
      by (rewrite length_app; simpl; lia).
    assert (∀ j, j < length pre → nth j (pre ++ [y]) 0%R = nth j pre 0%R) as Hold
      by (intros j Hj; by rewrite app_nth1).
    assert (nth (length pre) (pre ++ [y]) 0%R = y) as Hnew
      by (rewrite app_nth2, Nat.sub_diag by lia; done).
    rewrite Heq, <- Hlen.
    destruct (Rlt_dec best y) as [Hlt|Hge].
    + apply IH; [lia | done |].
      intros j Hj. rewrite Hlen in *.
      destruct (decide (j = length pre)) as [->|Hne].
      * rewrite Hnew. split; [lra | lia].
      * rewrite Hold by lia. destruct (Hpre j) as [H1 _]; [lia|].
        split; intros; lra.
    + apply IH; [lia | by rewrite Hold |].
      intros j Hj. rewrite Hlen in Hj.
      destruct (decide (j = length pre)) as [->|Hne].
      * rewrite Hnew. split; [lra | lia].
      * rewrite Hold by lia. apply Hpre. lia.
Qed.

(** best_value(variable) over the reals, when the inbox holds vectors
    of one length k > 0: the result is the first index at which the
    entrywise sum of the messages is largest (ties go to the lowest
    index). *)
Theorem best_value_first_maximum st v n m msgs k :
  nodes st !! v = Some n →
  Forall2 (λ a x, heap st !! a = Some x ∧ shape x = [k])
          (snd <$> map_to_list (in_msgs n)) (m :: msgs) →
  0 < k →
  let total i := fold_left Rplus ((λ x, item x [i]) <$> msgs) (item m [i]) in
  ∃ r, best_value v st = (Ok r, st)
       ∧ r < k
       ∧ ∀ j, j < k → (total j <= total r)%R ∧ (j < r → (total j < total r)%R).
Proof.
  intros Hn Hm Hk total.
  assert (Forall2 (λ a x, heap st !! a = Some x)
                  (snd <$> map_to_list (in_msgs n)) (m :: msgs)
          ∧ Forall (λ x, shape x = [k]) (m :: msgs)) as [Hm1 Hm2].
  { clear -Hm. induction Hm as [|???? [??] _ [??]]; split; auto. }
  apply Forall_cons in Hm2 as [Hsm Hsh].
  set (s := NDArray [k] (λ idx, fold_left Rplus ((λ w, item w idx) <$> msgs)
                                          (item m idx))).
  assert (np_sum_axis0 (m :: msgs) = Ok s) as Es.
  { unfold np_sum_axis0, ufunc_reduce. rewrite decide_True; [by rewrite Hsm|].
    eapply Forall_impl; [exact Hsh|]. simpl. congruence. }
  assert (ravel s = total <$> seq 0 k) as Er by by apply ravel_vector.
  destruct k as [|k]; [lia|].
  pose proof (argmax_from_first_maximum (total <$> seq 1 k) [total 0] (total 0) 0) as Ha.
  cbn [app length] in Ha. destruct Ha as [Hr Hmax]; [lia | done | |].
  { intros j Hj. assert (j = 0) as -> by lia. split; [simpl; lra | lia]. }
  rewrite length_fmap, length_seq in Hr, Hmax.
  exists (argmax_from (total 0) 0 1 (total <$> seq 1 k)). split.
  { unfold best_value.
    rewrite (bind_Ok _ _ _ _ _ (get_node_Ok _ _ _ Hn)).
    rewrite (bind_Ok _ _ _ _ _ (mapM_deref_Ok _ _ _ Hm1)).
    erewrite bind_Ok; [|unfold lift; by rewrite Es].
    unfold lift, np_argmax. rewrite Er. done. }
  split; [done|]. intros j Hj.
  assert (∀ i, i < S k →
               nth i (total 0 :: (total <$> seq 1 k)) 0%R = total i) as Hnth.
  { intros i Hi. change (total 0 :: (total <$> seq 1 k)) with (total <$> seq 0 (S k)).
    apply nth_lookup_Some. rewrite list_lookup_fmap, lookup_seq_lt by done.
    done. }
  specialize (Hmax j Hj). rewrite !Hnth in Hmax by lia. done.
Qed.

End best_value_facts.

(** best_value(variable) on a node whose in_msgs is empty: np.sum of no
    messages is the number 0, and its argmax is 0; nothing is raised
    and the state is unchanged. *)
Theorem best_value_empty_inbox {A} `{Scalar A} (st : store A) v n :
  nodes st !! v = Some n → in_msgs n = ∅ →
  best_value v st = (Ok 0, st).
Proof.
  intros Hn He. unfold best_value.
  rewrite (bind_Ok _ _ _ _ _ (get_node_Ok _ _ _ Hn)), He.
  rewrite map_to_list_empty. done.
Qed.

Lemma best_value_empty_inbox_witness :
  best_value 0 lone_variable = (Ok 0, lone_variable).
Proof. eapply best_value_empty_inbox; vm_compute; reflexivity. Defined.

Section flat_prior.
Context {A : Type} `{Scalar A}.

Lemma flat_prior_inbox :
  ∃ n m, nodes (flat_prior_store (A:=A)) !! 0 = Some n
         ∧ snd <$> map_to_list (in_msgs n) = [1]
         ∧ heap (flat_prior_store (A:=A)) !! 1 = Some m
         ∧ shape m = [2].
Proof. vm_compute. eexists _, _. repeat split; reflexivity. Qed.
End flat_prior.

Lemma best_value_first_maximum_witness :
  ∃ r, best_value 0 flat_prior_store = (Ok r, flat_prior_store (A:=R))
       ∧ r < 2.
Proof.
  destruct (flat_prior_inbox (A:=R)) as (n & m & Hn & Hl & Hm & Hs).
  destruct (best_value_first_maximum flat_prior_store 0 n m [] 2)
    as (r & E & Hr & _).
  - exact Hn.
  - rewrite Hl. constructor; [split; [exact Hm | exact Hs]|constructor].
  - lia.
  - exists r. split; [exact E | exact Hr].
Defined.

(** ** Factor.send_sp_msg: the product of the np.ix_ arrays *)

Section broadcasting.
Implicit Types (s D idx : list nat).

Lemma broadcast_rev_ones s :
  broadcast_rev s (replicate (length s) 1) = Some s.
Proof.
  induction s as [|a s IH]; simpl; [done|]. rewrite IH.
  repeat case_decide; congruence.
Qed.

Lemma broadcast_rev_axis q d s :
  broadcast_rev (replicate q 1 ++ 1 :: s)
                (replicate q 1 ++ d :: replicate (length s) 1)
  = Some (replicate q 1 ++ d :: s).
Proof.
  induction q as [|q IH]; simpl.
  - rewrite broadcast_rev_ones. repeat case_decide; congruence.
  - by rewrite IH.
Qed.

(** an array that has length 1 from some axis on, times a vector laid
    along that axis *)
Lemma broadcast_shapes_axis D d q :
  broadcast_shapes (D ++ 1 :: replicate q 1)
                   (replicate (length D) 1 ++ d :: replicate q 1)
  = Some (D ++ d :: replicate q 1).
Proof.
  unfold broadcast_shapes.
  rewrite !reverse_app, !reverse_cons, !reverse_replicate, <- !app_assoc.
  simpl. rewrite <- (length_reverse D), broadcast_rev_axis. simpl.
  rewrite reverse_app, reverse_cons, reverse_replicate, reverse_involutive.
  by rewrite <- app_assoc.
Qed.

Lemma insert_replicate_ones j d p :
  j < p →
  <[j := d]> (replicate p 1) = replicate j 1 ++ d :: replicate (p - S j) 1.
Proof.
  revert p. induction j as [|j IH]; intros [|p] Hlt; try lia; simpl.
  - by rewrite Nat.sub_0_r.
  - f_equal. apply IH. lia.
Qed.

Lemma bindex_length s idx :
  length s = length idx → length (bindex s idx) = length idx.
Proof.
  intros Hl. unfold bindex. rewrite Hl, Nat.sub_diag, drop_0, length_zip_with.
  lia.
Qed.

Lemma bindex_nth s idx k :
  length s = length idx → nth k idx 0 < nth k s 0 →
  nth k (bindex s idx) 0 = nth k idx 0.
Proof.
  intros Hl. unfold bindex. rewrite Hl, Nat.sub_diag, drop_0. clear Hl.
  revert k idx. induction s as [|a s IH]; intros [|k] [|i idx]; simpl;
    try lia.
  - intros Hlt. case_decide; lia.
  - apply IH.
Qed.
End broadcasting.

Section mesh_product.
Context {A : Type} `{Scalar A}.
Implicit Types (m x : ndarray A) (l : list (ndarray A)).

Lemma py_reduce_snoc {T} (g : T → T → outcome T) (x : T) (L : list T) y :
  py_reduce g (x :: L ++ [y]) = obind (py_reduce g (x :: L)) (λ a, g a y).
Proof. simpl. by rewrite fold_left_app. Qed.

Lemma prod_list_snoc (a : A) L y :
  prod_list (a :: L ++ [y]) = mul (prod_list (a :: L)) y.
Proof. simpl. by rewrite fold_left_app. Qed.

(** reduce(np.multiply, np.ix_(m0, m1, ...)) after the first operands:
    the axes seen so far have the lengths of their vectors, and the
    entry at an index is the product of the vectors' entries at its
    coordinates *)
Lemma mesh_product p m0 l :
  S (length l) ≤ p →
  ∃ acc, py_reduce (ufunc2 mul) (imap (open_mesh p) (m0 :: l)) = Ok acc
    ∧ shape acc = ((λ v, nth 0 (shape v) 0) <$> (m0 :: l))
                  ++ replicate (p - S (length l)) 1
    ∧ ∀ idx, length idx = p →
        (∀ k v, (m0 :: l) !! k = Some v → nth k idx 0 < nth 0 (shape v) 0) →
        item acc idx = prod_list (imap (λ k v, item v [nth k idx 0]) (m0 :: l)).
Proof.
  induction l as [|x l IH] using rev_ind; intros Hp.
  - exists (open_mesh p 0 m0). split; [done|]. split; [|done].
    unfold open_mesh. cbn [shape]. by rewrite insert_replicate_ones by lia.
  - rewrite length_app in Hp. simpl in Hp.
    destruct IH as (acc & E & Hs & Hi); [lia|].
    set (D := (λ v, nth 0 (shape v) 0) <$> (m0 :: l)) in *.
    assert (length D = S (length l)) as HD by (subst D; by rewrite length_fmap).
    rewrite !app_comm_cons, !imap_app. cbn [imap length].
    rewrite Nat.add_0_r.
    change (imap (open_mesh p) (m0 :: l)) with
      (open_mesh p 0 m0 :: imap (open_mesh p ∘ S) l) in E |- *.
    rewrite <- app_comm_cons, py_reduce_snoc, E. cbn [obind]. unfold ufunc2.
    replace (shape (open_mesh p (S (length l)) x))
      with (replicate (length D) 1 ++ nth 0 (shape x) 0
              :: replicate (p - S (S (length l))) 1)
      by (rewrite HD; simpl; by rewrite insert_replicate_ones by lia).
    replace (shape acc)
      with (D ++ 1 :: replicate (p - S (S (length l))) 1).
    2:{ rewrite Hs. f_equal.
        replace (p - S (length l)) with (S (p - S (S (length l)))) by lia.
        done. }
    rewrite broadcast_shapes_axis.
    eexists. split; [reflexivity|]. split.
    + cbn [shape]. rewrite fmap_app, length_app. simpl.
      rewrite <- app_assoc. simpl.
      by replace (length l + 1) with (S (length l)) by lia.
    + intros idx Hlen Hv. cbn [item].
      rewrite imap_app. cbn [imap length]. rewrite Nat.add_0_r.
      change (imap (λ k v, item v [nth k idx 0]) (m0 :: l)) with
        (item m0 [nth 0 idx 0]
           :: imap ((λ k v, item v [nth k idx 0]) ∘ S) l) in Hi |- *.
      rewrite <- app_comm_cons, prod_list_snoc.
      set (q := p - S (S (length l))) in *.
      assert (length (D ++ 1 :: replicate q 1) = length idx) as HlA.
      { rewrite length_app, HD. simpl. rewrite length_replicate. lia. }
      assert (length (replicate (length D) 1 ++ nth 0 (shape x) 0
                        :: replicate q 1) = length idx) as HlB.
      { rewrite length_app, length_replicate, HD. simpl.
        rewrite length_replicate. lia. }
      assert (∀ k v, (m0 :: l) !! k = Some v →
                nth k (bindex (D ++ 1 :: replicate q 1) idx) 0
                = nth k idx 0) as Hsame.
      { intros k v Hk. apply bindex_nth; [done|].
        assert (D !! k = Some (nth 0 (shape v) 0)) as HDk
          by (subst D; by rewrite list_lookup_fmap, Hk).
        rewrite (nth_lookup_Some (D ++ _) k 0 (nth 0 (shape v) 0))
          by (by apply lookup_app_l_Some).
        apply (Hv k v). by apply lookup_app_l_Some. }
      f_equal.
      * rewrite Hi.
        -- change (prod_list (imap (λ k v, item v [nth k (bindex (D ++ 1 :: replicate q 1) idx) 0]) (m0 :: l))
                   = prod_list (imap (λ k v, item v [nth k idx 0]) (m0 :: l))).
           f_equal. apply imap_ext. intros k v Hk. by rewrite (Hsame k v Hk).
        -- rewrite bindex_length by done. done.
        -- intros k v Hk. rewrite (Hsame k v Hk). apply (Hv k v).
           by apply lookup_app_l_Some.
      * unfold open_mesh. cbn [item]. do 2 f_equal.
        apply bindex_nth; [done|].
        rewrite app_nth2; rewrite length_replicate, HD; [|lia].
        rewrite Nat.sub_diag. simpl. apply (Hv (S (length l)) x).
        rewrite lookup_app_r; simpl; [|lia]. by rewrite Nat.sub_diag.
Qed.
End mesh_product.
(** ** Factor.send_sp_msg: axes and positions *)

Section axis_positions.
Implicit Types (l k : list nat).

Lemma index_NoDup_lookup l i x :
  NoDup l → l !! i = Some x → index x l = Some i.
Proof.
  revert i. induction l as [|y l IH]; intros [|i] Hnd Hl; simpl in *;
    try done.
  - injection Hl as ->. by rewrite decide_True.
  - apply NoDup_cons in Hnd as [Hy Hnd].
    rewrite decide_False, (IH i); try done.
    intros ->. apply Hy. by eapply list_elem_of_lookup_2.
Qed.

Lemma index_seq q a n : a ≤ q < a + n → index q (seq a n) = Some (q - a).
Proof.
  revert a. induction n as [|n IH]; intros a Hq; simpl; [lia|].
  case_decide.
  - f_equal. lia.
  - rewrite IH by lia. simpl. f_equal. lia.
Qed.

Lemma index_None q l : q ∉ l → index q l = None.
Proof.
  induction l as [|y l IH]; simpl; [done|].
  intros [Hne Hq]%not_elem_of_cons.
  rewrite decide_False by done. by rewrite IH.
Qed.

Lemma index_app q l1 l2 :
  index q (l1 ++ l2)
  = match index q l1 with
    | Some r => Some r
    | None => (λ r, length l1 + r) <$> index q l2
    end.
Proof.
  induction l1 as [|y l1 IH]; simpl.
  - by destruct (index q l2).
  - case_decide; [done|]. rewrite IH.
    destruct (index q l1); simpl; [done|]. by destruct (index q l2).
Qed.

Lemma filter_all (P : nat → Prop) `{∀ x, Decision (P x)} l :
  (∀ x, x ∈ l → P x) → filter P l = l.
Proof.
  induction l as [|y l IH]; intros HP; [done|].
  rewrite filter_cons, decide_True by (apply HP; set_solver).
  f_equal. apply IH. intros x Hx. apply HP. set_solver.
Qed.

Lemma filter_none (P : nat → Prop) `{∀ x, Decision (P x)} l :
  (∀ x, x ∈ l → ¬ P x) → filter P l = [].
Proof.
  induction l as [|y l IH]; intros HP; [done|].
  rewrite filter_cons, decide_False by (apply HP; set_solver).
  apply IH. intros x Hx. apply HP. set_solver.
Qed.

Lemma seq_split i L :
  i < L → seq 0 L = seq 0 i ++ i :: seq (S i) (L - S i).
Proof.
  intros Hi. replace L with (i + S (L - S i)) at 1 by lia.
  by rewrite seq_app.
Qed.

(** range(L) without i *)
Lemma filter_ne_seq i L :
  i < L → filter (λ a, a ≠ i) (seq 0 L) = seq 0 i ++ seq (S i) (L - S i).
Proof.
  intros Hi. rewrite (seq_split i L Hi), filter_app.
  rewrite filter_cons, decide_False by (intros ?; done).
  rewrite !filter_all; [done|..]; intros x Hx%elem_of_seq; lia.
Qed.

Lemma filter_notin_axes i L :
  i < L →
  filter (λ a, a ∉ filter (λ a, a ≠ i) (seq 0 L)) (seq 0 L) = [i].
Proof.
  intros Hi. rewrite (filter_ne_seq i L Hi).
  rewrite (seq_split i L Hi), filter_app.
  rewrite filter_cons, decide_True; last first.
  { rewrite elem_of_app, !elem_of_seq. lia. }
  rewrite !filter_none; [done|..]; intros x Hx%elem_of_seq Hno;
    apply Hno; rewrite elem_of_app, !elem_of_seq; lia.
Qed.

Lemma filter_notin_all p : filter (λ a, a ∉ seq 0 p) (seq 0 p) = [].
Proof. apply filter_none. intros x Hx Hno. done. Qed.

(** the index into the potential built from the coordinate [x] of the
    receiver's axis and the coordinates [k] of the other axes *)
Lemma gather_insert L i x k :
  i < L → length k = L - 1 →
  gather L (filter (λ a, a ≠ i) (seq 0 L)) k [i] [x] = list_insert i x k.
Proof.
  intros Hi Hk. rewrite (filter_ne_seq i L Hi). unfold gather, list_insert.
  apply list_eq. intros q. rewrite list_lookup_fmap.
  assert (length (take i k) = i) as Ht by (rewrite length_take; lia).
  destruct (decide (q < L)) as [Hq|Hq].
  - rewrite lookup_seq_lt by done. simpl.
    destruct (decide (q < i)) as [Hqi|Hqi].
    + rewrite decide_True by (rewrite elem_of_app, !elem_of_seq; lia).
      unfold pos. rewrite index_app, index_seq by lia. simpl.
      rewrite lookup_app_l, lookup_take_lt by lia.
      rewrite Nat.sub_0_r, nth_lookup.
      destruct (lookup_lt_is_Some_2 k q) as [y Hy]; [lia|]. by rewrite Hy.
    + destruct (decide (q = i)) as [->|Hne].
      * rewrite decide_False by (rewrite elem_of_app, !elem_of_seq; lia).
        unfold pos. simpl. rewrite decide_True by done. simpl.
        rewrite lookup_app_r by lia. by rewrite Ht, Nat.sub_diag.
      * rewrite decide_True by (rewrite elem_of_app, !elem_of_seq; lia).
        unfold pos. rewrite index_app, index_None
          by (rewrite elem_of_seq; lia).
        rewrite index_seq by lia. simpl. rewrite length_seq.
        rewrite lookup_app_r by lia. rewrite Ht.
        replace (q - i) with (S (q - S i)) by lia. simpl.
        rewrite lookup_drop, nth_lookup.
        destruct (lookup_lt_is_Some_2 k (i + (q - S i))) as [y Hy]; [lia|].
        by rewrite Hy.
  - rewrite lookup_seq_ge by lia. simpl. symmetry.
    apply lookup_ge_None. rewrite length_app. simpl.
    rewrite length_drop. lia.
Qed.

Lemma gather_id p k : length k = p → gather p (seq 0 p) k [] [] = k.
Proof.
  intros Hk. unfold gather. apply list_eq. intros q.
  rewrite list_lookup_fmap. destruct (decide (q < p)) as [Hq|Hq].
  - rewrite lookup_seq_lt by done. simpl.
    rewrite decide_True by (rewrite elem_of_seq; lia).
    unfold pos. rewrite index_seq by lia. simpl.
    rewrite Nat.sub_0_r, nth_lookup.
    destruct (lookup_lt_is_Some_2 k q) as [y Hy]; [lia|]. by rewrite Hy.
  - rewrite lookup_seq_ge by lia. simpl. symmetry.
    apply lookup_ge_None. lia.
Qed.

Lemma indices_valid s k : k ∈ indices s → valid_index s k.
Proof.
  revert k. induction s as [|n s IH]; intros k; simpl.
  - intros ->%list_elem_of_singleton. constructor.
  - rewrite list_elem_of_In, in_flat_map.
    intros (i & Hi%list_elem_of_In%elem_of_seq & Hk%list_elem_of_In).
    apply list_elem_of_fmap in Hk as (k' & -> & Hk').
    constructor; [lia | by apply IH].
Qed.

(** the positions that survive [range(len(l))] without [i] hold the
    entries that survive [l] without the entry at [i] *)
Lemma filter_positions pre l i other :
  NoDup (pre ++ l) → (pre ++ l) !! i = Some other →
  Forall2 (λ a nb, (pre ++ l) !! a = Some nb)
          (filter (λ a, a ≠ i) (seq (length pre) (length l)))
          (filter (λ nb, nb ≠ other) l).
Proof.
  revert pre. induction l as [|y l IH]; intros pre Hnd Hi; simpl; [constructor|].
  assert ((pre ++ y :: l) !! length pre = Some y) as Hy
    by (by apply list_lookup_middle).
  assert (Forall2 (λ a nb, (pre ++ y :: l) !! a = Some nb)
            (filter (λ a, a ≠ i) (seq (S (length pre)) (length l)))
            (filter (λ nb, nb ≠ other) l)) as Hrest.
  { specialize (IH (pre ++ [y])). rewrite <- app_assoc in IH. simpl in IH.
    rewrite length_app in IH. simpl in IH.
    replace (length pre + 1) with (S (length pre)) in IH by lia.
    by apply IH. }
  rewrite !filter_cons.
  destruct (decide (length pre = i)) as [<-|Hne].
  - rewrite Hy in Hi. injection Hi as ->.
    rewrite decide_False by (intros ?; done).
    by rewrite decide_False by (intros ?; done).
  - rewrite decide_True by done.
    rewrite decide_True; [by constructor|].
    intros ->. apply Hne. by apply (NoDup_lookup _ _ _ _ Hnd Hy).
Qed.
End axis_positions.
(** ** Factor.send_sp_msg with several neighbours *)

Section factor_sum_product.
Context {A : Type} `{Scalar A}.
Implicit Types (st : store A) (fa mm : ndarray A).

Lemma axes_shape_all (x : ndarray A) : axes_shape x (seq 0 (ndim x)) = shape x.
Proof.
  unfold axes_shape, ndim. apply list_eq. intros q. rewrite list_lookup_fmap.
  destruct (shape x !! q) as [d|] eqn:Hq.
  - rewrite lookup_seq_lt by (by eapply lookup_lt_Some). simpl. f_equal.
    by apply nth_lookup_Some.
  - rewrite lookup_seq_ge; [done|]. by apply lookup_ge_None.
Qed.

(** np.tensordot(f, mm, axes=(f_axes, range(mm.ndim))) when f_axes is
    every axis of f but [i] *)
Lemma tensordot_contract fa mm i :
  i < ndim fa →
  shape mm = axes_shape fa (filter (λ a, a ≠ i) (seq 0 (ndim fa))) →
  ∃ r, np_tensordot fa mm (filter (λ a, a ≠ i) (seq 0 (ndim fa)))
                    (seq 0 (ndim mm)) = Ok r
       ∧ shape r = [nth i (shape fa) 0]
       ∧ ∀ x, item r [x]
              = sum_list ((λ k, mul (item fa (list_insert i x k)) (item mm k))
                            <$> indices (shape mm)).
Proof.
  intros Hi Hmm.
  assert (ndim mm = ndim fa - 1) as Hp.
  { unfold ndim at 1. rewrite Hmm. unfold axes_shape.
    rewrite length_fmap, (filter_ne_seq i _ Hi), length_app, !length_seq. lia. }
  unfold np_tensordot. rewrite decide_True; last first.
  { split; [|split; [|split]].
    - rewrite length_seq. unfold ndim at 2. rewrite Hmm. unfold axes_shape.
      by rewrite length_fmap.
    - by rewrite axes_shape_all.
    - apply Forall_forall. intros a [_ Ha%elem_of_seq]%list_elem_of_filter. lia.
    - apply Forall_seq. lia. }
  eexists. split; [reflexivity|].
  rewrite (filter_notin_axes i _ Hi), filter_notin_all. split; [done|].
  intros x. cbn [item length take drop]. rewrite <- Hmm. f_equal.
  apply list_fmap_ext. intros j k Hk%list_elem_of_lookup_2%indices_valid.
  apply Forall2_length in Hk. fold (ndim mm) in Hk.
  rewrite gather_insert by lia. by rewrite gather_id.
Qed.

Lemma np_ix_Ok (msgs : list (ndarray A)) :
  Forall (λ v, ndim v = 1) msgs →
  np_ix_ msgs = Ok (imap (open_mesh (length msgs)) msgs).
Proof. intros Hv. unfold np_ix_. by rewrite decide_True. Qed.

(** reduce(np.multiply, ...) over the np.ix_ arrays is the outer product *)
Lemma mesh_product_outer (msgs : list (ndarray A)) :
  msgs ≠ [] →
  ∃ mm, py_reduce (ufunc2 mul) (imap (open_mesh (length msgs)) msgs) = Ok mm
        ∧ shape mm = shape (outer msgs)
        ∧ ∀ k, k ∈ indices (shape mm) → item mm k = item (outer msgs) k.
Proof.
  destruct msgs as [|m0 l]; [done|]. intros _.
  destruct (mesh_product (length (m0 :: l)) m0 l) as (mm & E & Hs & Hi);
    [done|].
  cbn [length] in Hs. rewrite Nat.sub_diag, app_nil_r in Hs.
  exists mm. split; [done|]. split; [done|].
  intros k Hk%indices_valid. rewrite Hs in Hk. apply Hi.
  - apply Forall2_length in Hk. by rewrite length_fmap in Hk.
  - intros j v Hj.
    pose proof (proj1 (Forall2_fmap_r _ lt k (m0 :: l)) Hk) as Hk2.
    destruct (Forall2_lookup_r _ _ _ _ _ Hk2 Hj) as (y & Hy & Hlt).
    by rewrite (nth_lookup_Some _ _ _ _ Hy).
Qed.

Lemma axes_shape_messages fa (axes : list nat) (msgs : list (ndarray A)) :
  Forall2 (λ a m, shape m = [nth a (shape fa) 0]) axes msgs →
  shape (outer msgs) = axes_shape fa axes ∧ Forall (λ v, ndim v = 1) msgs.
Proof.
  induction 1 as [|a m axes msgs Hm _ [IH1 IH2]]; [done|]. split.
  - unfold outer, axes_shape in *. cbn [shape] in *. rewrite !fmap_cons.
    rewrite IH1, Hm. done.
  - constructor; [|done]. unfold ndim. by rewrite Hm.
Qed.

Lemma positions_shapes (l axes nbs : list nat) (msgs : list (ndarray A))
    (Q : nat → ndarray A → Prop) :
  NoDup l →
  Forall2 (λ a nb, l !! a = Some nb) axes nbs →
  Forall2 (λ nb m, ∃ a, l !! a = Some nb ∧ Q a m) nbs msgs →
  Forall2 Q axes msgs.
Proof.
  intros Hnd Hpos. revert msgs.
  induction Hpos as [|a nb axes nbs Ha _ IH]; intros msgs Hm;
    inversion Hm as [|? m ? msgs' (a' & Ha' & Hq) Hm']; subst;
    constructor; [|by apply IH].
  by rewrite (NoDup_lookup _ _ _ _ Hnd Ha Ha').
Qed.

(** Factor.send_sp_msg(to) for a factor with at least one neighbour
    other than [to], whose neighbour list has no duplicates and whose
    potential has one axis per neighbour: when in_msgs holds, from every
    neighbour other than [to], a vector as long as that neighbour's
    axis of the potential, [to] receives the vector over its own axis
    whose entry x is the sum, over all cells of the potential with
    coordinate x on that axis, of the cell times the product of the
    messages' entries at the cell's other coordinates: the contraction
    of the potential with the outer product of the messages, taken in
    neighbour order. *)
Theorem factor_send_sp_contraction st self other f fa other_i msgs :
  kind_of st self = Some (FactorNode (Some f)) →
  heap st !! f = Some fa →
  is_Some (nodes st !! other) →
  NoDup (nbrs st self) →
  nbrs st self !! other_i = Some other →
  ndim fa = length (nbrs st self) →
  msgs ≠ [] →
  Forall2 (λ nb m, message st self nb = Some m
                   ∧ ∃ a, nbrs st self !! a = Some nb
                          ∧ shape m = [nth a (shape fa) 0])
          (filter (λ nb, nb ≠ other) (nbrs st self)) msgs →
  ∃ st' r, send_sp_msg self other st = (Ok (), st')
           ∧ message st' other self = Some r
           ∧ shape r = [nth other_i (shape fa) 0]
           ∧ ∀ x, item r [x] = item (contract fa other_i (outer msgs)) [x].
Proof.
  intros (n & Hs & Hk)%kind_of_Some Hf [no Ho] Hnd Hoi Hrank Hne Hm.
  rewrite (nbrs_Some _ _ _ Hs) in *.
  assert (Forall2 (λ nb m, message st self nb = Some m)
            (filter (λ nb, nb ≠ other) (neighbours n)) msgs) as Hm1.
  { eapply Forall2_impl; [exact Hm|]. by intros nb m [? _]. }
  assert (Forall2 (λ a m, shape m = [nth a (shape fa) 0])
            (filter (λ a, a ≠ other_i) (seq 0 (length (neighbours n)))) msgs)
    as Hm2.
  { apply (positions_shapes (neighbours n) _
             (filter (λ nb, nb ≠ other) (neighbours n))); [done| |].
    - exact (filter_positions [] (neighbours n) other_i other Hnd Hoi).
    - eapply Forall2_impl; [exact Hm|]. by intros nb m [_ ?]. }
  destruct (axes_shape_messages _ _ _ Hm2) as [Hshape Hvec].
  destruct (mesh_product_outer msgs Hne) as (mm & Emm & Hsmm & Himm).
  assert (other_i < ndim fa) as Hlt
    by (rewrite Hrank; by eapply lookup_lt_Some).
  destruct (tensordot_contract fa mm other_i Hlt) as (r & Er & Hr1 & Hr2).
  { by rewrite Hrank, Hsmm. }
  destruct (deliver_Ok (Store (nodes st) (heap st ++ [r]) (history st))
              self other (length (heap st)) n no Hs Ho) as (st' & E & Hd).
  exists st', r. split; [|split; [by apply message_after_alloc in Hd|]].
  - unfold send_sp_msg, Factor.send_sp_msg.
    rewrite !(bind_Ok _ _ _ _ _ (get_node_Ok _ _ _ Hs)), Hk.
    rewrite (bind_Ok _ _ _ _ _ (get_node_Ok _ _ _ Hs)), Hk. simpl.
    rewrite decide_False; last first.
    { rewrite (Forall2_length _ _ _ Hm1). by destruct msgs. }
    erewrite bind_Ok; [exact E|].
    erewrite bind_Ok; [|exact (mapM_in_msg_Ok _ _ _ _ _ Hs Hm1)].
    erewrite bind_Ok; [|unfold lift; by rewrite (np_ix_Ok msgs Hvec)].
    erewrite bind_Ok; [|unfold lift; by rewrite Emm].
    rewrite (index_NoDup_lookup _ _ _ Hnd Hoi).
    erewrite bind_Ok; [|reflexivity].
    erewrite bind_Ok; [|unfold deref; by rewrite Hf].
    rewrite <- Hrank.
    erewrite bind_Ok; [|unfold lift; by rewrite Er].
    apply alloc_Ok.
  - split; [done|]. intros x. rewrite Hr2. unfold contract. cbn [item nth].
    rewrite Hsmm. f_equal. apply list_fmap_ext.
    intros j k Hk'%list_elem_of_lookup_2. rewrite Himm; [done|].
    by rewrite Hsmm.
Qed.
End factor_sum_product.
Lemma chain_after_X1_inbox :
  ∃ fa m, kind_of chain_after_X1 3 = Some (FactorNode (Some 3))
          ∧ heap chain_after_X1 !! 3 = Some fa
          ∧ shape fa = [2; 2]
          ∧ is_Some (nodes chain_after_X1 !! 1)
          ∧ nbrs chain_after_X1 3 = [0; 1]
          ∧ message chain_after_X1 3 0 = Some m
          ∧ shape m = [2].
Proof.
  vm_compute. eexists _, _.
  repeat split; try reflexivity. eexists. reflexivity.
Qed.

Lemma factor_send_sp_contraction_witness :
  ∃ st' r, send_sp_msg 3 1 chain_after_X1 = (Ok (), st')
           ∧ message st' 1 3 = Some r
           ∧ shape r = [2].
Proof.
  destruct chain_after_X1_inbox as (fa & m & Hk & Hf & Hfs & Ho & Hn & Hm & Hms).
  destruct (factor_send_sp_contraction chain_after_X1 3 1 3 fa 1 [m])
    as (st' & r & E & Hmsg & Hr & _).
  - exact Hk.
  - exact Hf.
  - exact Ho.
  - rewrite Hn. apply NoDup_cons_2; [|apply NoDup_cons_2; [|apply NoDup_nil_2]].
    + by intros [=]%list_elem_of_singleton.
    + by intros ?%elem_of_nil.
  - rewrite Hn. reflexivity.
  - rewrite Hn. unfold ndim. rewrite Hfs. reflexivity.
  - discriminate.
  - rewrite Hn.
    replace (filter (λ nb, nb ≠ 1) [0; 1]) with [0] by (vm_compute; reflexivity).
    constructor; [|constructor]. split; [exact Hm|].
    exists 0. split; [reflexivity|]. rewrite Hms, Hfs. reflexivity.
  - exists st', r. split; [exact E|]. split; [exact Hmsg|].
    rewrite Hr, Hfs. reflexivity.
Defined.

(** ** The script *)

Section script_run.
Context {A : Type} `{Scalar A} `{Log A}.
Variable num : Q → A.

Lemma elem_of_edges (st : store A) l u v :
  (u, v) ∈ edges st l ↔ u ∈ l ∧ v ∈ nbrs st u.
Proof.
  unfold edges. rewrite list_elem_of_bind. split.
  - intros (w & (x & [= -> ->] & Hx)%list_elem_of_fmap & Hw). done.
  - intros [Hu Hv]. exists u. split; [|done].
    apply list_elem_of_fmap. by exists v.
Qed.

Lemma nbrs_absent (st : store A) u : u ∉ dom (nodes st) → nbrs st u = [].
Proof. intros Hu%not_elem_of_dom. unfold nbrs. by rewrite Hu. Qed.

Lemma instantiate_network_check :
  let r := instantiate_network num empty_store in
  match fst r with
  | Ok (f_, v_) =>
      let st := snd r in
      let l := elements (dom (nodes st)) in
      bool_decide (size (dom f_) = 7 ∧ size (dom v_) = 7)
      && bool_decide (Forall (λ u, well_formed st u = true) l)
      && bool_decide (Forall (λ v, is_variable st v 2 = true)
                             (snd <$> map_to_list v_))
      && bool_decide (Forall (λ f, is_factor st f = true)
                             (snd <$> map_to_list f_))
      && bool_decide (list_to_set (snd <$> map_to_list v_)
                      ∪ list_to_set (snd <$> map_to_list f_)
                      = dom (nodes st))
      && bool_decide (length (edges st l) = 26 ∧ size (dom (nodes st)) = 14)
      && bool_decide (list_to_set [8; 7; 2; 3; 5; 6; 9; 11; 13; 12; 1; 4; 0; 10]
                      = dom (nodes st))
      && leaves_first st [8; 7; 2; 3; 5; 6; 9; 11; 13; 12; 1; 4; 0; 10]
  | Raise _ => false
  end = true.
Proof. vm_compute. reflexivity. Qed.

Lemma script_check :
  let r := script num empty_store in
  match fst r with
  | Ok (l, out) =>
      let st := snd r in
      let h := history st in
      let log1 := take 26 (drop 13 h) in
      let log2 := drop 39 h in
      bool_decide (NoDup l)
      && bool_decide (list_to_set l = dom (nodes st))
      && leaves_first st l
      && bool_decide (length h = 65)
      && bool_decide (NoDup log1 ∧ (list_to_set log1 : gset (nat * nat))
                                   = list_to_set (edges st l))
      && bool_decide (NoDup log2 ∧ (list_to_set log2 : gset (nat * nat))
                                   = list_to_set (edges st l))
      && bool_decide (Forall (inbox_full st) l)
      && bool_decide (length out.1 = 7 ∧ length out.2 = 7)
  | Raise _ => false
  end = true.
Proof. vm_compute. reflexivity. Qed.

Lemma log_is_edges (st : store A) l (log : list (nat * nat)) :
  list_to_set l = dom (nodes st) →
  (list_to_set log : gset (nat * nat)) = list_to_set (edges st l) →
  ∀ u v, (u, v) ∈ log ↔ v ∈ nbrs st u.
Proof.
  intros Hl Hlog u v.
  rewrite <- (elem_of_list_to_set (C:=gset (nat * nat))), Hlog.
  rewrite elem_of_list_to_set, elem_of_edges. split; [by intros [_ ?]|].
  intros Hv. split; [|done].
  destruct (decide (u ∈ dom (nodes st))) as [Hu|Hu].
  - by rewrite <- Hl, elem_of_list_to_set in Hu.
  - rewrite (nbrs_absent st u Hu) in Hv. by apply elem_of_nil in Hv.
Qed.

(** instantiate_network(), for every numeric type: the call returns
    (no assertion of Factor.__init__ fails) with seven variables, all
    binary, and seven factors; a variable lists only factors and a
    factor only variables, every edge is registered at both ends, and
    every potential has one axis per neighbour, as long as the
    neighbour has states; the graph is a tree: it has 14 nodes and 13
    edges, and its nodes can be ordered so that each has at most one
    neighbour later in the order. *)
Theorem instantiate_network_builds_tree :
  ∃ f_ v_ st,
    instantiate_network num empty_store = (Ok (f_, v_), st)
    ∧ size (dom v_) = 7 ∧ size (dom f_) = 7
    ∧ (∀ key v, v_ !! key = Some v → is_variable st v 2 = true)
    ∧ (∀ key f, f_ !! key = Some f → is_factor st f = true)
    ∧ (∀ u, u ∈ dom (nodes st) →
            well_formed st u = true
            ∧ ∃ key, v_ !! key = Some u ∨ f_ !! key = Some u)
    ∧ size (dom (nodes st)) = 14
    ∧ length (edges st (elements (dom (nodes st)))) = 2 * 13
    ∧ ∃ order, list_to_set order = dom (nodes st)
               ∧ leaves_first st order = true.
Proof.
  pose proof instantiate_network_check as Hc. cbv zeta in Hc.
  destruct (instantiate_network num empty_store) as [[[f_ v_]|e] st];
    cbn [fst snd] in Hc; [|discriminate].
  repeat (apply andb_prop in Hc as [Hc ?]).
  repeat match goal with
         | H : bool_decide _ = true |- _ => apply bool_decide_eq_true in H
         end.
  destruct Hc as [Hf Hv].
  match goal with H : _ ∧ _ |- _ => destruct H as [He Hn] end.
  exists f_, v_, st. split; [done|]. split; [done|]. split; [done|].
  assert (∀ (d : gmap string nat) (P : nat → Prop),
            Forall P (snd <$> map_to_list d) →
            ∀ key x, d !! key = Some x → P x) as Hall.
  { intros d P HP key x Hx. rewrite Forall_forall in HP. apply HP.
    apply list_elem_of_fmap. exists (key, x). split; [done|].
    by apply elem_of_map_to_list. }
  split; [by apply Hall|]. split; [by apply Hall|].
  split.
  { intros u Hu. split.
    - match goal with
      | H : Forall (λ u, well_formed _ u = true) _ |- _ =>
          rewrite Forall_forall in H; apply H
      end.
      by apply elem_of_elements.
    - match goal with
      | H : _ ∪ _ = dom (nodes st) |- _ => rewrite <- H in Hu
      end.
      apply elem_of_union in Hu as [Hu|Hu];
        apply elem_of_list_to_set, list_elem_of_fmap in Hu
          as ([key x] & -> & Hx%elem_of_map_to_list);
        exists key; [by left | by right]. }
  split; [done|]. split; [done|].
  by exists [8; 7; 2; 3; 5; 6; 9; 11; 13; 12; 1; 4; 0; 10].
Qed.

(** The module body, for every numeric type and logarithm: it runs to
    the end without raising, in sum-product and in max-sum mode.  The
    list [nodes] has no duplicates, holds every node of the network and
    is ordered leaves first.  After the 13 sends made by hand, each of
    the two calls of sum_product delivers exactly one message along
    every edge in each direction; at the end every node holds a message
    from each of its neighbours, and each call of print_values has
    printed seven lines. *)
Theorem script_completes :
  ∃ l out st,
    script num empty_store = (Ok (l, out), st)
    ∧ NoDup l ∧ list_to_set l = dom (nodes st) ∧ leaves_first st l = true
    ∧ (∃ log0 log1 log2,
         history st = log0 ++ log1 ++ log2 ∧ length log0 = 13
         ∧ NoDup log1 ∧ (∀ u v, (u, v) ∈ log1 ↔ v ∈ nbrs st u)
         ∧ NoDup log2 ∧ (∀ u v, (u, v) ∈ log2 ↔ v ∈ nbrs st u))
    ∧ (∀ u, u ∈ dom (nodes st) → inbox_full st u)
    ∧ length out.1 = 7 ∧ length out.2 = 7.
Proof.
  pose proof script_check as Hc. cbv zeta in Hc.
  destruct (script num empty_store) as [[[l out]|e] st];
    cbn [fst snd] in Hc; [|discriminate].
  repeat (apply andb_prop in Hc as [Hc ?]).
  repeat match goal with
         | H : bool_decide _ = true |- _ => apply bool_decide_eq_true in H
         end.
  repeat match goal with H : _ ∧ _ |- _ => destruct H end.
  assert (list_to_set l = dom (nodes st)) as Hl by done.
  exists l, out, st. split; [done|]. split; [done|]. split; [done|].
  split; [done|]. split.
  { exists (take 13 (history st)), (take 26 (drop 13 (history st))),
      (drop 39 (history st)).
    split.
    { rewrite <- (take_drop 13 (history st)) at 1. f_equal.
      rewrite <- (take_drop 26 (drop 13 (history st))) at 1. f_equal.
      by rewrite drop_drop. }
    split; [rewrite length_take; lia|].
    split; [done|]. split; [by apply (log_is_edges st l)|].
    split; [done|]. by apply (log_is_edges st l). }
  split; [|done].
  intros u Hu. rewrite <- Hl, elem_of_list_to_set in Hu.
  match goal with
  | H : Forall (inbox_full st) l |- _ => rewrite Forall_forall in H; by apply H
  end.
Qed.
End script_run.

(** ** Factor.send_sp_msg to a node that is not a neighbour *)

Section factor_not_a_neighbour.
Context {A : Type} `{Scalar A}.
Implicit Types (st : store A).

(** Factor.send_sp_msg(to) when [to] is not in the factor's neighbour
    list, the list is not empty and in_msgs holds a vector from every
    neighbour: the product of the messages is formed, then
    self.neighbours.index(to) raises ValueError; nothing is delivered
    and the state is unchanged. *)
Theorem factor_send_sp_not_a_neighbour st self other f msgs :
  kind_of st self = Some (FactorNode f) →
  other ∉ nbrs st self →
  msgs ≠ [] →
  Forall2 (λ nb m, message st self nb = Some m ∧ ndim m = 1)
          (nbrs st self) msgs →
  send_sp_msg self other st = (Raise ValueError, st).
Proof.
  intros (n & Hs & Hk)%kind_of_Some Hno Hne Hm.
  rewrite (nbrs_Some _ _ _ Hs) in *.
  assert (filter (λ nb, nb ≠ other) (neighbours n) = neighbours n) as Hnb.
  { apply filter_all. intros x Hx ->. done. }
  assert (Forall2 (λ nb m, message st self nb = Some m) (neighbours n) msgs)
    as Hm1 by (eapply Forall2_impl; [exact Hm|]; by intros ?? [? _]).
  assert (Forall (λ v, ndim v = 1) msgs) as Hvec.
  { clear -Hm. induction Hm as [|???? [_ ?] _ IH]; by constructor. }
  destruct (mesh_product_outer msgs Hne) as (mm & Emm & _).
  unfold send_sp_msg, Factor.send_sp_msg.
  rewrite !(bind_Ok _ _ _ _ _ (get_node_Ok _ _ _ Hs)), Hk.
  rewrite (bind_Ok _ _ _ _ _ (get_node_Ok _ _ _ Hs)), Hk. simpl.
  rewrite Hnb. rewrite decide_False; last first.
  { rewrite (Forall2_length _ _ _ Hm1). by destruct msgs. }
  apply bind_Raise.
  erewrite bind_Ok; [|exact (mapM_in_msg_Ok _ _ _ _ _ Hs Hm1)].
  erewrite bind_Ok; [|unfold lift; by rewrite (np_ix_Ok msgs Hvec)].
  erewrite bind_Ok; [|unfold lift; by rewrite Emm].
  by rewrite (index_None _ _ Hno).
Qed.
End factor_not_a_neighbour.

Lemma chain_f12_ready_inbox :
  ∃ f m0 m1, kind_of chain_f12_ready 3 = Some (FactorNode f)
             ∧ nbrs chain_f12_ready 3 = [0; 1]
             ∧ message chain_f12_ready 3 0 = Some m0 ∧ ndim m0 = 1
             ∧ message chain_f12_ready 3 1 = Some m1 ∧ ndim m1 = 1.
Proof. vm_compute. eexists _, _, _. repeat split; reflexivity. Qed.

Lemma factor_send_sp_not_a_neighbour_witness :
  send_sp_msg 3 2 chain_f12_ready = (Raise ValueError, chain_f12_ready).
Proof.
  destruct chain_f12_ready_inbox as (f & m0 & m1 & Hk & Hn & H0 & Hd0 & H1 & Hd1).
  apply (factor_send_sp_not_a_neighbour chain_f12_ready 3 2 f [m0; m1]).
  - exact Hk.
  - rewrite Hn. intros [[=]|[[=]|[]%elem_of_nil]%elem_of_cons]%elem_of_cons.
  - discriminate.
  - rewrite Hn. constructor; [by split|]. constructor; [by split|constructor].
Defined.

(** ** Factor.send_ms_msg on a factor of two variables *)

Section pairwise_max_sum_facts.
Context {A : Type} `{Scalar A} `{Log A}.
Implicit Types (st : store A) (fa m : ndarray A).

(** the message of the one other neighbour after np.tile, np.rollaxis
    and [mm += t] *)
Lemma single_message_accumulated m k :
  shape m = [k] →
  ∃ t mm, np_rollaxis (np_tile m [1]) 0 0 = Ok t
          ∧ aug_assign add (PyNum zero) t = Ok (PyArr mm)
          ∧ shape mm = [k]
          ∧ ∀ j, j < k → item mm [j] = add zero (item m [j]).
Proof.
  intros Hm. exists (np_tile m [1]).
  assert (shape (np_tile m [1]) = [k]) as Hs.
  { unfold np_tile, ndim. rewrite Hm. simpl. by rewrite Nat.mul_1_r. }
  exists (ufunc1 (add zero) (np_tile m [1])). split; [|split; [|split]].
  - unfold np_rollaxis, ndim. rewrite Hs. done.
  - unfold aug_assign, from_array. cbn [ufunc1 shape]. by rewrite Hs.
  - done.
  - intros j Hj. unfold ufunc1, np_tile, ndim. cbn [item]. rewrite Hm.
    simpl. by rewrite Nat.mod_small.
Qed.

Lemma bindex_vector k x j :
  j < k → bindex [k] [x; j] = [j].
Proof.
  intros Hj. unfold bindex. simpl. case_decide; [|done].
  f_equal. lia.
Qed.

Lemma bindex_matrix da db x j :
  x < da → j < db → bindex [da; db] [x; j] = [x; j].
Proof. intros Hx Hj. apply bindex_valid. by repeat constructor. Qed.

Lemma indices_vector k : indices [k] = (λ j, [j]) <$> seq 0 k.
Proof.
  simpl. generalize 0. induction k as [|k IH]; intros a; simpl; [done|].
  f_equal; apply IH.
Qed.

Lemma broadcast_trailing da db : broadcast_shapes [da; db] [db] = Some [da; db].
Proof.
  unfold broadcast_shapes. simpl. by rewrite decide_True.
Qed.

Lemma broadcast_trailing_mismatch da db :
  da ≠ db → da ≠ 1 → db ≠ 1 → broadcast_shapes [da; db] [da] = None.
Proof.
  intros H1 H2 H3. unfold broadcast_shapes. simpl.
  by rewrite !decide_False by done.
Qed.

(** log(f) + mm and the maximum over axis 1, when mm runs along
    axis 1 *)
Lemma pairwise_amax_first fa mm m da db :
  shape fa = [da; db] → shape mm = [db] → 0 < db →
  (∀ j, j < db → item mm [j] = add zero (item m [j])) →
  ∃ s r, binop add (PyArr (np_log fa)) (PyArr mm) = Ok s
         ∧ np_amax (to_array s) [1] = Ok r
         ∧ shape r = [da]
         ∧ ∀ x, x < da →
                item r [x] = item (max_sum_message fa 0 [(1, m)]) [x].
Proof.
  intros Hfa Hmm Hdb Hitem.
  set (sarr := NDArray [da; db]
                 (λ idx, add (log (item fa (bindex [da; db] idx)))
                             (item mm (bindex [db] idx)))).
  assert (binop add (PyArr (np_log fa)) (PyArr mm) = Ok (PyArr sarr)) as E1.
  { unfold binop, ufunc2. cbn [to_array np_log ufunc1 shape item].
    rewrite Hfa, Hmm, broadcast_trailing. done. }
  exists (PyArr sarr).
  unfold np_amax, ndim. cbn [to_array]. subst sarr. cbn [shape length].
  rewrite decide_True; last first.
  { split; [repeat constructor; lia | apply NoDup_singleton]. }
  rewrite decide_False; last first.
  { simpl. intros ?%list_elem_of_singleton. lia. }
  eexists. split; [done|]. split; [reflexivity|]. split; [done|].
  intros x Hx. unfold max_sum_message, ndim. cbn [item shape]. rewrite Hfa.
  change (axes_shape _ [1]) with [db].
  change (axes_shape fa (filter (λ k, k ≠ 0) (seq 0 (length [da; db]))))
    with [nth 1 (shape fa) 0]. rewrite Hfa. cbn [nth].
  change (filter (λ k, k ∉ [1]) (seq 0 2)) with [0].
  rewrite indices_vector, <- !list_fmap_compose.
  erewrite (list_fmap_ext _ _ (seq 0 db)); [reflexivity|].
  intros i j Hj%lookup_seq. destruct Hj as [-> Hj]. simpl in Hj |- *.
  change (gather 2 [1] [i] [0] [x]) with [x; i].
  rewrite bindex_matrix, bindex_vector, Hitem by done.
  unfold list_insert, sum_list. simpl. done.
Qed.

(** the same when mm runs along axis 1 but stems from the neighbour of
    axis 0: the maximum is taken over axis 0 *)
Lemma pairwise_amax_second fa mm m d :
  shape fa = [d; d] → shape mm = [d] → 0 < d →
  (∀ j, j < d → item mm [j] = add zero (item m [j])) →
  ∃ s r, binop add (PyArr (np_log fa)) (PyArr mm) = Ok s
         ∧ np_amax (to_array s) [0] = Ok r
         ∧ shape r = [d]
         ∧ ∀ y, y < d →
                item r [y] = item (max_sum_message fa 1 [(1, m)]) [y].
Proof.
  intros Hfa Hmm Hd Hitem.
  set (sarr := NDArray [d; d]
                 (λ idx, add (log (item fa (bindex [d; d] idx)))
                             (item mm (bindex [d] idx)))).
  assert (binop add (PyArr (np_log fa)) (PyArr mm) = Ok (PyArr sarr)) as E1.
  { unfold binop, ufunc2. cbn [to_array np_log ufunc1 shape item].
    rewrite Hfa, Hmm, broadcast_trailing. done. }
  exists (PyArr sarr).
  unfold np_amax, ndim. cbn [to_array]. subst sarr. cbn [shape length].
  rewrite decide_True; last first.
  { split; [repeat constructor; lia | apply NoDup_singleton]. }
  rewrite decide_False; last first.
  { simpl. intros ?%list_elem_of_singleton. lia. }
  eexists. split; [done|]. split; [reflexivity|]. split; [done|].
  intros y Hy. unfold max_sum_message, ndim. cbn [item shape]. rewrite Hfa.
  change (axes_shape _ [0]) with [d].
  change (axes_shape fa (filter (λ k, k ≠ 1) (seq 0 (length [d; d]))))
    with [nth 0 (shape fa) 0]. rewrite Hfa. cbn [nth].
  change (filter (λ k, k ∉ [0]) (seq 0 2)) with [1].
  rewrite indices_vector, <- !list_fmap_compose.
  erewrite (list_fmap_ext _ _ (seq 0 d)); [reflexivity|].
  intros i j Hj%lookup_seq. destruct Hj as [-> Hj]. simpl in Hj |- *.
  change (gather 2 [0] [i] [1] [y]) with [i; y].
  rewrite bindex_matrix, bindex_vector, Hitem by done.
  unfold list_insert, sum_list. simpl. done.
Qed.

Lemma pairwise_add_mismatch fa mm da db :
  shape fa = [da; db] → shape mm = [da] →
  da ≠ db → da ≠ 1 → db ≠ 1 →
  binop add (PyArr (np_log fa)) (PyArr mm) = Raise ValueError.
Proof.
  intros Hfa Hmm H1 H2 H3. unfold binop, ufunc2.
  cbn [to_array np_log ufunc1 shape item].
  by rewrite Hfa, Hmm, broadcast_trailing_mismatch.
Qed.

Lemma bind_ext_l {T U} (m m' : M A T) (k : T → M A U) st :
  m st = m' st → bind m k st = bind m' k st.
Proof. unfold bind. by intros ->. Qed.

Lemma num_states_of_Ok st nb ns lat obs :
  kind_of st nb = Some (VariableNode ns lat obs) →
  Factor.num_states_of nb st = (Ok ns, st).
Proof.
  intros (n & Hn & Hk)%kind_of_Some. unfold Factor.num_states_of.
  by rewrite (bind_Ok _ _ _ _ _ (get_node_Ok _ _ _ Hn)), Hk.
Qed.

(** Factor.send_ms_msg(to) on a factor with exactly one neighbour [nb]
    other than [to], up to the addition to log(f) *)
Lemma factor_send_ms_one_other st self n f fa other nb other_i
    ns lat obs m t mm :
  nodes st !! self = Some n → kind n = FactorNode (Some f) →
  heap st !! f = Some fa →
  filter (λ x, x ≠ other) (neighbours n) = [nb] →
  index other (neighbours n) = Some other_i →
  kind_of st nb = Some (VariableNode ns lat obs) →
  message st self nb = Some m →
  np_rollaxis (np_tile m [1]) 0 0 = Ok t →
  aug_assign add (PyNum zero) t = Ok mm →
  Factor.send_ms_msg self other st
  = (msg <- (s <- lift (binop add (PyArr (np_log fa)) mm) ;;
             r <- lift (np_amax (to_array s)
                          (filter (λ i, i ≠ other_i)
                                  (seq 0 (length (neighbours n))))) ;;
             alloc r) ;;
     deliver self other msg) st.
Proof.
  intros Hs Hk Hf Hnb Hoi Hkb Hm Et Emm.
  unfold Factor.send_ms_msg.
  rewrite (bind_Ok _ _ _ _ _ (get_node_Ok _ _ _ Hs)), Hk. cbv zeta.
  rewrite Hnb. rewrite decide_False by done.
  apply bind_ext_l.
  erewrite bind_Ok; last first.
  { cbn [mapM]. rewrite (bind_Ok _ _ _ _ _ (num_states_of_Ok _ _ _ _ _ Hkb)).
    reflexivity. }
  erewrite bind_Ok; last first.
  { cbn [foldM index]. rewrite decide_True by done.
    erewrite bind_Ok; [reflexivity|].
    erewrite bind_Ok; [|reflexivity].
    rewrite (bind_Ok _ _ _ _ _ (in_msg_Ok _ _ _ _ _ Hs Hm)).
    change (delete 0 [ns] ++ [1]) with [1].
    erewrite bind_Ok; [|unfold lift; by rewrite Et].
    unfold lift. by rewrite Emm. }
  rewrite Hoi. erewrite bind_Ok; [|reflexivity].
  erewrite bind_Ok; [|unfold Factor.potential, deref; by rewrite Hf].
  reflexivity.
Qed.

Lemma filter_pair_first (a b : nat) :
  a ≠ b → filter (λ x, x ≠ a) [a; b] = [b].
Proof.
  intros Hab. rewrite filter_cons, decide_False by (intros ?; done).
  rewrite filter_cons, decide_True by (intros ->; done). done.
Qed.

Lemma filter_pair_second (a b : nat) :
  a ≠ b → filter (λ x, x ≠ b) [a; b] = [a].
Proof.
  intros Hab. rewrite filter_cons, decide_True by done.
  rewrite filter_cons, decide_False by (intros ?; done). done.
Qed.

(** Factor.send_ms_msg(to) on a factor of two variables, [to] being the
    first: when in_msgs holds a vector from the second variable, as
    long as the potential's second axis (not empty), [to] receives the
    max-sum message: entry x is the maximum over j of
    log f[x, j] + (0 + m[j]). *)
Theorem factor_send_ms_first_neighbour st self a b f fa da db m ns lat obs :
  kind_of st self = Some (FactorNode (Some f)) →
  heap st !! f = Some fa → shape fa = [da; db] →
  nbrs st self = [a; b] → a ≠ b →
  is_Some (nodes st !! a) →
  kind_of st b = Some (VariableNode ns lat obs) →
  message st self b = Some m → shape m = [db] → 0 < db →
  ∃ st' r, send_ms_msg self a st = (Ok (), st')
           ∧ message st' a self = Some r
           ∧ shape r = [da]
           ∧ ∀ x, x < da →
                  item r [x] = item (max_sum_message fa 0 [(1, m)]) [x].
Proof.
  intros (n & Hs & Hk)%kind_of_Some Hf Hfa Hnbrs Hab [no Ho] Hkb Hm Hsm Hdb.
  rewrite (nbrs_Some _ _ _ Hs) in Hnbrs.
  destruct (single_message_accumulated m db Hsm)
    as (t & mm & Et & Emm & Hmm & Hitem).
  destruct (pairwise_amax_first fa mm m da db Hfa Hmm Hdb Hitem)
    as (s & r & Es & Er & Hr & Hri).
  destruct (deliver_Ok (Store (nodes st) (heap st ++ [r]) (history st))
              self a (length (heap st)) n no Hs Ho) as (st' & E & Hd).
  exists st', r. split; [|split; [by apply message_after_alloc in Hd|done]].
  unfold send_ms_msg.
  rewrite (bind_Ok _ _ _ _ _ (get_node_Ok _ _ _ Hs)), Hk.
  rewrite (factor_send_ms_one_other st self n f fa a b 0 ns lat obs m t
             (PyArr mm)); try done.
  - erewrite bind_Ok; [exact E|].
    erewrite bind_Ok; [|unfold lift; by rewrite Es].
    rewrite Hnbrs.
    change (filter (λ i, i ≠ 0) (seq 0 (length [a; b]))) with [1].
    erewrite bind_Ok; [|unfold lift; by rewrite Er].
    apply alloc_Ok.
  - rewrite Hnbrs. by apply filter_pair_first.
  - rewrite Hnbrs. simpl. by rewrite decide_True.
Qed.

(** Factor.send_ms_msg(to) on a factor of two variables, [to] being the
    second, when in_msgs holds a vector m from the first variable, as
    long as the potential's first axis.  The tiled message is added to
    log(f) along the last axis, the receiver's.  If the two axes differ
    in length (and neither has length 1) the addition raises ValueError
    and nothing is delivered.  If they have the same length, [to]
    receives the vector whose entry y is the maximum over i of
    log f[i, y] + (0 + m[y]): the message is read at the receiver's
    coordinate y, not at the sender's coordinate i. *)
Theorem factor_send_ms_second_neighbour st self a b f fa da db m ns lat obs :
  kind_of st self = Some (FactorNode (Some f)) →
  heap st !! f = Some fa → shape fa = [da; db] →
  nbrs st self = [a; b] → a ≠ b →
  is_Some (nodes st !! b) →
  kind_of st a = Some (VariableNode ns lat obs) →
  message st self a = Some m → shape m = [da] →
  (da ≠ db → da ≠ 1 → db ≠ 1 →
     send_ms_msg self b st = (Raise ValueError, st))
  ∧ (da = db → 0 < da →
     ∃ st' r, send_ms_msg self b st = (Ok (), st')
              ∧ message st' b self = Some r
              ∧ shape r = [db]
              ∧ ∀ y, y < db →
                     item r [y] = item (max_sum_message fa 1 [(1, m)]) [y]).
Proof.
  intros (n & Hs & Hk)%kind_of_Some Hf Hfa Hnbrs Hab [no Ho] Hka Hm Hsm.
  rewrite (nbrs_Some _ _ _ Hs) in Hnbrs.
  destruct (single_message_accumulated m da Hsm)
    as (t & mm & Et & Emm & Hmm & Hitem).
  assert (Factor.send_ms_msg self b st
          = (msg <- (s <- lift (binop add (PyArr (np_log fa)) (PyArr mm)) ;;
                     r <- lift (np_amax (to_array s) [0]) ;;
                     alloc r) ;;
             deliver self b msg) st) as Estart.
  { rewrite (factor_send_ms_one_other st self n f fa b a 1 ns lat obs m t
               (PyArr mm)); try done.
    - by rewrite Hnbrs.
    - rewrite Hnbrs. by apply filter_pair_second.
    - rewrite Hnbrs. simpl. rewrite decide_False by done.
      by rewrite decide_True. }
  split.
  - intros H1 H2 H3. unfold send_ms_msg.
    rewrite (bind_Ok _ _ _ _ _ (get_node_Ok _ _ _ Hs)), Hk, Estart.
    apply bind_Raise. apply bind_Raise. unfold lift.
    by rewrite (pairwise_add_mismatch fa mm da db).
  - intros <- Hda.
    destruct (pairwise_amax_second fa mm m da Hfa Hmm Hda Hitem)
      as (s & r & Es & Er & Hr & Hri).
    destruct (deliver_Ok (Store (nodes st) (heap st ++ [r]) (history st))
                self b (length (heap st)) n no Hs Ho) as (st' & E & Hd).
    exists st', r. split; [|split; [by apply message_after_alloc in Hd|done]].
    unfold send_ms_msg.
    rewrite (bind_Ok _ _ _ _ _ (get_node_Ok _ _ _ Hs)), Hk, Estart.
    erewrite bind_Ok; [exact E|].
    erewrite bind_Ok; [|unfold lift; by rewrite Es].
    erewrite bind_Ok; [|unfold lift; by rewrite Er].
    apply alloc_Ok.
Qed.
End pairwise_max_sum_facts.

Section chain_ms_ready_facts.
Context {A : Type} `{Scalar A} `{Log A}.
Variables (p1 p2 q11 q12 q21 q22 : A).

Lemma chain_ms_ready_inbox :
  let st := chain_ms_ready p1 p2 q11 q12 q21 q22 in
  ∃ fa m0 m1 obs0 obs1,
    kind_of st 3 = Some (FactorNode (Some 3))
    ∧ heap st !! 3 = Some fa ∧ shape fa = [2; 2]
    ∧ nbrs st 3 = [0; 1]
    ∧ is_Some (nodes st !! 0) ∧ is_Some (nodes st !! 1)
    ∧ kind_of st 0 = Some (VariableNode 2 true obs0)
    ∧ kind_of st 1 = Some (VariableNode 2 true obs1)
    ∧ message st 3 0 = Some m0 ∧ shape m0 = [2]
    ∧ message st 3 1 = Some m1 ∧ shape m1 = [2].
Proof.
  vm_compute. eexists _, _, _, _, _.
  repeat split; try reflexivity; eexists; reflexivity.
Qed.
End chain_ms_ready_facts.

Lemma factor_send_ms_first_neighbour_witness :
  ∃ st' r, send_ms_msg 3 0 scenario_ms_ready = (Ok (), st')
           ∧ message st' 0 3 = Some r
           ∧ shape r = [2].
Proof.
  destruct (chain_ms_ready_inbox
              (1/2)%R (1/2)%R (9/10)%R (1/10)%R (2/10)%R (8/10)%R)
    as (fa & m0 & m1 & obs0 & obs1 & Hk & Hf & Hfa & Hn & Ho0 & Ho1
        & Hk0 & Hk1 & Hm0 & Hs0 & Hm1 & Hs1).
  destruct (factor_send_ms_first_neighbour scenario_ms_ready 3 0 1 3 fa 2 2
              m1 2 true obs1) as (st' & r & E & Hmsg & Hr & _).
  - exact Hk.
  - exact Hf.
  - exact Hfa.
  - exact Hn.
  - discriminate.
  - exact Ho0.
  - exact Hk1.
  - exact Hm1.
  - exact Hs1.
  - lia.
  - exists st', r. split; [exact E|]. split; [exact Hmsg | exact Hr].
Defined.

Lemma factor_send_ms_second_neighbour_witness :
  ∃ st' r, send_ms_msg 3 1 scenario_ms_ready = (Ok (), st')
           ∧ message st' 1 3 = Some r
           ∧ shape r = [2].
Proof.
  destruct (chain_ms_ready_inbox
              (1/2)%R (1/2)%R (9/10)%R (1/10)%R (2/10)%R (8/10)%R)
    as (fa & m0 & m1 & obs0 & obs1 & Hk & Hf & Hfa & Hn & Ho0 & Ho1
        & Hk0 & Hk1 & Hm0 & Hs0 & Hm1 & Hs1).
  destruct (factor_send_ms_second_neighbour scenario_ms_ready 3 0 1 3 fa 2 2
              m0 2 true obs0) as [_ Hsame].
  - exact Hk.
  - exact Hf.
  - exact Hfa.
  - exact Hn.
  - discriminate.
  - exact Ho1.
  - exact Hk0.
  - exact Hm0.
  - exact Hs0.
  - destruct Hsame as (st' & r & E & Hmsg & Hr & _); [reflexivity | lia |].
    exists st', r. split; [exact E|]. split; [exact Hmsg | exact Hr].
Defined.

(** ** The leaf fix-up of sum_product *)

Section leaf_fix_up.
Context {A : Type}.
Implicit Types (st : store A).


End leaf_fix_up.

